(** * Better Parenting: a shallow embedding of the add-on's three operators

    The add-on (src/__init__.py) is a thin layer over the host's scene graph.
    The embedding keeps the host's objects in a store indexed by object
    references, threads that store through a small state-and-exception monad,
    and translates the three operators and their helpers function by
    function.  Coordinates are IEEE 754 binary floating-point numbers, taken
    from the Standard Library's executable specification [SpecFloat].  The
    host's vectors and matrices hold their entries in one format, binary32,
    in which their arithmetic is done; a Python [float] is a binary64 number.
    The development is parametric in the former format, and the concrete
    examples are evaluated in binary32, and in binary64 as well.

    What the host does is not part of the add-on, and the embedding follows
    the host as far as the add-on's code observes it.

    - [v / n] on a vector multiplies by the reciprocal of [n], and
      [matrix @ vector] sums the products of a row in binary64 and rounds
      once.
    - [obj.matrix_world = matrix] stores the matrix, which reads back as
      stored; at that moment the host derives the object's location,
      rotation and scale from the matrix, relative to the parent the object
      has then.  The embedding keeps the parent they are relative to
      ([local_to]), not their values.  [obj.matrix_world] and
      [obj.location] are live views of the object, so that writing an
      element of the former writes the object.
    - [obj.parent = other] stores the link, or no link at all when the link
      would close a loop.
    - [obj.select_set(True)] raises when the object is not in the view
      layer, and leaves alone an object that the host does not let be
      selected.
    - [obj.children_recursive] lists the transitive children.

    When an operator of the host runs ([ops.object.select_all] here), the
    host re-evaluates the scene: it recomputes the world matrix of every
    object from its parent's and from the location, rotation and scale it
    holds, in its own floating-point arithmetic.  That evaluation is not
    part of the embedding: [matrix_world] is the matrix as the add-on last
    wrote it, and the statements about matrices are made where the add-on
    reads or writes them.

    The order in which the host lists the selection and the order in which
    Python iterates over a set are parameters ([host_order], [set_order]) of
    which the proofs assume only that they list every element once.

    The theorems are the claims of the specification, and further
    properties read off the code: what the operators leave behind, how
    they compose, and what the helpers do on the inputs the operators
    never give them. *)

From Stdlib Require Import ZArith.
From Stdlib Require Import Floats.SpecFloat.
From stdpp Require Import gmap sets list relations strings.

(** ** Floating-point numbers *)

Abbreviation float := spec_float.

Class FloatFormat := { prec : Z; emax : Z }.

Definition binary32 : FloatFormat := {| prec := 24; emax := 128 |}.
Definition binary64 : FloatFormat := {| prec := 53; emax := 1024 |}.

#[global] Instance float_eq_dec : EqDecision float.
Proof. solve_decision. Defined.

(** [float("inf")] and [float("-inf")]. *)
Definition inf : float := S754_infinity false.
Definition neg_inf : float := S754_infinity true.

(** Python's two-argument [min(a, b)] keeps [a] unless [b < a]; [max(a, b)]
    keeps [a] unless [b > a].  A comparison with a NaN is false. *)
Definition py_min (a b : float) : float := if SFltb b a then b else a.
Definition py_max (a b : float) : float := if SFltb a b then b else a.

Definition is_nan (a : float) : bool :=
  match a with S754_nan => true | _ => false end.

Definition is_finite (a : float) : bool :=
  match a with S754_zero _ | S754_finite _ _ _ => true | _ => false end.

(** Rounding to a format, to nearest and ties to even: a C cast between
    [float] and [double], and the store of a Python [float] into a vector. *)
Definition round_to (format : FloatFormat) (a : float) : float :=
  match a with
  | S754_finite s m e => binary_round (@prec format) (@emax format) s m e
  | _ => a
  end.

Section Arithmetic.
Context `{FloatFormat}.

(** Conversion of a Python [int]. *)
Definition of_int (n : Z) : float := binary_normalize prec emax n 0 false.

Definition fadd : float → float → float := SFadd prec emax.
Definition fsub : float → float → float := SFsub prec emax.
Definition fmul : float → float → float := SFmul prec emax.
Definition fdiv : float → float → float := SFdiv prec emax.

(** [1.0f / n], by which the host multiplies to divide a vector by [n]. *)
Definition reciprocal (n : Z) : float := fdiv (of_int 1) (of_int n).

(** [a / 2] on a component [a] of a vector: a division of Python floats,
    in binary64, of which a vector then holds the rounded quotient. *)
Definition halved (a : float) : float :=
  round_to _
    (SFdiv (@prec binary64) (@emax binary64) (round_to binary64 a)
       (binary_normalize (@prec binary64) (@emax binary64) 2 0 false)).
End Arithmetic.

(** ** Exceptions *)

Inductive exn :=
  | ZeroDivisionError | ReferenceError | AttributeError | RuntimeError.

Inductive result (A : Type) : Type :=
  | Ok (a : A)
  | Raise (e : exn).
Arguments Ok {A} a.
Arguments Raise {A} e.

#[global] Instance exn_eq_dec : EqDecision exn.
Proof. solve_decision. Defined.

(** ** mathutils.Vector (three components) *)

Module Vector.
Record t := mk { x : float; y : float; z : float }.

#[global] Instance eq_dec : EqDecision t.
Proof. solve_decision. Defined.

Section Ops.
Context `{FloatFormat}.

(** [Vector()] *)
Definition zero : t := mk (of_int 0) (of_int 0) (of_int 0).

Definition add (a b : t) : t :=
  mk (fadd (x a) (x b)) (fadd (y a) (y b)) (fadd (z a) (z b)).

Definition sub (a b : t) : t :=
  mk (fsub (x a) (x b)) (fsub (y a) (y b)) (fsub (z a) (z b)).

(** [v / n] for an integer [n]: the host raises on a zero divisor, and
    otherwise multiplies every component by [1.0f / n]. *)
Definition truediv (a : t) (n : Z) : result t :=
  if decide (n = 0%Z) then Raise ZeroDivisionError
  else Ok (mk (fmul (x a) (reciprocal n)) (fmul (y a) (reciprocal n))
              (fmul (z a) (reciprocal n))).
End Ops.
End Vector.

(** ** mathutils.Matrix (4 by 4, row major) *)

Module Matrix.
Record row := mk_row { c0 : float; c1 : float; c2 : float; c3 : float }.
Record t := mk { r0 : row; r1 : row; r2 : row; r3 : row }.

#[global] Instance row_eq_dec : EqDecision row.
Proof. solve_decision. Defined.
#[global] Instance eq_dec : EqDecision t.
Proof. solve_decision. Defined.

Definition set_c3 (v : float) (r : row) : row :=
  mk_row (c0 r) (c1 r) (c2 r) v.

(** [matrix[0][3] = v], [matrix[1][3] = v], [matrix[2][3] = v] *)
Definition set_0_3 (v : float) (m : t) : t :=
  mk (set_c3 v (r0 m)) (r1 m) (r2 m) (r3 m).
Definition set_1_3 (v : float) (m : t) : t :=
  mk (r0 m) (set_c3 v (r1 m)) (r2 m) (r3 m).
Definition set_2_3 (v : float) (m : t) : t :=
  mk (r0 m) (r1 m) (set_c3 v (r2 m)) (r3 m).

(** [matrix.translation] *)
Definition translation (m : t) : Vector.t :=
  Vector.mk (c3 (r0 m)) (c3 (r1 m)) (c3 (r2 m)).

Section Ops.
Context `{FloatFormat}.

Definition identity : t :=
  mk (mk_row (of_int 1) (of_int 0) (of_int 0) (of_int 0))
     (mk_row (of_int 0) (of_int 1) (of_int 0) (of_int 0))
     (mk_row (of_int 0) (of_int 0) (of_int 1) (of_int 0))
     (mk_row (of_int 0) (of_int 0) (of_int 0) (of_int 1)).

(** A row times the column [(x, y, z, 1)]: each product is computed in the
    format of the entries, the products are added up from zero in a
    [double], and the sum is rounded to the format of the entries. *)
Definition dot_row (r : row) (v : Vector.t) : float :=
  let wide := round_to binary64 in
  let add := SFadd (@prec binary64) (@emax binary64) in
  round_to _
    (add (add (add (add (S754_zero false)
       (wide (fmul (c0 r) (Vector.x v)))) (wide (fmul (c1 r) (Vector.y v))))
       (wide (fmul (c2 r) (Vector.z v)))) (wide (fmul (c3 r) (of_int 1)))).

(** [matrix @ vector]: the host applies the 4 by 4 transform to a point. *)
Definition matmul (m : t) (v : Vector.t) : Vector.t :=
  Vector.mk (dot_row (r0 m) v) (dot_row (r1 m) v) (dot_row (r2 m) v).
End Ops.
End Matrix.

(** ** Host objects and the context *)

(** Python holds host objects by reference. *)
Abbreviation ObjRef := positive.

(** The host's object types other than ["MESH"] and ["EMPTY"]. *)
Inductive ObKind :=
  | CURVE | SURFACE | META | FONT | ARMATURE | LATTICE
  | GPENCIL | CAMERA | LIGHT | SPEAKER | LIGHT_PROBE.

Definition kind_name (k : ObKind) : string :=
  match k with
  | CURVE => "CURVE" | SURFACE => "SURFACE" | META => "META"
  | FONT => "FONT" | ARMATURE => "ARMATURE" | LATTICE => "LATTICE"
  | GPENCIL => "GPENCIL" | CAMERA => "CAMERA" | LIGHT => "LIGHT"
  | SPEAKER => "SPEAKER" | LIGHT_PROBE => "LIGHT_PROBE"
  end.

(** [obj.data]: a mesh with the coordinates [co] of its vertices, nothing
    (an empty), or the data of some other type of object. *)
Inductive ObData :=
  | NoData
  | Mesh (vertices : list Vector.t)
  | OtherData (kind : ObKind).

#[global] Instance ObKind_eq_dec : EqDecision ObKind.
Proof. solve_decision. Defined.
#[global] Instance ObData_eq_dec : EqDecision ObData.
Proof. solve_decision. Defined.

Module Object.
(** Besides its world matrix the host holds, for every object, a location,
    a rotation and a scale; it derives them from the world matrix when that
    is assigned, relative to the parent the object has at that moment, and
    recomputes the world matrix from them when it re-evaluates the scene.
    Their values are results of the host's arithmetic and are not kept
    here; [local_to] is the parent they are relative to. *)
Record t := mk {
  parent : option ObjRef;
  matrix_world : Matrix.t;
  local_to : option ObjRef;
  data : ObData;
  select : bool;
  empty_display_type : string;
  show_name : bool;
  show_axis : bool;
  show_in_front : bool
}.

(** [obj.type] is read-only and follows the kind of [obj.data]. *)
Definition type (o : t) : string :=
  match data o with
  | NoData => "EMPTY"%string
  | Mesh _ => "MESH"%string
  | OtherData k => kind_name k
  end.

(** [obj.data.vertices]: only a mesh has them. *)
Definition vertices (o : t) : result (list Vector.t) :=
  match data o with
  | Mesh vs => Ok vs
  | _ => Raise AttributeError
  end.

(** [obj.location] of an object whose location is held relative to no
    parent, right after its world matrix was assigned: the translation of
    that matrix.  The add-on reads it only from the anchor it has just
    created and placed. *)
Definition location (o : t) : Vector.t :=
  Matrix.translation (matrix_world o).

(** The stored parent link. *)
Definition set_parent (p : option ObjRef) (o : t) : t :=
  mk p (matrix_world o) (local_to o) (data o) (select o)
     (empty_display_type o) (show_name o) (show_axis o) (show_in_front o).
(** [obj.matrix_world = m], and every write through the live matrix: the
    matrix is stored, and location, rotation and scale are derived from it
    relative to the parent of that moment. *)
Definition set_matrix_world (m : Matrix.t) (o : t) : t :=
  mk (parent o) m (parent o) (data o) (select o) (empty_display_type o)
     (show_name o) (show_axis o) (show_in_front o).
Definition set_select (b : bool) (o : t) : t :=
  mk (parent o) (matrix_world o) (local_to o) (data o) b
     (empty_display_type o) (show_name o) (show_axis o) (show_in_front o).
Definition set_empty_display_type (s : string) (o : t) : t :=
  mk (parent o) (matrix_world o) (local_to o) (data o) (select o) s
     (show_name o) (show_axis o) (show_in_front o).
Definition set_show_name (b : bool) (o : t) : t :=
  mk (parent o) (matrix_world o) (local_to o) (data o) (select o)
     (empty_display_type o) b (show_axis o) (show_in_front o).
Definition set_show_axis (b : bool) (o : t) : t :=
  mk (parent o) (matrix_world o) (local_to o) (data o) (select o)
     (empty_display_type o) (show_name o) b (show_in_front o).
Definition set_show_in_front (b : bool) (o : t) : t :=
  mk (parent o) (matrix_world o) (local_to o) (data o) (select o)
     (empty_display_type o) (show_name o) (show_axis o) b.
End Object.

(** The part of the host state the operators touch: [bpy.data.objects], the
    objects linked to [context.scene.collection], the active object of the
    view layer, and the bases of the view layer.  An object is in the view
    layer when it has a base there (it is linked to the scene's collection
    or to a collection below it); the flag of the base tells whether the
    host lets the object be selected (it does not when the object is hidden
    or excluded from selection). *)
Record Context := mkContext {
  data_objects : gmap ObjRef Object.t;
  collection_objects : gset ObjRef;
  active : option ObjRef;
  bases : gmap ObjRef bool
}.

Definition set_data_objects (m : gmap ObjRef Object.t) (c : Context)
    : Context :=
  mkContext m (collection_objects c) (active c) (bases c).
Definition set_collection_objects (s : gset ObjRef) (c : Context) : Context :=
  mkContext (data_objects c) s (active c) (bases c).
Definition set_active (a : option ObjRef) (c : Context) : Context :=
  mkContext (data_objects c) (collection_objects c) a (bases c).
Definition set_bases (b : gmap ObjRef bool) (c : Context) : Context :=
  mkContext (data_objects c) (collection_objects c) (active c) b.

(** The operators' return value, [{"FINISHED"}]. *)
Inductive status := FINISHED.

(** ** The state-and-exception monad *)

Definition M (A : Type) : Type := Context → result (A * Context).

#[global] Instance M_ret : MRet M := λ A a ctx, Ok (a, ctx).
#[global] Instance M_bind : MBind M := λ A B f m ctx,
  match m ctx with
  | Ok (a, ctx') => f a ctx'
  | Raise e => Raise e
  end.

(** A computation that does not touch the state. *)
Definition lift {A} (r : result A) : M A := λ ctx,
  match r with Ok a => Ok (a, ctx) | Raise e => Raise e end.

(** [for x in l: acc = body(acc, x)] *)
Fixpoint for_fold {A S} (body : S → A → M S) (acc : S) (l : list A) : M S :=
  match l with
  | [] => mret acc
  | a :: l' => acc' ← body acc a; for_fold body acc' l'
  end.

(** [for x in l: body(x)] *)
Definition for_each {A} (body : A → M unit) (l : list A) : M unit :=
  for_fold (λ _ a, body a) tt l.

(** Reading and writing an attribute through a reference. *)
Definition get_object (r : ObjRef) : M Object.t := λ ctx,
  match data_objects ctx !! r with
  | Some o => Ok (o, ctx)
  | None => Raise ReferenceError
  end.

Definition update_object (r : ObjRef) (f : Object.t → Object.t) : M unit :=
  λ ctx,
  match data_objects ctx !! r with
  | Some o => Ok (tt, set_data_objects (<[r := f o]> (data_objects ctx)) ctx)
  | None => Raise ReferenceError
  end.

(** Reading a property of the state. *)
Definition gets {A} (f : Context → A) : M A := λ ctx, Ok (f ctx, ctx).

(** ** Host operations *)

(** [bpy.data.objects.new("Empty", None)]: a new object without data, at the
    origin, without parent, not selected. *)
Definition new_object `{FloatFormat} : Object.t :=
  Object.mk None Matrix.identity None NoData false "PLAIN_AXES"%string
            false false false.

Definition objects_new `{FloatFormat} : M ObjRef := λ ctx,
  let r := fresh (dom (data_objects ctx)) in
  Ok (r, set_data_objects (<[r := new_object]> (data_objects ctx)) ctx).

(** [bpy.data.objects.remove(obj)] *)
Definition objects_remove (r : ObjRef) : M unit := λ ctx,
  match data_objects ctx !! r with
  | Some _ =>
      Ok (tt, mkContext (delete r (data_objects ctx))
                        (collection_objects ctx ∖ {[r]})
                        (if bool_decide (active ctx = Some r) then None
                         else active ctx)
                        (delete r (bases ctx)))
  | None => Raise ReferenceError
  end.

(** [context.scene.collection.objects.link(obj)]: the object gets a base in
    the view layer; a newly made object can be selected. *)
Definition collection_link (r : ObjRef) : M unit := λ ctx,
  Ok (tt, mkContext (data_objects ctx) ({[r]} ∪ collection_objects ctx)
                    (active ctx) (<[r := true]> (bases ctx))).

(** [ops.object.select_all(action="DESELECT")], as far as the selection
    goes; the re-evaluation of the scene that comes with the call of an
    operator of the host is not part of the embedding. *)
Definition select_all_deselect : M unit := λ ctx,
  Ok (tt, set_data_objects (Object.set_select false <$> data_objects ctx) ctx).

(** [obj.select_set(state)]: selecting an object that has no base in the
    view layer is an error of the host, which Python sees as a
    [RuntimeError]; selecting an object that the host does not let be
    selected does nothing. *)
Definition select_set (r : ObjRef) (state : bool) : M unit := λ ctx,
  match data_objects ctx !! r with
  | None => Raise ReferenceError
  | Some _ =>
      match bases ctx !! r, state with
      | None, true => Raise RuntimeError
      | None, false => Ok (tt, ctx)
      | Some false, true => Ok (tt, ctx)
      | Some _, _ => update_object r (Object.set_select state) ctx
      end
  end.

(** [bpy.context.view_layer.objects.active = obj] *)
Definition view_layer_set_active (r : ObjRef) : M unit := λ ctx,
  Ok (tt, set_active (Some r) ctx).

(** The parent link of the scene graph, read through the store. *)
Definition parent_of (ctx : Context) (r : ObjRef) : option ObjRef :=
  data_objects ctx !! r ≫= Object.parent.

(** The host's test before it stores a parent link: walking up from the
    parent-to-be [par], does one meet the object [ob] itself?  The scene
    graph is acyclic, so the walk is bounded by the number of objects. *)
Fixpoint parent_loop_check (fuel : nat) (ctx : Context) (par : option ObjRef)
    (ob : ObjRef) : bool :=
  match par with
  | None => false
  | Some p =>
      if decide (p = ob) then true
      else match fuel with
           | 0 => false
           | S fuel' => parent_loop_check fuel' ctx (parent_of ctx p) ob
           end
  end.

(** [obj.parent = par] for an object [par]: the link is stored unless it
    would close a loop, in which case the object is left without parent. *)
Definition parent_assign (r : ObjRef) (par : ObjRef) : M unit := λ ctx,
  update_object r
    (Object.set_parent
       (if parent_loop_check (size (data_objects ctx)) ctx (Some par) r
        then None else Some par))
    ctx.

(** [obj.matrix_world = matrix] *)
Definition matrix_world_assign (r : ObjRef) (matrix : Matrix.t) : M unit :=
  update_object r (Object.set_matrix_world matrix).

(** [obj.children]: the objects whose parent is [obj]. *)
Definition children (ctx : Context) (r : ObjRef) : list ObjRef :=
  filter (λ c, parent_of ctx c = Some r) (elements (dom (data_objects ctx))).

(** [obj.children_recursive]: the children, each followed by its own
    descendants.  The host's scene graph is acyclic, so the depth of the walk
    is bounded by the number of objects. *)
Fixpoint descend (fuel : nat) (ctx : Context) (r : ObjRef) : list ObjRef :=
  match fuel with
  | 0 => []
  | S fuel' => c ← children ctx r; c :: descend fuel' ctx c
  end.

Definition children_recursive (ctx : Context) (r : ObjRef) : list ObjRef :=
  descend (size (data_objects ctx)) ctx r.

(** The set behind [context.selected_objects]. *)
Definition selected (ctx : Context) : gset ObjRef :=
  dom (filter (λ kv, Object.select kv.2 = true) (data_objects ctx)).

(** [bpy.types.Operator]: an operator class that defines no [poll] of its own
    is available in every context. *)
Definition Operator_poll (ctx : Context) : bool := true.

(** ** class DeleteRecursive *)

Module DeleteRecursive.
Section Operator.
(** The order in which the host lists the selection, and the order in
    which Python iterates over a set: both unspecified. *)
Variable host_order : gset ObjRef → list ObjRef.
Variable set_order : gset ObjRef → list ObjRef.

Definition selected_objects (ctx : Context) : list ObjRef :=
  host_order (selected ctx).

(** No [poll] is defined in the class. *)
Definition poll : Context → bool := Operator_poll.

(** Lines 36 to 40: the recursive subtree collector. *)
Definition collect (roots : list ObjRef) : M (gset ObjRef) :=
  for_fold (λ (objs : gset ObjRef) parent,
      let objs := {[parent]} ∪ objs in
      cr ← gets (λ ctx, children_recursive ctx parent);
      for_fold (λ (objs : gset ObjRef) child, mret ({[child]} ∪ objs))
               objs cr)
    ∅ roots.

Definition execute : M status :=
  roots ← gets selected_objects;
  objs ← collect roots;
  for_each objects_remove (set_order objs);;
  mret FINISHED.
End Operator.
End DeleteRecursive.

(** ** get_bounding_box *)

Section BoundingBox.
Context `{FloatFormat}.

(** The body of the inner loop, for one vertex [co] of an object whose
    world matrix is [matrix_world]. *)
Definition bound_vertex (matrix_world : Matrix.t)
    (acc : Vector.t * Vector.t) (co : Vector.t) : Vector.t * Vector.t :=
  let '(min_point, max_point) := acc in
  let world_pos := Matrix.matmul matrix_world co in
  (Vector.mk (py_min (Vector.x min_point) (Vector.x world_pos))
             (py_min (Vector.y min_point) (Vector.y world_pos))
             (py_min (Vector.z min_point) (Vector.z world_pos)),
   Vector.mk (py_max (Vector.x max_point) (Vector.x world_pos))
             (py_max (Vector.y max_point) (Vector.y world_pos))
             (py_max (Vector.z max_point) (Vector.z world_pos))).

Definition get_bounding_box (objs : list ObjRef) : M (Vector.t * Vector.t) :=
  '(min_point, max_point) ←
    for_fold (λ acc obj,
        o ← get_object obj;
        vs ← lift (Object.vertices o);
        mret (foldl (bound_vertex (Object.matrix_world o)) acc vs))
      (Vector.mk inf inf inf, Vector.mk neg_inf neg_inf neg_inf) objs;
  center ← lift (Vector.truediv (Vector.add min_point max_point) 2);
  mret (center, Vector.sub max_point min_point).
End BoundingBox.

(** ** apply_location_to_matrix *)

(** The [location] argument is either a vector value or the live
    [obj.location] of an object; the [matrix] argument is always the live
    [obj.matrix_world] of an object, named by that object. *)
Inductive vec_ref :=
  | Val (v : Vector.t)
  | LocationOf (r : ObjRef).

Definition read (l : vec_ref) : M Vector.t :=
  match l with
  | Val v => mret v
  | LocationOf r => o ← get_object r; mret (Object.location o)
  end.

Definition matrix_world_set_item (r : ObjRef)
    (set : float → Matrix.t → Matrix.t) (v : float) : M unit :=
  update_object r
    (λ o, Object.set_matrix_world (set v (Object.matrix_world o)) o).

Definition apply_location_to_matrix (location : vec_ref) (matrix : ObjRef)
    : M unit :=
  l ← read location; matrix_world_set_item matrix Matrix.set_0_3 (Vector.x l);;
  l ← read location; matrix_world_set_item matrix Matrix.set_1_3 (Vector.y l);;
  l ← read location; matrix_world_set_item matrix Matrix.set_2_3 (Vector.z l).

(** ** class ParentToEmpty *)

Module ParentToEmpty.
(** The items of the [location] enum property. *)
Inductive location_item := TOP | CENTER | BOTTOM.

(** The operator's properties, read as [self.location] and so on. *)
Record props := mk {
  location : location_item;
  show_name : bool;
  show_axis : bool;
  show_in_front : bool
}.

(** The declared defaults. *)
Definition default : props := mk CENTER true false true.

Section Operator.
Context `{FloatFormat}.
Variable host_order : gset ObjRef → list ObjRef.
Variable set_order : gset ObjRef → list ObjRef.

Definition selected_objects (ctx : Context) : list ObjRef :=
  host_order (selected ctx).

Definition poll (ctx : Context) : bool :=
  bool_decide (length (selected_objects ctx) ≠ 0).

(** Lines 111 to 113: the sum of the translations, from [Vector()],
    divided by [len(objs)]. *)
Definition mean_translation (objs : list ObjRef) : M Vector.t :=
  total ← for_fold (λ acc obj,
      o ← get_object obj;
      mret (Vector.add acc (Matrix.translation (Object.matrix_world o))))
    Vector.zero objs;
  lift (Vector.truediv total (Z.of_nat (length objs))).

(** Lines 106 to 114: the selection as a set, the new anchor and its
    provisional placement. *)
Definition create_anchor : M (gset ObjRef * ObjRef) :=
  sel ← gets selected_objects;
  let objs : gset ObjRef := list_to_set sel in
  empty ← objects_new;
  update_object empty (Object.set_empty_display_type "PLAIN_AXES");;
  collection_link empty;;
  location ← mean_translation (set_order objs);
  apply_location_to_matrix (Val location) empty;;
  mret (objs, empty).

(** Lines 117 to 120: the mesh members of the selection. *)
Definition mesh_members (objs : list ObjRef) : M (list ObjRef) :=
  for_fold (λ meshes obj,
      o ← get_object obj;
      if bool_decide (Object.type o = "MESH") then mret (meshes ++ [obj])
      else mret meshes)
    [] objs.

(** Lines 123 to 128: the three placement policies. *)
Definition place (policy : location_item) (center size : Vector.t)
    : Vector.t :=
  match policy with
  | TOP =>
      Vector.add center
        (Vector.mk (of_int 0) (of_int 0) (halved (Vector.z size)))
  | CENTER => center
  | BOTTOM =>
      Vector.sub center
        (Vector.mk (of_int 0) (of_int 0) (halved (Vector.z size)))
  end.

(** Lines 116 to 128. *)
Definition choose_location (self : props) (objs : gset ObjRef)
    (empty : ObjRef) : M vec_ref :=
  let location_0 := LocationOf empty in
  meshes ← mesh_members (set_order objs);
  if bool_decide (length meshes ≠ 0) then
    '(center, size) ← get_bounding_box meshes;
    mret (Val (place (location self) center size))
  else mret location_0.

(** [obj.parent in objs] *)
Definition parent_in (o : Object.t) (objs : gset ObjRef) : bool :=
  match Object.parent o with
  | Some p => bool_decide (p ∈ objs)
  | None => false
  end.

(** Lines 137 to 144: the body of the re-parenting loop; [parent] is the
    loop-carried local variable. *)
Definition reparent (objs : gset ObjRef) (empty : ObjRef)
    (parent : option ObjRef) (obj : ObjRef) : M (option ObjRef) :=
  o ← get_object obj;
  if parent_in o objs then mret parent
  else
    let parent :=
      match parent with None => Object.parent o | Some _ => parent end in
    let matrix := Object.matrix_world o in
    parent_assign obj empty;;
    matrix_world_assign obj matrix;;
    mret parent.

(** Lines 146 to 149. *)
Definition reparent_anchor (empty : ObjRef) (parent : option ObjRef)
    : M unit :=
  match parent with
  | Some p =>
      e ← get_object empty;
      let matrix := Object.matrix_world e in
      parent_assign empty p;;
      matrix_world_assign empty matrix
  | None => mret tt
  end.

(** Lines 106 to 130: the anchor is made and placed. *)
Definition place_anchor (self : props) : M (gset ObjRef * ObjRef) :=
  '(objs, empty) ← create_anchor;
  location ← choose_location self objs empty;
  apply_location_to_matrix location empty;;
  mret (objs, empty).

(** Lines 106 to 144: the anchor gets its display options and the members
    of the selection are put under it. *)
Definition reparent_selection (self : props) : M (ObjRef * option ObjRef) :=
  '(objs, empty) ← place_anchor self;
  update_object empty (Object.set_show_name (show_name self));;
  update_object empty (Object.set_show_axis (show_axis self));;
  update_object empty (Object.set_show_in_front (show_in_front self));;
  parent ← for_fold (reparent objs empty) None (set_order objs);
  mret (empty, parent).

Definition execute (self : props) : M status :=
  '(empty, parent) ← reparent_selection self;
  reparent_anchor empty parent;;
  select_all_deselect;;
  select_set empty true;;
  view_layer_set_active empty;;
  mret FINISHED.
End Operator.
End ParentToEmpty.

(** ** class SelectDescendants *)

Module SelectDescendants.
Section Operator.
Variable host_order : gset ObjRef → list ObjRef.

Definition selected_objects (ctx : Context) : list ObjRef :=
  host_order (selected ctx).

Definition poll (ctx : Context) : bool :=
  bool_decide (length (selected_objects ctx) ≠ 0).

Definition execute : M status :=
  roots ← gets selected_objects;
  for_each (λ obj,
      cr ← gets (λ ctx, children_recursive ctx obj);
      for_each (λ obj, select_set obj true) cr)
    roots;;
  mret FINISHED.
End Operator.
End SelectDescendants.

(** * Vocabulary of the specification *)

(** ** The scene graph *)

(** [child_of ctx c p]: the parent link of [c] points to [p]. *)
Definition child_of (ctx : Context) (c p : ObjRef) : Prop :=
  parent_of ctx c = Some p.

(** [descendant ctx x r]: [x] is reached from [r] by one or more
    parent-to-child links. *)
Definition descendant (ctx : Context) (x r : ObjRef) : Prop :=
  tc (child_of ctx) x r.

(** The host keeps the scene graph acyclic: no object is its own ancestor. *)
Definition acyclic (ctx : Context) : Prop :=
  ∀ r, ¬ descendant ctx r r.

(** The objects that some parent link of the store points to; in a closed
    store each of them is an object of the store. *)
Definition parents (ctx : Context) : gset ObjRef :=
  list_to_set (omap Object.parent (map_to_list (data_objects ctx)).*2).

Definition closed (ctx : Context) : Prop :=
  parents ctx ⊆ dom (data_objects ctx).

(** The object reached from [r] after following [k] parent links. *)
Fixpoint ancestor_at (k : nat) (ctx : Context) (r : ObjRef) : option ObjRef :=
  match k with
  | 0 => Some r
  | S k' => parent_of ctx r ≫= ancestor_at k' ctx
  end.

(** A check of acyclicity that can be run: from every object of the store
    the chain of parents ends within [size + 1] links. *)
Definition chains_end (ctx : Context) : Prop :=
  Forall (λ r, ancestor_at (S (size (data_objects ctx))) ctx r = None)
         (elements (dom (data_objects ctx))).

(** The roots together with their transitive descendants, in closed form. *)
Definition subtree_set (ctx : Context) (roots : list ObjRef) : gset ObjRef :=
  list_to_set (roots ++ (roots ≫= children_recursive ctx)).

(** A leaf has no children. *)
Definition leaf (ctx : Context) (r : ObjRef) : Prop :=
  ∀ c, ¬ child_of ctx c r.

(** An enumeration order lists every set without omission or repetition. *)
Definition enumerates (order : gset ObjRef → list ObjRef) : Prop :=
  ∀ X, order X ≡ₚ elements X.

(** Two stores with the same objects and the same parent links. *)
Definition same_graph (ctx ctx' : Context) : Prop :=
  dom (data_objects ctx') = dom (data_objects ctx) ∧
  ∀ r, parent_of ctx' r = parent_of ctx r.

(** ** Bounding boxes *)

(** [least_of m xs]: [m] is a least element among the coordinates [xs] that
    can be compared (a NaN compares with nothing), and [inf] when there is
    none.  [greatest_of] is the mirror image, with [neg_inf]. *)
Definition least_of (m : float) (xs : list float) : Prop :=
  is_nan m = false ∧
  (∀ v, v ∈ xs → is_nan v = false → SFleb m v = true) ∧
  (m ∈ xs ∨ (m = inf ∧ ∀ v, v ∈ xs → is_nan v = true)).

Definition greatest_of (m : float) (xs : list float) : Prop :=
  is_nan m = false ∧
  (∀ v, v ∈ xs → is_nan v = false → SFleb v m = true) ∧
  (m ∈ xs ∨ (m = neg_inf ∧ ∀ v, v ∈ xs → is_nan v = true)).

(** [lo] and [hi] are attained bounds of the coordinates [xs]. *)
Definition spans (lo hi : float) (xs : list float) : Prop :=
  lo ∈ xs ∧ hi ∈ xs ∧
  Forall (λ v, SFleb lo v = true ∧ SFleb v hi = true) xs.

(** The object behind a reference is a mesh; a mesh without any vertex. *)
Definition is_mesh (ctx : Context) (r : ObjRef) : Prop :=
  ∃ o vs, data_objects ctx !! r = Some o ∧ Object.data o = Mesh vs.

Definition is_vertexless_mesh (ctx : Context) (r : ObjRef) : Prop :=
  ∃ o, data_objects ctx !! r = Some o ∧ Object.data o = Mesh [].

Section BoundingBoxVocabulary.
Context `{FloatFormat}.

(** The vertices of the listed meshes, each moved to world space by the
    world matrix of its own object. *)
Definition world_vertices (ctx : Context) (objs : list ObjRef)
    : list Vector.t :=
  r ← objs;
  match data_objects ctx !! r with
  | Some o =>
      match Object.data o with
      | Mesh vs => Matrix.matmul (Object.matrix_world o) <$> vs
      | _ => []
      end
  | None => []
  end.

(** One step of the reduction, on a world position. *)
Definition bound_world (acc : Vector.t * Vector.t) (w : Vector.t)
    : Vector.t * Vector.t :=
  (Vector.mk (py_min (Vector.x acc.1) (Vector.x w))
             (py_min (Vector.y acc.1) (Vector.y w))
             (py_min (Vector.z acc.1) (Vector.z w)),
   Vector.mk (py_max (Vector.x acc.2) (Vector.x w))
             (py_max (Vector.y acc.2) (Vector.y w))
             (py_max (Vector.z acc.2) (Vector.z w))).

Definition bounds (ws : list Vector.t) : Vector.t * Vector.t :=
  foldl bound_world
    (Vector.mk inf inf inf, Vector.mk neg_inf neg_inf neg_inf) ws.

(** Center [(min + max) / 2] and extent [max - min], axis by axis; the
    division by two is the host's, a product with one half. *)
Definition box_of (b : Vector.t * Vector.t) : Vector.t * Vector.t :=
  (Vector.mk
     (fmul (fadd (Vector.x b.1) (Vector.x b.2)) (reciprocal 2))
     (fmul (fadd (Vector.y b.1) (Vector.y b.2)) (reciprocal 2))
     (fmul (fadd (Vector.z b.1) (Vector.z b.2)) (reciprocal 2)),
   Vector.mk
     (fsub (Vector.x b.2) (Vector.x b.1))
     (fsub (Vector.y b.2) (Vector.y b.1))
     (fsub (Vector.z b.2) (Vector.z b.1))).

Definition vec (x y z : Z) : Vector.t :=
  Vector.mk (of_int x) (of_int y) (of_int z).
End BoundingBoxVocabulary.

Definition nan3 : Vector.t := Vector.mk S754_nan S754_nan S754_nan.
Definition neg_inf3 : Vector.t := Vector.mk neg_inf neg_inf neg_inf.

(** ** Anchor placement and re-parenting *)

(** A matrix with its translation column replaced. *)
Definition with_translation (v : Vector.t) (m : Matrix.t) : Matrix.t :=
  Matrix.set_2_3 (Vector.z v)
    (Matrix.set_1_3 (Vector.y v) (Matrix.set_0_3 (Vector.x v) m)).

(** The world-space translation of an object of the store. *)
Definition translation_of (ctx : Context) (r : ObjRef) : option Vector.t :=
  (λ o, Matrix.translation (Object.matrix_world o)) <$> data_objects ctx !! r.

Definition translations (ctx : Context) (l : list ObjRef) : list Vector.t :=
  omap (translation_of ctx) l.

(** The world matrix and the type of an object of the store. *)
Definition matrix_world_of (ctx : Context) (r : ObjRef) : option Matrix.t :=
  Object.matrix_world <$> data_objects ctx !! r.

(** The parent that the host holds the location, rotation and scale of an
    object relative to, when it is one. *)
Definition local_to_of (ctx : Context) (r : ObjRef) : option ObjRef :=
  data_objects ctx !! r ≫= Object.local_to.

Definition type_of (ctx : Context) (r : ObjRef) : option string :=
  Object.type <$> data_objects ctx !! r.

(** The mesh-type members of an enumeration of the selection. *)
Definition mesh_subset (ctx : Context) (l : list ObjRef) : list ObjRef :=
  filter (λ r, type_of ctx r = Some "MESH"%string) l.

(** A top-level member of the selection [objs]: its parent, if it has one,
    is not selected. *)
Definition is_top_level (ctx : Context) (objs : gset ObjRef) (r : ObjRef)
    : bool :=
  match parent_of ctx r with
  | Some p => bool_decide (p ∉ objs)
  | None => true
  end.

Definition top_level_members (ctx : Context) (objs : gset ObjRef)
    (l : list ObjRef) : list ObjRef :=
  filter (λ r, is_top_level ctx objs r = true) l.

(** The first parent met among the top-level members, in the order [l]. *)
Definition external_parent (ctx : Context) (objs : gset ObjRef)
    (l : list ObjRef) : option ObjRef :=
  head (omap (parent_of ctx) (top_level_members ctx objs l)).

Section AnchorVocabulary.
Context `{FloatFormat}.

(** The unweighted arithmetic mean, axis by axis, as the host's vectors
    compute it: the sum from zero in the order of the list, times the
    reciprocal of the number of vectors. *)
Definition mean_of (ts : list Vector.t) : Vector.t :=
  let r := reciprocal (Z.of_nat (length ts)) in
  Vector.mk (fmul (foldl fadd (of_int 0) (Vector.x <$> ts)) r)
            (fmul (foldl fadd (of_int 0) (Vector.y <$> ts)) r)
            (fmul (foldl fadd (of_int 0) (Vector.z <$> ts)) r).

(** The position the anchor is placed at, for the enumeration [l] of the
    selection. *)
Definition anchor_location (policy : ParentToEmpty.location_item)
    (ctx : Context) (l : list ObjRef) : Vector.t :=
  match mesh_subset ctx l with
  | [] => mean_of (translations ctx l)
  | meshes =>
      let box := box_of (bounds (world_vertices ctx meshes)) in
      ParentToEmpty.place policy box.1 box.2
  end.

(** The anchor with its display options, before it gets a parent. *)
Definition placed_anchor (self : ParentToEmpty.props) (ctx : Context)
    (l : list ObjRef) : Object.t :=
  Object.set_show_in_front (ParentToEmpty.show_in_front self)
    (Object.set_show_axis (ParentToEmpty.show_axis self)
       (Object.set_show_name (ParentToEmpty.show_name self)
          (Object.set_matrix_world
             (with_translation
                (anchor_location (ParentToEmpty.location self) ctx l)
                Matrix.identity)
             new_object))).

(** The anchor as the operator writes it, under the parent [parent]. *)
Definition anchor_object (self : ParentToEmpty.props) (ctx : Context)
    (l : list ObjRef) (parent : option ObjRef) : Object.t :=
  Object.mk parent
    (with_translation (anchor_location (ParentToEmpty.location self) ctx l)
       Matrix.identity)
    parent NoData true "PLAIN_AXES"%string
    (ParentToEmpty.show_name self) (ParentToEmpty.show_axis self)
    (ParentToEmpty.show_in_front self).
End AnchorVocabulary.

(** An object put under the anchor [e]: the link is stored, and the world
    matrix it had is assigned to it again. *)
Definition under_anchor (e : ObjRef) (o : Object.t) : Object.t :=
  Object.set_matrix_world (Object.matrix_world o)
    (Object.set_parent (Some e) o).

(** A selected object as the operator leaves it: deselected, and under the
    anchor [e] when it was a top-level member. *)
Definition reparented (ctx : Context) (objs : gset ObjRef) (e r : ObjRef)
    (o : Object.t) : Object.t :=
  Object.set_select false
    (if bool_decide (r ∈ objs ∧ is_top_level ctx objs r = true)
     then under_anchor e o else o).

(** The parent links when the loop over the selection is through: the
    anchor [e] has no parent yet, the top-level members are under it. *)
Definition loop_parent (ctx : Context) (objs : gset ObjRef) (e r : ObjRef)
    : option ObjRef :=
  if decide (r = e) then None
  else if bool_decide (r ∈ objs ∧ is_top_level ctx objs r = true)
       then Some e else parent_of ctx r.

(** The store while [ParentToEmpty.execute] runs on [ctx]: objects [m], and
    the anchor [E] under the fresh reference, linked to the collection. *)
Definition with_anchor (ctx : Context) (m : gmap ObjRef Object.t)
    (E : Object.t) : Context :=
  mkContext (<[fresh (dom (data_objects ctx)) := E]> m)
            ({[fresh (dom (data_objects ctx))]} ∪ collection_objects ctx)
            (active ctx)
            (<[fresh (dom (data_objects ctx)) := true]> (bases ctx)).

(** In the scene the operator leaves, the anchor [e] is not below any of the
    objects it was made the parent of. *)
Definition anchor_not_below_children (ctx' : Context) (e : ObjRef) : Prop :=
  ∀ r, parent_of ctx' r = Some e → ¬ descendant ctx' e r.

(** ** The view layer *)

(** An object is in the view layer when it has a base there; the host lets
    it be selected when the base says so. *)
Definition in_view_layer (ctx : Context) (r : ObjRef) : Prop :=
  is_Some (bases ctx !! r).

Definition selectable (ctx : Context) (r : ObjRef) : Prop :=
  bases ctx !! r = Some true.

#[global] Instance in_view_layer_dec ctx r : Decision (in_view_layer ctx r) :=
  decide (is_Some (bases ctx !! r)).
#[global] Instance selectable_dec ctx r : Decision (selectable ctx r) :=
  decide (bases ctx !! r = Some true).

(** Everything below a selected object is in the view layer. *)
Definition descendants_in_view_layer (ctx : Context) : Prop :=
  ∀ x r, r ∈ selected ctx → descendant ctx x r → in_view_layer ctx x.

(** ** The claims that do not hold as stated *)

(** Every listed [poll] fails on an empty selection. *)
Definition polls_guard_selection (polls : list (Context → bool)) : Prop :=
  ∀ poll, poll ∈ polls → ∀ ctx, selected ctx = ∅ → poll ctx = false.

(** [SelectDescendants] selects the transitive descendants of the selected
    objects, whatever the scene: it finishes, and the selection it leaves
    is the one it found together with everything below it. *)
Definition selects_all_descendants
    (host_order : gset ObjRef → list ObjRef) (ctx : Context) : Prop :=
  ∃ ctx', SelectDescendants.execute host_order ctx = Ok (FINISHED, ctx') ∧
    ∀ x, x ∈ selected ctx' ↔
         x ∈ selected ctx ∨ ∃ r, r ∈ selected ctx ∧ descendant ctx x r.


(** * Example scenes *)

Section Scenes.
Context `{FloatFormat}.

(** A world matrix without rotation or scale, at the given position. *)
Definition at_position (x y z : Z) : Matrix.t :=
  with_translation (vec x y z) Matrix.identity.

(** An object at rest: its location, rotation and scale are relative to
    the parent it has. *)
Definition scene_object (parent : option ObjRef) (matrix_world : Matrix.t)
    (data : ObData) (select : bool) : Object.t :=
  Object.mk parent matrix_world parent data select "PLAIN_AXES"%string
            false false false.

(** A scene whose objects are all linked to the scene's collection, and
    can all be selected. *)
Definition scene (objects : list (ObjRef * Object.t)) : Context :=
  mkContext (list_to_map objects) (list_to_set objects.*1) None
            (list_to_map ((λ r, (r, true)) <$> objects.*1)).

(** The chain 1 → 2 → 3 of empties, with the given selection flags. *)
Definition chain (s1 s2 s3 : bool) : Context :=
  scene [(1%positive, scene_object None (at_position 0 0 0) NoData s1);
         (2%positive, scene_object (Some 1%positive) (at_position 2 0 0)
                        NoData s2);
         (3%positive, scene_object (Some 2%positive) (at_position 5 0 0)
                        NoData s3)].

(** Two selected meshes, each with a world matrix of its own, whose world
    vertices span (-1,-1,0) to (1,1,2). *)
Definition two_meshes : Context :=
  scene [(1%positive,
          scene_object None (at_position (-1) (-1) 0)
            (Mesh [vec 0 0 0; vec 1 1 1]) true);
         (2%positive,
          scene_object None (at_position 0 0 1)
            (Mesh [vec 1 1 1; vec 0 0 0]) true)].

(** Two selected empties at (0,0,0) and (2,0,0). *)
Definition two_empties : Context :=
  scene [(1%positive, scene_object None (at_position 0 0 0) NoData true);
         (2%positive, scene_object None (at_position 2 0 0) NoData true)].

(** Two selected empties at (5,0,0) and (-5,0,0), and an unselected third
    object that is the parent of the first. *)
Definition pair_under_parent : Context :=
  scene [(1%positive,
          scene_object (Some 3%positive) (at_position 5 0 0) NoData true);
         (2%positive, scene_object None (at_position (-5) 0 0) NoData true);
         (3%positive, scene_object None (at_position 1 1 1) NoData false)].

(** One selected mesh without vertices. *)
Definition vertexless : Context :=
  scene [(1%positive, scene_object None (at_position 3 0 0) (Mesh []) true)].

(** Three selected empties at (1,0,0), (1,0,0) and (3,0,0). *)
Definition three_empties : Context :=
  scene [(1%positive, scene_object None (at_position 1 0 0) NoData true);
         (2%positive, scene_object None (at_position 1 0 0) NoData true);
         (3%positive, scene_object None (at_position 3 0 0) NoData true)].

(** A selected object whose child is linked to no collection of the scene,
    and so has no base in the view layer. *)
Definition child_outside_view_layer : Context :=
  mkContext
    (list_to_map
       [(1%positive, scene_object None (at_position 0 0 0) NoData true);
        (2%positive, scene_object (Some 1%positive) (at_position 2 0 0)
                       NoData false)])
    {[1%positive]} None {[1%positive := true]}.

(** A selected object with two children in the view layer, the second of
    which the host does not let be selected. *)
Definition child_not_selectable : Context :=
  set_bases {[1%positive := true; 2%positive := true; 3%positive := false]}
    (scene [(1%positive, scene_object None (at_position 0 0 0) NoData true);
            (2%positive, scene_object (Some 1%positive) (at_position 2 0 0)
                           NoData false);
            (3%positive, scene_object (Some 1%positive) (at_position 4 0 0)
                           NoData false)]).
End Scenes.

(** Nothing in the scene, nothing selected. *)
Definition empty_scene : Context := mkContext ∅ ∅ None ∅.

(** * Vocabulary of the further properties *)

(** The subtree of a set of roots: the roots and everything below them. *)
Definition in_subtree (ctx : Context) (roots : gset ObjRef) (x : ObjRef)
    : Prop :=
  x ∈ roots ∨ ∃ r, r ∈ roots ∧ descendant ctx x r.

(** The parent that [ParentToEmpty] gives the anchor, if any, has no
    selected object above it. *)
Definition anchor_parent_clear (ctx : Context)
    (set_order : gset ObjRef → list ObjRef) : Prop :=
  ∀ p, external_parent ctx (selected ctx) (set_order (selected ctx)) = Some p →
       ∀ a, descendant ctx p a → a ∉ selected ctx.

(** The thirteen entries of a matrix outside the translation column. *)
Definition off_translation (m : Matrix.t) : list float :=
  [Matrix.c0 (Matrix.r0 m); Matrix.c1 (Matrix.r0 m); Matrix.c2 (Matrix.r0 m);
   Matrix.c0 (Matrix.r1 m); Matrix.c1 (Matrix.r1 m); Matrix.c2 (Matrix.r1 m);
   Matrix.c0 (Matrix.r2 m); Matrix.c1 (Matrix.r2 m); Matrix.c2 (Matrix.r2 m);
   Matrix.c0 (Matrix.r3 m); Matrix.c1 (Matrix.r3 m); Matrix.c2 (Matrix.r3 m);
   Matrix.c3 (Matrix.r3 m)].

(** What an object holds and shows, apart from its place in the graph, its
    world matrix and its selection flag. *)
Definition appearance (o : Object.t)
    : ObData * string * bool * bool * bool :=
  (Object.data o, Object.empty_display_type o,
   Object.show_name o, Object.show_axis o, Object.show_in_front o).

(** * Proofs *)

(** ** Automation *)

(** Case analysis on the comparisons inside [SFcompare]. *)
Ltac cmp_cases :=
  repeat match goal with
  | |- context [Pos.compare_cont Eq ?a ?b] =>
      change (Pos.compare_cont Eq a b) with (Pos.compare a b)
  | H : context [Pos.compare_cont Eq ?a ?b] |- _ =>
      change (Pos.compare_cont Eq a b) with (Pos.compare a b) in H
  | |- context [Z.compare ?a ?b] => destruct (Z.compare_spec a b)
  | H : context [Z.compare ?a ?b] |- _ => destruct (Z.compare_spec a b)
  | |- context [Pos.compare ?a ?b] => destruct (Pos.compare_spec a b)
  | H : context [Pos.compare ?a ?b] |- _ => destruct (Pos.compare_spec a b)
  end.

(** Facts about the order on floating-point numbers, by cases. *)
Ltac float_cases :=
  unfold SFleb, SFltb, SFcompare, is_nan, inf, neg_inf in *;
  repeat match goal with
  | a : float |- _ => destruct a as [[]|[]| |[] ? ?]
  end;
  simpl in *; try done; cmp_cases; simpl in *; try done; try lia.

(** Equalities of sets built from unions, singletons and lists. *)
Ltac set_tauto :=
  apply set_eq; intros ?;
  rewrite ?elem_of_union, ?elem_of_list_to_set, ?elem_of_app, ?elem_of_cons,
    ?elem_of_singleton, ?elem_of_empty, ?elem_of_nil;
  tauto.

(** A decidable proposition about a concrete scene, by evaluation. *)
Ltac by_computation := apply (bool_decide_unpack _); vm_compute; exact I.

(** ** Running monadic code *)

Lemma bind_run {A B} (m : M A) (f : A → M B) ctx a ctx' :
  m ctx = Ok (a, ctx') → (m ≫= f) ctx = f a ctx'.
Proof. intros Hm. unfold mbind, M_bind. by rewrite Hm. Qed.

Lemma bind_raise {A B} (m : M A) (f : A → M B) ctx e :
  m ctx = Raise e → (m ≫= f) ctx = Raise e.
Proof. intros Hm. unfold mbind, M_bind. by rewrite Hm. Qed.

Lemma gets_run {A} (f : Context → A) ctx : gets f ctx = Ok (f ctx, ctx).
Proof. done. Qed.

Lemma ret_run {A} (a : A) ctx : (mret a : M A) ctx = Ok (a, ctx).
Proof. done. Qed.

Lemma for_fold_cons {A S} (body : S → A → M S) acc a l :
  for_fold body acc (a :: l) = body acc a ≫= λ acc', for_fold body acc' l.
Proof. done. Qed.

(** ** The scene graph *)

Section Graph.
Implicit Types (ctx : Context) (r x c p : ObjRef).

Lemma child_of_dom ctx c p : child_of ctx c p → c ∈ dom (data_objects ctx).
Proof.
  unfold child_of, parent_of. intros Hp. apply elem_of_dom.
  destruct (data_objects ctx !! c); [eauto | done].
Qed.

Lemma elem_of_children ctx r c : c ∈ children ctx r ↔ child_of ctx c r.
Proof.
  unfold children. rewrite list_elem_of_filter, elem_of_elements.
  split; [tauto |]. intros Hp. split; [done |]. by eapply child_of_dom.
Qed.

Lemma elem_of_descend n ctx r x :
  x ∈ descend n ctx r ↔ ∃ k, 1 ≤ k ≤ n ∧ nsteps (child_of ctx) k x r.
Proof.
  revert r. induction n as [|n IH]; intros r; simpl.
  { split; [by intros ?%elem_of_nil | intros (k & ? & _); lia]. }
  rewrite list_elem_of_bind. split.
  - intros (c & Hx & Hc%elem_of_children).
    apply elem_of_cons in Hx as [-> | Hx].
    + exists 1. split; [lia |]. by apply nsteps_once.
    + apply IH in Hx as (k & ? & Hk). exists (S k). split; [lia |].
      by eapply nsteps_r.
  - intros ([|k] & Hle & Hk); [lia |].
    apply nsteps_inv_r in Hk as (c & Hk & Hc). exists c.
    split; [| by apply elem_of_children].
    destruct k as [|k].
    + inversion Hk; subst. by left.
    + right. apply IH. exists (S k). split; [lia | done].
Qed.

(** A chain of parent links in an acyclic graph visits distinct objects of
    the store, so it is no longer than the store is large. *)
Lemma nsteps_distinct ctx k x r :
  acyclic ctx → nsteps (child_of ctx) k x r →
  ∃ l : list ObjRef, length l = k ∧ NoDup l ∧
    ∀ z, z ∈ l → z ∈ dom (data_objects ctx) ∧ (z = x ∨ descendant ctx x z).
Proof.
  intros Hac. induction 1 as [x | k x x' r Hx Hk (l & Hlen & Hnd & Hl)].
  { exists []. split_and!; [done | constructor | by intros ? ?%elem_of_nil]. }
  exists (x :: l). split_and!.
  - simpl. by rewrite Hlen.
  - constructor; [| done]. intros [_ [-> | Hz]]%Hl.
    + apply (Hac x'). by apply tc_once.
    + apply (Hac x). by eapply tc_l.
  - intros z [-> | Hz]%elem_of_cons.
    + split; [by eapply child_of_dom | by left].
    + destruct (Hl z Hz) as [Hdom [-> | Hd]].
      * split; [done |]. right. by apply tc_once.
      * split; [done |]. right. by eapply tc_l.
Qed.

Lemma chain_bound ctx k x r :
  acyclic ctx → nsteps (child_of ctx) k x r → k ≤ size (data_objects ctx).
Proof.
  intros Hac Hk.
  destruct (nsteps_distinct ctx k x r Hac Hk) as (l & <- & Hnd & Hl).
  rewrite <-size_dom. apply submseteq_length, NoDup_submseteq; [done |].
  intros z Hz. apply elem_of_elements. by apply Hl.
Qed.

Lemma children_recursive_sound ctx r x :
  x ∈ children_recursive ctx r → descendant ctx x r.
Proof.
  intros (k & ? & Hk)%elem_of_descend. apply tc_nsteps. exists k.
  split; [lia | done].
Qed.

Lemma elem_of_children_recursive ctx r x :
  acyclic ctx → x ∈ children_recursive ctx r ↔ descendant ctx x r.
Proof.
  intros Hac. split; [apply children_recursive_sound |].
  intros (k & ? & Hk)%tc_nsteps. apply elem_of_descend. exists k.
  split; [| done]. split; [lia |]. by eapply chain_bound.
Qed.

Lemma children_recursive_dom ctx r x :
  x ∈ children_recursive ctx r → x ∈ dom (data_objects ctx).
Proof.
  intros Hx%children_recursive_sound. unfold descendant in Hx.
  destruct Hx; by eapply child_of_dom.
Qed.

Lemma children_recursive_leaf ctx r :
  leaf ctx r → children_recursive ctx r = [].
Proof.
  intros Hleaf. destruct (children_recursive ctx r) as [|x l] eqn:E; [done |].
  assert (Hx : descendant ctx x r).
  { apply children_recursive_sound. rewrite E. by left. }
  apply tc_nsteps in Hx as ([|k] & ? & Hk); [lia |].
  apply nsteps_inv_r in Hk as (c & _ & Hc). by apply Hleaf in Hc.
Qed.

(** *** Checking acyclicity *)

Lemma ancestor_at_nsteps k ctx r y :
  ancestor_at k ctx r = Some y ↔ nsteps (child_of ctx) k r y.
Proof.
  revert r. induction k as [|k IH]; intros r; simpl.
  - split; [intros [= ->]; constructor | by inversion 1].
  - split.
    + destruct (parent_of ctx r) as [p|] eqn:Hp; [| done]. simpl.
      intros Hk%IH. by econstructor.
    + inversion 1 as [|? ? p ? Hp Hk]; subst. unfold child_of in Hp.
      rewrite Hp. simpl. by apply IH.
Qed.

Lemma ancestor_at_add a b ctx r :
  ancestor_at (a + b) ctx r = ancestor_at a ctx r ≫= ancestor_at b ctx.
Proof.
  revert r. induction a as [|a IH]; intros r; simpl; [done |].
  destruct (parent_of ctx r); simpl; [apply IH | done].
Qed.

Lemma acyclic_chains_end ctx : acyclic ctx → chains_end ctx.
Proof.
  intros Hac. apply Forall_forall. intros r _.
  destruct (ancestor_at _ ctx r) as [y|] eqn:Hy; [| done].
  apply ancestor_at_nsteps, chain_bound in Hy; [lia | done].
Qed.

Lemma chains_end_acyclic ctx : chains_end ctx → acyclic ctx.
Proof.
  intros Hends r (k & Hpos & Hk)%tc_nsteps.
  set (n := S (size (data_objects ctx))).
  assert (Hdom : r ∈ dom (data_objects ctx)).
  { inversion Hk; subst; [lia | by eapply child_of_dom]. }
  assert (Hloop : ∀ m, nsteps (child_of ctx) (m * k) r r).
  { induction m as [|m IHm]; simpl; [constructor | by eapply nsteps_trans]. }
  specialize (Hloop n). apply ancestor_at_nsteps in Hloop.
  replace (n * k) with (n + (n * k - n)) in Hloop by nia.
  rewrite ancestor_at_add in Hloop.
  unfold chains_end in Hends. rewrite Forall_forall in Hends. subst n.
  rewrite (Hends r) in Hloop; [done | by apply elem_of_elements].
Qed.

Lemma acyclic_iff_chains_end ctx : acyclic ctx ↔ chains_end ctx.
Proof. split; [apply acyclic_chains_end | apply chains_end_acyclic]. Qed.
End Graph.

(** ** Stores and enumerations *)

Section Store.
Implicit Types (ctx : Context) (r k : ObjRef).

Lemma elem_of_selected ctx r :
  r ∈ selected ctx ↔
  ∃ o, data_objects ctx !! r = Some o ∧ Object.select o = true.
Proof.
  unfold selected. rewrite elem_of_dom. split.
  - intros [o Ho]. apply map_lookup_filter_Some in Ho. by exists o.
  - intros (o & Ho & Hs). exists o. by apply map_lookup_filter_Some.
Qed.

Lemma selected_dom ctx r : r ∈ selected ctx → r ∈ dom (data_objects ctx).
Proof. intros (o & Ho & _)%elem_of_selected. apply elem_of_dom. eauto. Qed.

Lemma elem_of_enumeration order (X : gset ObjRef) r :
  enumerates order → r ∈ order X ↔ r ∈ X.
Proof. intros Hord. by rewrite (Hord X), elem_of_elements. Qed.

Lemma NoDup_enumeration order (X : gset ObjRef) :
  enumerates order → NoDup (order X).
Proof. intros Hord. rewrite (Hord X). apply NoDup_elements. Qed.

Lemma length_enumeration order (X : gset ObjRef) :
  enumerates order → length (order X) = size X.
Proof. intros Hord. by rewrite (Hord X). Qed.

Lemma list_to_set_enumeration order (X : gset ObjRef) :
  enumerates order → list_to_set (order X) = X.
Proof.
  intros Hord. apply set_eq. intros r.
  by rewrite elem_of_list_to_set, elem_of_enumeration.
Qed.

Lemma get_object_run ctx r o :
  data_objects ctx !! r = Some o → get_object r ctx = Ok (o, ctx).
Proof. intros Ho. unfold get_object. by rewrite Ho. Qed.

Lemma update_object_run ctx r f o :
  data_objects ctx !! r = Some o →
  update_object r f ctx =
    Ok (tt, set_data_objects (<[r := f o]> (data_objects ctx)) ctx).
Proof. intros Ho. unfold update_object. by rewrite Ho. Qed.
End Store.

(** ** The recursive subtree collector and DeleteRecursive *)

Section Collector.
Implicit Types (ctx : Context) (r x : ObjRef).

Lemma add_children_run (objs : gset ObjRef) (cr : list ObjRef) ctx :
  for_fold (λ (objs : gset ObjRef) child, mret ({[child]} ∪ objs)) objs cr ctx
  = Ok (list_to_set cr ∪ objs, ctx).
Proof.
  revert objs. induction cr as [|c cr IH]; intros objs.
  { simpl. rewrite ret_run. f_equal. f_equal. set_tauto. }
  rewrite for_fold_cons. erewrite bind_run; [| apply ret_run].
  rewrite IH. f_equal. f_equal. set_tauto.
Qed.

Lemma collect_from (acc : gset ObjRef) roots ctx :
  for_fold (λ (objs : gset ObjRef) parent,
      let objs := {[parent]} ∪ objs in
      cr ← gets (λ ctx, children_recursive ctx parent);
      for_fold (λ (objs : gset ObjRef) child, mret ({[child]} ∪ objs))
               objs cr)
    acc roots ctx
  = Ok (acc ∪ subtree_set ctx roots, ctx).
Proof.
  revert acc. induction roots as [|r roots IH]; intros acc.
  { simpl. rewrite ret_run. f_equal. f_equal. unfold subtree_set.
    set_tauto. }
  rewrite for_fold_cons. erewrite bind_run; cycle 1.
  { cbv zeta. erewrite bind_run; [| apply gets_run]. apply add_children_run. }
  rewrite IH. f_equal. f_equal. unfold subtree_set.
  rewrite bind_cons. set_tauto.
Qed.

Lemma collect_run roots ctx :
  DeleteRecursive.collect roots ctx = Ok (subtree_set ctx roots, ctx).
Proof.
  unfold DeleteRecursive.collect. rewrite collect_from.
  f_equal. f_equal. set_tauto.
Qed.

Lemma elem_of_subtree_set_1 ctx roots x :
  x ∈ subtree_set ctx roots →
  x ∈ roots ∨ ∃ r, r ∈ roots ∧ descendant ctx x r.
Proof.
  unfold subtree_set. rewrite elem_of_list_to_set, elem_of_app.
  intros [Hx | Hx]; [by left | right].
  apply list_elem_of_bind in Hx as (r & Hx & Hr). exists r.
  split; [done | by apply children_recursive_sound].
Qed.

Lemma elem_of_subtree_set ctx roots x :
  acyclic ctx →
  x ∈ subtree_set ctx roots ↔
  x ∈ roots ∨ ∃ r, r ∈ roots ∧ descendant ctx x r.
Proof.
  intros Hac. split; [apply elem_of_subtree_set_1 |].
  unfold subtree_set. rewrite elem_of_list_to_set, elem_of_app.
  intros [Hx | (r & Hr & Hx)]; [by left | right].
  apply list_elem_of_bind. exists r.
  split; [by apply elem_of_children_recursive | done].
Qed.

Lemma subtree_set_dom ctx roots x :
  (∀ r, r ∈ roots → r ∈ dom (data_objects ctx)) →
  x ∈ subtree_set ctx roots → x ∈ dom (data_objects ctx).
Proof.
  intros Hroots. unfold subtree_set.
  rewrite elem_of_list_to_set, elem_of_app.
  intros [Hx | Hx]; [by apply Hroots |].
  apply list_elem_of_bind in Hx as (r & Hx & _).
  by eapply children_recursive_dom.
Qed.

(** A child of a collected object is collected too. *)
Lemma subtree_set_closed ctx roots c p :
  acyclic ctx → child_of ctx c p →
  p ∈ subtree_set ctx roots → c ∈ subtree_set ctx roots.
Proof.
  intros Hac Hc Hp. apply elem_of_subtree_set; [done |]. right.
  apply elem_of_subtree_set in Hp as [Hp | (r & Hr & Hp)]; [| | done].
  - exists p. split; [done | by apply tc_once].
  - exists r. split; [done | by eapply tc_l].
Qed.

Lemma remove_all_run (l : list ObjRef) ctx :
  NoDup l → (∀ r, r ∈ l → r ∈ dom (data_objects ctx)) →
  ∃ ctx', for_each objects_remove l ctx = Ok (tt, ctx') ∧
    ∀ k, data_objects ctx' !! k =
         if decide (k ∈ l) then None else data_objects ctx !! k.
Proof.
  revert ctx. induction l as [|r l IH]; intros ctx Hnd Hdom.
  { exists ctx. split; [done |]. intros k. rewrite decide_False; [done |].
    apply not_elem_of_nil. }
  apply NoDup_cons in Hnd as [Hr Hnd].
  destruct (data_objects ctx !! r) as [o|] eqn:Ho; cycle 1.
  { apply not_elem_of_dom in Ho. destruct Ho. apply Hdom. by left. }
  set (ctx1 := mkContext (delete r (data_objects ctx))
                 (collection_objects ctx ∖ {[r]})
                 (if bool_decide (active ctx = Some r) then None
                  else active ctx)
                 (delete r (bases ctx))).
  destruct (IH ctx1 Hnd) as (ctx' & Hrun & Hlook).
  { intros r' Hr'. simpl. rewrite dom_delete_L.
    apply elem_of_difference. split; [apply Hdom; by right |].
    apply not_elem_of_singleton. by intros ->. }
  exists ctx'. split.
  - unfold for_each in *. rewrite for_fold_cons. erewrite bind_run; [done |].
    unfold objects_remove. by rewrite Ho.
  - intros k. rewrite Hlook. simpl.
    destruct (decide (k = r)) as [-> | Hne].
    + rewrite lookup_delete_eq.
      rewrite (decide_True _ _ (list_elem_of_here _ _)).
      by case_decide.
    + rewrite lookup_delete_ne by done.
      destruct (decide (k ∈ l)) as [Hin | Hnin].
      * rewrite decide_True; [done | by right].
      * rewrite decide_False; [done |].
        intros [? | ?]%elem_of_cons; done.
Qed.
End Collector.

Section DeleteRecursiveSpec.
Variables host_order set_order : gset ObjRef → list ObjRef.
Hypothesis host_order_enumerates : enumerates host_order.
Hypothesis set_order_enumerates : enumerates set_order.

(** [DeleteRecursive.execute] never raises, and what it leaves in the
    store is the store without the collected set. *)
Lemma delete_recursive_run ctx :
  ∃ ctx',
    DeleteRecursive.execute host_order set_order ctx = Ok (FINISHED, ctx') ∧
    ∀ k, data_objects ctx' !! k =
         if decide (k ∈ subtree_set ctx
                          (DeleteRecursive.selected_objects host_order ctx))
         then None else data_objects ctx !! k.
Proof.
  set (roots := DeleteRecursive.selected_objects host_order ctx).
  destruct (remove_all_run (set_order (subtree_set ctx roots)) ctx)
    as (ctx' & Hrun & Hlook).
  { by apply NoDup_enumeration. }
  { intros r Hr%elem_of_enumeration; [| done].
    eapply subtree_set_dom; [| done]. intros r' Hr'.
    apply selected_dom.
    by apply (elem_of_enumeration host_order _ _ host_order_enumerates). }
  exists ctx'. split.
  - unfold DeleteRecursive.execute.
    erewrite bind_run; [| apply gets_run].
    erewrite bind_run; [| apply collect_run].
    erewrite bind_run; [| apply Hrun]. done.
  - intros k. rewrite Hlook. fold roots.
    destruct (decide (k ∈ subtree_set ctx roots)) as [Hin | Hnin].
    + rewrite decide_True; [done |]. by rewrite elem_of_enumeration.
    + rewrite decide_False; [done |]. by rewrite elem_of_enumeration.
Qed.
End DeleteRecursiveSpec.

(** ** SelectDescendants *)

Section SelectDescendantsSpec.
Implicit Types (ctx : Context) (r k : ObjRef).

Lemma same_graph_children_recursive ctx ctx' r :
  same_graph ctx ctx' → children_recursive ctx' r = children_recursive ctx r.
Proof.
  intros [Hdom Hpar]. unfold children_recursive.
  rewrite <-!size_dom, Hdom. generalize (size (dom (data_objects ctx))).
  intros n. revert r. induction n as [|n IH]; intros r; simpl; [done |].
  assert (Hch : ∀ r, children ctx' r = children ctx r).
  { intros r'. unfold children. rewrite Hdom. apply list_filter_iff.
    intros c. by rewrite Hpar. }
  rewrite Hch. induction (children ctx r) as [|c l IHl]; [done |].
  rewrite !bind_cons. by rewrite IH, IHl.
Qed.

(** [select_set obj true] on an object of the store, by the base it has. *)
Lemma select_set_run ctx r o :
  data_objects ctx !! r = Some o → in_view_layer ctx r →
  select_set r true ctx =
    Ok (tt, if decide (selectable ctx r)
            then set_data_objects
                   (<[r := Object.set_select true o]> (data_objects ctx)) ctx
            else ctx).
Proof.
  intros Ho [b Hb]. unfold select_set. rewrite Ho, Hb.
  destruct b.
  - rewrite decide_True by done. by apply update_object_run.
  - rewrite decide_False; [done |]. unfold selectable. by rewrite Hb.
Qed.

Lemma select_set_raises ctx r :
  r ∈ dom (data_objects ctx) → ¬ in_view_layer ctx r →
  select_set r true ctx = Raise RuntimeError.
Proof.
  intros [o Ho]%elem_of_dom Hb. unfold select_set. rewrite Ho.
  destruct (bases ctx !! r) eqn:Hr; [| done].
  destruct Hb. by eexists.
Qed.

(** The inner loop: every listed object that the host lets be selected gets
    its selection flag set. *)
Lemma select_list_run (l : list ObjRef) ctx :
  (∀ r, r ∈ l → r ∈ dom (data_objects ctx)) →
  (∀ r, r ∈ l → in_view_layer ctx r) →
  ∃ ctx', for_each (λ obj, select_set obj true) l ctx = Ok (tt, ctx') ∧
    collection_objects ctx' = collection_objects ctx ∧
    active ctx' = active ctx ∧
    bases ctx' = bases ctx ∧
    ∀ k, data_objects ctx' !! k =
         if decide (k ∈ l ∧ selectable ctx k)
         then Object.set_select true <$> data_objects ctx !! k
         else data_objects ctx !! k.
Proof.
  revert ctx. induction l as [|r l IH]; intros ctx Hdom Hlayer.
  { exists ctx. split_and!; [done..|]. intros k.
    rewrite decide_False; [done |]. intros [[]%not_elem_of_nil _]. }
  destruct (data_objects ctx !! r) as [o|] eqn:Ho; cycle 1.
  { apply not_elem_of_dom in Ho. destruct Ho. apply Hdom. by left. }
  set (ctx1 := if decide (selectable ctx r)
               then set_data_objects
                      (<[r := Object.set_select true o]> (data_objects ctx))
                      ctx
               else ctx).
  assert (Hb1 : bases ctx1 = bases ctx).
  { unfold ctx1. by case_decide. }
  assert (Hl1 : ∀ k, data_objects ctx1 !! k =
                     if decide (k = r ∧ selectable ctx k)
                     then Object.set_select true <$> data_objects ctx !! k
                     else data_objects ctx !! k).
  { intros k. unfold ctx1. destruct (decide (selectable ctx r)) as [Hs | Hs].
    - simpl. destruct (decide (k = r)) as [-> | Hne].
      + rewrite lookup_insert_eq, Ho, decide_True; done.
      + rewrite lookup_insert_ne by done.
        rewrite decide_False; [done | by intros [? _]].
    - rewrite decide_False; [done |]. by intros [-> ?]. }
  destruct (IH ctx1) as (ctx' & Hrun & Hcoll & Hact & Hbas & Hlook).
  { intros r' Hr'. apply elem_of_dom. rewrite Hl1.
    assert (Hin : r' ∈ dom (data_objects ctx)) by (apply Hdom; by right).
    apply elem_of_dom in Hin as [o' Ho']. rewrite Ho'.
    case_decide; by eexists. }
  { intros r' Hr'. unfold in_view_layer. rewrite Hb1.
    apply Hlayer. by right. }
  exists ctx'. split_and!.
  - unfold for_each in *. rewrite for_fold_cons.
    erewrite bind_run; [done |].
    apply select_set_run; [done |]. apply Hlayer. by left.
  - rewrite Hcoll. unfold ctx1. by case_decide.
  - rewrite Hact. unfold ctx1. by case_decide.
  - by rewrite Hbas.
  - intros k. rewrite Hlook, Hl1.
    assert (Hs : selectable ctx1 k ↔ selectable ctx k).
    { unfold selectable. by rewrite Hb1. }
    pose proof (elem_of_cons l k r) as Hc.
    repeat case_decide; try tauto; by destruct (data_objects ctx !! k).
Qed.

(** The inner loop stops at the first listed object outside the view
    layer. *)
Lemma select_list_raises (l : list ObjRef) ctx :
  (∀ r, r ∈ l → r ∈ dom (data_objects ctx)) →
  ¬ Forall (in_view_layer ctx) l →
  for_each (λ obj, select_set obj true) l ctx = Raise RuntimeError.
Proof.
  revert ctx. induction l as [|r l IH]; intros ctx Hdom Hout.
  { destruct Hout. constructor. }
  unfold for_each. rewrite for_fold_cons.
  destruct (decide (in_view_layer ctx r)) as [Hr | Hr]; cycle 1.
  { apply bind_raise, select_set_raises; [| done]. apply Hdom. by left. }
  assert (Hin : r ∈ dom (data_objects ctx)) by (apply Hdom; by left).
  apply elem_of_dom in Hin as [o Ho].
  erewrite bind_run; [| by apply select_set_run].
  apply IH.
  - intros r' Hr'. assert (Hin : r' ∈ dom (data_objects ctx))
      by (apply Hdom; by right).
    case_decide; [| done]. simpl. rewrite dom_insert_L. set_solver.
  - intros Hall. apply Hout. constructor; [done |].
    eapply Forall_impl; [exact Hall |]. intros k. unfold in_view_layer.
    by case_decide.
Qed.

Lemma lookup_select_parent (m m' : gmap ObjRef Object.t) (P : Prop)
    `{!Decision P} k :
  m' !! k = (if decide P then Object.set_select true <$> m !! k else m !! k) →
  m' !! k ≫= Object.parent = m !! k ≫= Object.parent ∧
  (is_Some (m' !! k) ↔ is_Some (m !! k)).
Proof.
  intros ->. case_decide; [| done].
  destruct (m !! k); simpl; split; try done; by rewrite !is_Some_alt.
Qed.

Lemma select_list_same_graph ctx0 ctx ctx1 (P : ObjRef → Prop)
    `{!∀ k, Decision (P k)} :
  same_graph ctx0 ctx →
  (∀ k, data_objects ctx1 !! k =
        if decide (P k) then Object.set_select true <$> data_objects ctx !! k
        else data_objects ctx !! k) →
  same_graph ctx0 ctx1.
Proof.
  intros [Hdom Hpar] Hlook. split.
  - rewrite <-Hdom. apply set_eq. intros k. rewrite !elem_of_dom.
    by eapply lookup_select_parent.
  - intros k. rewrite <-Hpar. unfold parent_of.
    by eapply lookup_select_parent.
Qed.

(** The outer loop, started in a store [ctx] with the graph of [ctx0]. *)
Lemma select_descendants_loop ctx0 (roots : list ObjRef) ctx :
  same_graph ctx0 ctx →
  Forall (in_view_layer ctx) (roots ≫= children_recursive ctx0) →
  ∃ ctx',
    for_each (λ obj,
        cr ← gets (λ ctx, children_recursive ctx obj);
        for_each (λ obj, select_set obj true) cr)
      roots ctx = Ok (tt, ctx') ∧
    collection_objects ctx' = collection_objects ctx ∧
    active ctx' = active ctx ∧
    bases ctx' = bases ctx ∧
    ∀ k, data_objects ctx' !! k =
         if decide (k ∈ roots ≫= children_recursive ctx0 ∧ selectable ctx k)
         then Object.set_select true <$> data_objects ctx !! k
         else data_objects ctx !! k.
Proof.
  revert ctx. induction roots as [|r roots IH]; intros ctx Hsame Hlayer.
  { exists ctx. split_and!; [done..|]. intros k.
    rewrite decide_False; [done |]. intros [[]%not_elem_of_nil _]. }
  pose proof (same_graph_children_recursive _ _ r Hsame) as Hcr.
  rewrite bind_cons in Hlayer. apply Forall_app in Hlayer as [Hhere Hrest].
  destruct (select_list_run (children_recursive ctx r) ctx)
    as (ctx1 & Hrun1 & Hcoll1 & Hact1 & Hbas1 & Hlook1).
  { intros x. apply children_recursive_dom. }
  { rewrite Hcr. by apply Forall_forall. }
  pose proof (select_list_same_graph _ _ _ _ Hsame Hlook1) as Hsame1.
  destruct (IH ctx1 Hsame1) as (ctx' & Hrun & Hcoll & Hact & Hbas & Hlook).
  { eapply Forall_impl; [exact Hrest |]. intros k. unfold in_view_layer.
    by rewrite Hbas1. }
  exists ctx'. split_and!; [| congruence | congruence | congruence |].
  - unfold for_each at 1. rewrite for_fold_cons. erewrite bind_run; [done |].
    erewrite bind_run; [| apply gets_run]. done.
  - intros k. rewrite Hlook, Hlook1, Hcr, bind_cons.
    assert (Hs : selectable ctx1 k ↔ selectable ctx k).
    { unfold selectable. by rewrite Hbas1. }
    pose proof (elem_of_app (children_recursive ctx0 r)
                  (roots ≫= children_recursive ctx0) k) as Hc.
    repeat case_decide; try tauto; by destruct (data_objects ctx !! k).
Qed.

(** The outer loop stops when something below a listed object is outside
    the view layer. *)
Lemma select_descendants_loop_raises ctx0 (roots : list ObjRef) ctx :
  same_graph ctx0 ctx →
  ¬ Forall (in_view_layer ctx) (roots ≫= children_recursive ctx0) →
  for_each (λ obj,
      cr ← gets (λ ctx, children_recursive ctx obj);
      for_each (λ obj, select_set obj true) cr)
    roots ctx = Raise RuntimeError.
Proof.
  revert ctx. induction roots as [|r roots IH]; intros ctx Hsame Hout.
  { destruct Hout. constructor. }
  pose proof (same_graph_children_recursive _ _ r Hsame) as Hcr.
  unfold for_each at 1. rewrite for_fold_cons.
  destruct (decide (Forall (in_view_layer ctx) (children_recursive ctx0 r)))
    as [Hhere | Hhere]; cycle 1.
  { apply bind_raise. erewrite bind_run; [| apply gets_run].
    apply select_list_raises; [| by rewrite Hcr].
    intros x. apply children_recursive_dom. }
  destruct (select_list_run (children_recursive ctx r) ctx)
    as (ctx1 & Hrun1 & Hcoll1 & Hact1 & Hbas1 & Hlook1).
  { intros x. apply children_recursive_dom. }
  { rewrite Hcr. by apply Forall_forall. }
  erewrite bind_run; cycle 1.
  { erewrite bind_run; [| apply gets_run]. exact Hrun1. }
  apply IH.
  - exact (select_list_same_graph _ _ _ _ Hsame Hlook1).
  - intros Hall. apply Hout. rewrite bind_cons. apply Forall_app.
    split; [done |]. eapply Forall_impl; [exact Hall |].
    intros k. unfold in_view_layer. by rewrite Hbas1.
Qed.

Lemma same_graph_refl ctx : same_graph ctx ctx.
Proof. done. Qed.

Variable host_order : gset ObjRef → list ObjRef.
Hypothesis host_order_enumerates : enumerates host_order.

Lemma descendants_in_view_layer_list ctx :
  descendants_in_view_layer ctx →
  Forall (in_view_layer ctx)
    (SelectDescendants.selected_objects host_order ctx
       ≫= children_recursive ctx).
Proof.
  intros Hall. apply Forall_forall.
  intros x (r & Hx & Hr)%list_elem_of_bind. eapply Hall.
  - by apply (elem_of_enumeration host_order _ _ host_order_enumerates).
  - by apply children_recursive_sound.
Qed.

Lemma list_descendants_in_view_layer ctx :
  acyclic ctx →
  Forall (in_view_layer ctx)
    (SelectDescendants.selected_objects host_order ctx
       ≫= children_recursive ctx) →
  descendants_in_view_layer ctx.
Proof.
  intros Hac Hall x r Hr Hx. eapply Forall_forall; [exact Hall |].
  apply list_elem_of_bind. exists r. split.
  - by apply elem_of_children_recursive.
  - by apply (elem_of_enumeration host_order _ _ host_order_enumerates).
Qed.

Lemma select_descendants_run ctx :
  descendants_in_view_layer ctx →
  ∃ ctx',
    SelectDescendants.execute host_order ctx = Ok (FINISHED, ctx') ∧
    collection_objects ctx' = collection_objects ctx ∧
    active ctx' = active ctx ∧
    bases ctx' = bases ctx ∧
    ∀ k, data_objects ctx' !! k =
         if decide (k ∈ SelectDescendants.selected_objects host_order ctx
                          ≫= children_recursive ctx
                    ∧ selectable ctx k)
         then Object.set_select true <$> data_objects ctx !! k
         else data_objects ctx !! k.
Proof.
  intros Hlayer%descendants_in_view_layer_list.
  destruct (select_descendants_loop ctx
              (SelectDescendants.selected_objects host_order ctx) ctx
              (same_graph_refl ctx) Hlayer)
    as (ctx' & Hrun & Hcoll & Hact & Hbas & Hlook).
  exists ctx'. split_and!; [| done..].
  unfold SelectDescendants.execute.
  erewrite bind_run; [| apply gets_run].
  erewrite bind_run; [| apply Hrun]. done.
Qed.

Lemma select_descendants_raises ctx :
  acyclic ctx → ¬ descendants_in_view_layer ctx →
  SelectDescendants.execute host_order ctx = Raise RuntimeError.
Proof.
  intros Hac Hout. unfold SelectDescendants.execute.
  erewrite bind_run; [| apply gets_run].
  apply bind_raise, (select_descendants_loop_raises ctx); [done |].
  intros Hall. by apply Hout, list_descendants_in_view_layer.
Qed.

(** With only leaves selected, the loop does nothing at all. *)
Lemma select_descendants_leaves ctx :
  (∀ r, r ∈ selected ctx → leaf ctx r) →
  SelectDescendants.execute host_order ctx = Ok (FINISHED, ctx).
Proof.
  intros Hleaf. unfold SelectDescendants.execute.
  erewrite bind_run; [| apply gets_run].
  assert (Hroots : ∀ r, r ∈ SelectDescendants.selected_objects host_order ctx
                        → leaf ctx r).
  { intros r Hr. apply Hleaf.
    by apply (elem_of_enumeration host_order _ _ host_order_enumerates). }
  erewrite bind_run; [done |].
  induction (SelectDescendants.selected_objects host_order ctx)
    as [|r l IH]; [done |].
  unfold for_each at 1. rewrite for_fold_cons. erewrite bind_run; cycle 1.
  { erewrite bind_run; [| apply gets_run].
    rewrite children_recursive_leaf; [done |]. apply Hroots. by left. }
  apply IH. intros r' Hr'. apply Hroots. by right.
Qed.
End SelectDescendantsSpec.

(** ** The order on floating-point numbers *)

Section FloatOrder.
Implicit Types a b c : float.

Lemma SFltb_irrefl a : SFltb a a = false.
Proof. float_cases. Qed.

Lemma SFltb_trans a b c :
  SFltb a b = true → SFltb b c = true → SFltb a c = true.
Proof. intros. float_cases. Qed.

Lemma SFltb_le_trans a b c :
  SFltb a b = true → SFltb c b = false → is_nan c = false →
  SFltb a c = true.
Proof. intros. float_cases. Qed.

Lemma SFle_ltb_trans a b c :
  SFltb b a = false → SFltb b c = true → is_nan a = false →
  SFltb a c = true.
Proof. intros. float_cases. Qed.

Lemma SFltb_not_nan a b :
  SFltb a b = true → is_nan a = false ∧ is_nan b = false.
Proof. intros. split; float_cases. Qed.

Lemma SFleb_of_not_ltb a b :
  is_nan a = false → is_nan b = false → SFltb b a = false →
  SFleb a b = true.
Proof. intros. float_cases. Qed.

Lemma SFleb_not_nan a b :
  SFleb a b = true → is_nan a = false ∧ is_nan b = false.
Proof. intros. split; float_cases. Qed.

Lemma SFltb_inf a : SFltb a inf = false → is_nan a = true ∨ a = inf.
Proof. intros. destruct a as [[]|[]| |[] ? ?]; simpl in *; auto; done. Qed.

Lemma SFltb_neg_inf a :
  SFltb neg_inf a = false → is_nan a = true ∨ a = neg_inf.
Proof. intros. destruct a as [[]|[]| |[] ? ?]; simpl in *; auto; done. Qed.

(** Two numbers that compare equal are the same number, up to the sign
    of zero. *)
Lemma SFleb_antisym a b :
  SFleb a b = true → SFleb b a = true →
  a = b ∨ ∃ s s', a = S754_zero s ∧ b = S754_zero s'.
Proof.
  intros.
  destruct a as [sa|[]| |[] ma ea], b as [sb|[]| |[] mb eb];
    try (right; by eauto); unfold SFleb, SFcompare in *; simpl in *;
    try done; try (by left); cmp_cases; simpl in *; try done; try lia;
    left; congruence.
Qed.
End FloatOrder.

(** ** The reduction to a minimum and a maximum *)

Section Reduction.
Implicit Types (a b m seed : float) (xs : list float).

Lemma foldl_py_min seed xs :
  is_nan seed = false →
  is_nan (foldl py_min seed xs) = false ∧
  SFltb seed (foldl py_min seed xs) = false ∧
  (∀ v, v ∈ xs → SFltb v (foldl py_min seed xs) = false) ∧
  (foldl py_min seed xs = seed ∨ foldl py_min seed xs ∈ xs).
Proof.
  revert seed. induction xs as [|b xs IH]; intros seed Hseed; simpl.
  { split_and!; [done | apply SFltb_irrefl | | by left].
    by intros v ?%elem_of_nil. }
  change (py_min seed b) with (if SFltb b seed then b else seed).
  destruct (SFltb b seed) eqn:Hb.
  - destruct (IH b) as (Hnan & Hle & Hlow & Hin).
    { by apply SFltb_not_nan in Hb as [? _]. }
    split_and!; [done | | |].
    + destruct (SFltb seed (foldl py_min b xs)) eqn:Hc; [| done].
      by rewrite (SFltb_trans _ _ _ Hb Hc) in Hle.
    + intros v [-> | Hv]%elem_of_cons; [done | by apply Hlow].
    + right. destruct Hin as [-> | Hin]; [by left | by right].
  - destruct (IH seed Hseed) as (Hnan & Hle & Hlow & Hin).
    split_and!; [done | done | |].
    + intros v [-> | Hv]%elem_of_cons; [| by apply Hlow].
      destruct (SFltb b (foldl py_min seed xs)) eqn:Hc; [| done].
      by rewrite (SFltb_le_trans _ _ _ Hc Hle Hseed) in Hb.
    + destruct Hin as [-> | Hin]; [by left | right; by right].
Qed.

Lemma foldl_py_max seed xs :
  is_nan seed = false →
  is_nan (foldl py_max seed xs) = false ∧
  SFltb (foldl py_max seed xs) seed = false ∧
  (∀ v, v ∈ xs → SFltb (foldl py_max seed xs) v = false) ∧
  (foldl py_max seed xs = seed ∨ foldl py_max seed xs ∈ xs).
Proof.
  revert seed. induction xs as [|b xs IH]; intros seed Hseed; simpl.
  { split_and!; [done | apply SFltb_irrefl | | by left].
    by intros v ?%elem_of_nil. }
  change (py_max seed b) with (if SFltb seed b then b else seed).
  destruct (SFltb seed b) eqn:Hb.
  - destruct (IH b) as (Hnan & Hle & Hlow & Hin).
    { by apply SFltb_not_nan in Hb as [_ ?]. }
    split_and!; [done | | |].
    + destruct (SFltb (foldl py_max b xs) seed) eqn:Hc; [| done].
      by rewrite (SFltb_trans _ _ _ Hc Hb) in Hle.
    + intros v [-> | Hv]%elem_of_cons; [done | by apply Hlow].
    + right. destruct Hin as [-> | Hin]; [by left | by right].
  - destruct (IH seed Hseed) as (Hnan & Hle & Hlow & Hin).
    split_and!; [done | done | |].
    + intros v [-> | Hv]%elem_of_cons; [| by apply Hlow].
      destruct (SFltb (foldl py_max seed xs) b) eqn:Hc; [| done].
      by rewrite (SFle_ltb_trans _ _ _ Hle Hc Hseed) in Hb.
    + destruct Hin as [-> | Hin]; [by left | right; by right].
Qed.

Lemma foldl_py_min_least xs : least_of (foldl py_min inf xs) xs.
Proof.
  destruct (foldl_py_min inf xs) as (Hnan & _ & Hlow & Hin); [done |].
  split_and!; [done | |].
  - intros v Hv Hvnan. apply SFleb_of_not_ltb; [done | done | by apply Hlow].
  - destruct Hin as [Hm | Hin]; [| by left].
    destruct (decide (inf ∈ xs)) as [Hinf | Hinf].
    { left. by rewrite Hm. }
    right. split; [done |]. intros v Hv. specialize (Hlow v Hv).
    rewrite Hm in Hlow. apply SFltb_inf in Hlow as [? | ->]; done.
Qed.

Lemma foldl_py_max_greatest xs : greatest_of (foldl py_max neg_inf xs) xs.
Proof.
  destruct (foldl_py_max neg_inf xs) as (Hnan & _ & Hlow & Hin); [done |].
  split_and!; [done | |].
  - intros v Hv Hvnan. apply SFleb_of_not_ltb; [done | done | by apply Hlow].
  - destruct Hin as [Hm | Hin]; [| by left].
    destruct (decide (neg_inf ∈ xs)) as [Hinf | Hinf].
    { left. by rewrite Hm. }
    right. split; [done |]. intros v Hv. specialize (Hlow v Hv).
    rewrite Hm in Hlow. apply SFltb_neg_inf in Hlow as [? | ->]; done.
Qed.

(** Attained bounds pin the least and the greatest element down. *)
Lemma least_of_spans lo hi m xs :
  spans lo hi xs → least_of m xs →
  m = lo ∨ ∃ s s', m = S754_zero s ∧ lo = S754_zero s'.
Proof.
  intros (Hlo & Hhi & Hall) (Hnan & Hlow & Hin).
  rewrite Forall_forall in Hall.
  destruct (Hall lo Hlo) as [Hlolo _].
  apply SFleb_not_nan in Hlolo as [Hlonan _].
  destruct Hin as [Hin | [_ Hnans]]; cycle 1.
  { specialize (Hnans lo Hlo). congruence. }
  apply SFleb_antisym; [by apply Hlow | by apply Hall].
Qed.

Lemma greatest_of_spans lo hi m xs :
  spans lo hi xs → greatest_of m xs →
  m = hi ∨ ∃ s s', m = S754_zero s ∧ hi = S754_zero s'.
Proof.
  intros (Hlo & Hhi & Hall) (Hnan & Hlow & Hin).
  rewrite Forall_forall in Hall.
  destruct (Hall hi Hhi) as [_ Hhihi].
  apply SFleb_not_nan in Hhihi as [Hhinan _].
  destruct Hin as [Hin | [_ Hnans]]; cycle 1.
  { specialize (Hnans hi Hhi). congruence. }
  apply SFleb_antisym; [by apply Hall | by apply Hlow].
Qed.
End Reduction.

(** ** get_bounding_box *)

Section BoundingBoxSpec.
Context `{FloatFormat}.
Implicit Types (ctx : Context) (objs : list ObjRef) (ws : list Vector.t).

Lemma bound_vertex_world mw acc co :
  bound_vertex mw acc co = bound_world acc (Matrix.matmul mw co).
Proof. by destruct acc. Qed.

Lemma foldl_bound_vertex mw acc (vs : list Vector.t) :
  foldl (bound_vertex mw) acc vs
  = foldl bound_world acc (Matrix.matmul mw <$> vs).
Proof.
  revert acc. induction vs as [|v vs IH]; intros acc; simpl; [done |].
  by rewrite bound_vertex_world, IH.
Qed.

Lemma bounds_loop_run ctx objs acc :
  Forall (is_mesh ctx) objs →
  for_fold (λ acc obj,
      o ← get_object obj;
      vs ← lift (Object.vertices o);
      mret (foldl (bound_vertex (Object.matrix_world o)) acc vs))
    acc objs ctx
  = Ok (foldl bound_world acc (world_vertices ctx objs), ctx).
Proof.
  intros Hmesh. revert acc.
  induction Hmesh as [|r objs (o & vs & Ho & Hvs) _ IH]; intros acc.
  { done. }
  rewrite for_fold_cons. erewrite bind_run; cycle 1.
  { erewrite bind_run; [| by apply get_object_run].
    unfold Object.vertices. rewrite Hvs. simpl. done. }
  rewrite IH. unfold world_vertices. rewrite bind_cons, Ho, Hvs, foldl_app.
  by rewrite foldl_bound_vertex.
Qed.

Lemma get_bounding_box_run ctx objs :
  Forall (is_mesh ctx) objs →
  get_bounding_box objs ctx
  = Ok (box_of (bounds (world_vertices ctx objs)), ctx).
Proof.
  intros Hmesh. unfold get_bounding_box.
  erewrite bind_run; [| by apply bounds_loop_run].
  fold (bounds (world_vertices ctx objs)).
  by destruct (bounds (world_vertices ctx objs)) as [min_point max_point].
Qed.

Lemma world_vertices_ext ctx ctx' objs :
  (∀ r, r ∈ objs → data_objects ctx' !! r = data_objects ctx !! r) →
  world_vertices ctx' objs = world_vertices ctx objs.
Proof.
  intros Hsame. unfold world_vertices.
  induction objs as [|r objs IH]; [done |].
  rewrite !bind_cons, Hsame by (by left).
  rewrite IH; [done |]. intros r' Hr'. apply Hsame. by right.
Qed.

Lemma is_mesh_ext ctx ctx' r :
  data_objects ctx' !! r = data_objects ctx !! r →
  is_mesh ctx r → is_mesh ctx' r.
Proof. intros Hsame (o & vs & Ho & Hvs). exists o, vs. by rewrite Hsame. Qed.

(** The six running extrema are independent folds, one per axis. *)
Lemma bounds_min_x acc ws :
  Vector.x (foldl bound_world acc ws).1
  = foldl py_min (Vector.x acc.1) (Vector.x <$> ws).
Proof.
  revert acc. induction ws as [|w ws IH]; intros acc; [done |]. apply IH.
Qed.
Lemma bounds_min_y acc ws :
  Vector.y (foldl bound_world acc ws).1
  = foldl py_min (Vector.y acc.1) (Vector.y <$> ws).
Proof.
  revert acc. induction ws as [|w ws IH]; intros acc; [done |]. apply IH.
Qed.
Lemma bounds_min_z acc ws :
  Vector.z (foldl bound_world acc ws).1
  = foldl py_min (Vector.z acc.1) (Vector.z <$> ws).
Proof.
  revert acc. induction ws as [|w ws IH]; intros acc; [done |]. apply IH.
Qed.
Lemma bounds_max_x acc ws :
  Vector.x (foldl bound_world acc ws).2
  = foldl py_max (Vector.x acc.2) (Vector.x <$> ws).
Proof.
  revert acc. induction ws as [|w ws IH]; intros acc; [done |]. apply IH.
Qed.
Lemma bounds_max_y acc ws :
  Vector.y (foldl bound_world acc ws).2
  = foldl py_max (Vector.y acc.2) (Vector.y <$> ws).
Proof.
  revert acc. induction ws as [|w ws IH]; intros acc; [done |]. apply IH.
Qed.
Lemma bounds_max_z acc ws :
  Vector.z (foldl bound_world acc ws).2
  = foldl py_max (Vector.z acc.2) (Vector.z <$> ws).
Proof.
  revert acc. induction ws as [|w ws IH]; intros acc; [done |]. apply IH.
Qed.

Lemma bounds_extrema ws :
  least_of (Vector.x (bounds ws).1) (Vector.x <$> ws) ∧
  least_of (Vector.y (bounds ws).1) (Vector.y <$> ws) ∧
  least_of (Vector.z (bounds ws).1) (Vector.z <$> ws) ∧
  greatest_of (Vector.x (bounds ws).2) (Vector.x <$> ws) ∧
  greatest_of (Vector.y (bounds ws).2) (Vector.y <$> ws) ∧
  greatest_of (Vector.z (bounds ws).2) (Vector.z <$> ws).
Proof.
  unfold bounds.
  rewrite bounds_min_x, bounds_min_y, bounds_min_z.
  rewrite bounds_max_x, bounds_max_y, bounds_max_z. simpl.
  split_and!; first [apply foldl_py_min_least | apply foldl_py_max_greatest].
Qed.

End BoundingBoxSpec.

Section BoundingBoxSpan.
(** The stated example, for every scene: world vertices that span
    (-1,-1,0) to (1,1,2) give center (0,0,1) and extent (2,2,2). *)
Lemma box_of_span (fmt : FloatFormat) (ws : list Vector.t) :
  fmt = binary32 ∨ fmt = binary64 →
  spans (of_int (-1)) (of_int 1) (Vector.x <$> ws) →
  spans (of_int (-1)) (of_int 1) (Vector.y <$> ws) →
  spans (of_int 0) (of_int 2) (Vector.z <$> ws) →
  box_of (bounds ws) = (vec 0 0 1, vec 2 2 2).
Proof.
  intros Hfmt Hx Hy Hz.
  destruct (bounds_extrema ws) as (Hlx & Hly & Hlz & Hgx & Hgy & Hgz).
  pose proof (least_of_spans _ _ _ _ Hx Hlx) as Hax.
  pose proof (least_of_spans _ _ _ _ Hy Hly) as Hay.
  pose proof (least_of_spans _ _ _ _ Hz Hlz) as Haz.
  pose proof (greatest_of_spans _ _ _ _ Hx Hgx) as Hbx.
  pose proof (greatest_of_spans _ _ _ _ Hy Hgy) as Hby.
  pose proof (greatest_of_spans _ _ _ _ Hz Hgz) as Hbz.
  clear Hx Hy Hz Hlx Hly Hlz Hgx Hgy Hgz.
  destruct (bounds ws) as [[a b c] [a' b' c']]. simpl in *.
  assert (Hc : ∃ s, c = S754_zero s).
  { destruct Haz as [-> | (s & _ & -> & _)]; [| by eauto].
    exists false. by destruct Hfmt as [-> | ->]. }
  destruct Hc as [s ->]. clear Haz.
  destruct Hfmt as [-> | ->];
    destruct Hax as [-> | (? & ? & _ & ?)]; try done;
    destruct Hay as [-> | (? & ? & _ & ?)]; try done;
    destruct Hbx as [-> | (? & ? & _ & ?)]; try done;
    destruct Hby as [-> | (? & ? & _ & ?)]; try done;
    destruct Hbz as [-> | (? & ? & _ & ?)]; try done;
    by destruct s.
Qed.
End BoundingBoxSpan.

(** ** ParentToEmpty: the placement of the anchor *)

Section Placement.
Context `{FloatFormat}.
Implicit Types (ctx : Context) (r e : ObjRef) (l : list ObjRef).

Lemma type_mesh (o : Object.t) :
  Object.type o = "MESH"%string ↔ ∃ vs, Object.data o = Mesh vs.
Proof.
  unfold Object.type. split.
  - destruct (Object.data o) as [|vs|[]]; try done. by exists vs.
  - by intros [vs ->].
Qed.

Lemma with_translation_translation v m :
  Matrix.translation (with_translation v m) = v.
Proof. by destruct v. Qed.

Lemma set_data_objects_self ctx : set_data_objects (data_objects ctx) ctx = ctx.
Proof. by destruct ctx. Qed.

Lemma translations_cons ctx r l o :
  data_objects ctx !! r = Some o →
  translations ctx (r :: l)
  = Matrix.translation (Object.matrix_world o) :: translations ctx l.
Proof.
  intros Ho. unfold translations, translation_of. simpl. by rewrite Ho.
Qed.

Lemma translations_length ctx l :
  (∀ r, r ∈ l → r ∈ dom (data_objects ctx)) →
  length (translations ctx l) = length l.
Proof.
  induction l as [|r l IH]; intros Hdom; [done |].
  destruct (data_objects ctx !! r) as [o|] eqn:Ho; cycle 1.
  { apply not_elem_of_dom in Ho. destruct Ho. apply Hdom. by left. }
  erewrite translations_cons by done. simpl. rewrite IH; [done |].
  intros r' Hr'. apply Hdom. by right.
Qed.

Lemma omap_ext_in {A B} (f g : A → option B) (l : list A) :
  (∀ a, a ∈ l → f a = g a) → omap f l = omap g l.
Proof.
  induction l as [|a l IH]; intros Hfg; [done |]. csimpl.
  rewrite (Hfg a) by (by left). rewrite IH; [done |].
  intros a' Ha'. apply Hfg. by right.
Qed.

Lemma translations_ext ctx ctx' l :
  (∀ r, r ∈ l → data_objects ctx' !! r = data_objects ctx !! r) →
  translations ctx' l = translations ctx l.
Proof.
  intros Hsame. apply omap_ext_in. intros r Hr. unfold translation_of.
  by rewrite Hsame.
Qed.

Lemma sum_run ctx l acc :
  (∀ r, r ∈ l → r ∈ dom (data_objects ctx)) →
  for_fold (λ acc obj,
      o ← get_object obj;
      mret (Vector.add acc (Matrix.translation (Object.matrix_world o))))
    acc l ctx
  = Ok (foldl Vector.add acc (translations ctx l), ctx).
Proof.
  revert acc. induction l as [|r l IH]; intros acc Hdom; [done |].
  destruct (data_objects ctx !! r) as [o|] eqn:Ho; cycle 1.
  { apply not_elem_of_dom in Ho. destruct Ho. apply Hdom. by left. }
  rewrite for_fold_cons. erewrite bind_run; cycle 1.
  { erewrite bind_run; [| by apply get_object_run]. apply ret_run. }
  rewrite IH by (intros r' Hr'; apply Hdom; by right).
  by erewrite translations_cons.
Qed.

(** A sum of vectors is three sums of numbers. *)
Lemma foldl_add_components acc (ts : list Vector.t) :
  foldl Vector.add acc ts
  = Vector.mk (foldl fadd (Vector.x acc) (Vector.x <$> ts))
              (foldl fadd (Vector.y acc) (Vector.y <$> ts))
              (foldl fadd (Vector.z acc) (Vector.z <$> ts)).
Proof.
  revert acc. induction ts as [|t ts IH]; intros acc; simpl.
  - by destruct acc.
  - by rewrite IH.
Qed.

Lemma mean_translation_run ctx l :
  l ≠ [] → (∀ r, r ∈ l → r ∈ dom (data_objects ctx)) →
  ParentToEmpty.mean_translation l ctx = Ok (mean_of (translations ctx l), ctx).
Proof.
  intros Hne Hdom. unfold ParentToEmpty.mean_translation.
  erewrite bind_run; [| by apply sum_run].
  unfold lift, Vector.truediv. rewrite decide_False; cycle 1.
  { destruct l; [done | simpl; lia]. }
  rewrite foldl_add_components. unfold mean_of.
  by rewrite translations_length.
Qed.

(** Writing a vector value into the world matrix of [e]. *)
Lemma apply_location_val_run ctx e E v :
  data_objects ctx !! e = Some E →
  apply_location_to_matrix (Val v) e ctx
  = Ok (tt, set_data_objects
              (<[e := Object.set_matrix_world
                        (with_translation v (Object.matrix_world E)) E]>
                 (data_objects ctx)) ctx).
Proof.
  intros HE. unfold apply_location_to_matrix, matrix_world_set_item.
  erewrite bind_run; [| apply ret_run].
  erewrite bind_run; [| by apply update_object_run].
  erewrite bind_run; [| apply ret_run].
  erewrite bind_run; [| apply update_object_run; apply lookup_insert_eq].
  erewrite bind_run; [| apply ret_run].
  erewrite update_object_run; [| apply lookup_insert_eq].
  simpl. by rewrite !insert_insert_eq.
Qed.

(** Writing the live location of [e] back into its own world matrix
    changes nothing, when the location is held relative to the parent
    that [e] has. *)
Lemma apply_location_live_run ctx e E :
  data_objects ctx !! e = Some E →
  Object.local_to E = Object.parent E →
  apply_location_to_matrix (LocationOf e) e ctx = Ok (tt, ctx).
Proof.
  intros HE Hlocal. unfold apply_location_to_matrix, matrix_world_set_item, read.
  erewrite bind_run; [| by erewrite bind_run; [| by apply get_object_run]].
  erewrite bind_run; [| by apply update_object_run].
  erewrite bind_run;
    [| by erewrite bind_run; [| apply get_object_run, lookup_insert_eq]].
  erewrite bind_run; [| apply update_object_run; apply lookup_insert_eq].
  erewrite bind_run;
    [| by erewrite bind_run; [| apply get_object_run, lookup_insert_eq]].
  erewrite update_object_run; [| apply lookup_insert_eq].
  simpl. rewrite !insert_insert_eq. f_equal. f_equal.
  destruct ctx as [m c a b]. unfold set_data_objects. simpl in *. f_equal.
  apply insert_id. rewrite HE. f_equal.
  destruct E as [p [[] [] [] []] ? ? ? ? ? ? ?]. simpl in *. by subst.
Qed.

Lemma mesh_members_from ctx l acc :
  (∀ r, r ∈ l → r ∈ dom (data_objects ctx)) →
  for_fold (λ meshes obj,
      o ← get_object obj;
      if bool_decide (Object.type o = "MESH"%string)
      then mret (meshes ++ [obj]) else mret meshes)
    acc l ctx
  = Ok (acc ++ mesh_subset ctx l, ctx).
Proof.
  revert acc. induction l as [|r l IH]; intros acc Hdom.
  { simpl. by rewrite app_nil_r. }
  destruct (data_objects ctx !! r) as [o|] eqn:Ho; cycle 1.
  { apply not_elem_of_dom in Ho. destruct Ho. apply Hdom. by left. }
  rewrite for_fold_cons. unfold mesh_subset. rewrite filter_cons.
  fold (mesh_subset ctx l).
  destruct (decide (type_of ctx r = Some "MESH"%string)) as [Hty | Hty];
    unfold type_of in Hty; rewrite Ho in Hty; simpl in Hty.
  - erewrite bind_run; cycle 1.
    { erewrite bind_run; [| by apply get_object_run].
      rewrite bool_decide_eq_true_2 by congruence. apply ret_run. }
    rewrite IH by (intros r' Hr'; apply Hdom; by right).
    by rewrite <-app_assoc.
  - erewrite bind_run; cycle 1.
    { erewrite bind_run; [| by apply get_object_run].
      rewrite bool_decide_eq_false_2 by congruence. apply ret_run. }
    rewrite IH by (intros r' Hr'; apply Hdom; by right). done.
Qed.

Lemma mesh_members_run ctx l :
  (∀ r, r ∈ l → r ∈ dom (data_objects ctx)) →
  ParentToEmpty.mesh_members l ctx = Ok (mesh_subset ctx l, ctx).
Proof.
  intros Hdom. unfold ParentToEmpty.mesh_members.
  by rewrite mesh_members_from.
Qed.

Lemma mesh_subset_is_mesh ctx l : Forall (is_mesh ctx) (mesh_subset ctx l).
Proof.
  apply Forall_forall. intros r [Hty _]%list_elem_of_filter.
  unfold type_of in Hty.
  destruct (data_objects ctx !! r) as [o|] eqn:Ho; [| done].
  simpl in Hty. injection Hty as Hty. apply type_mesh in Hty as [vs Hvs].
  by exists o, vs.
Qed.

Lemma mesh_subset_ext ctx ctx' l :
  (∀ r, r ∈ l → data_objects ctx' !! r = data_objects ctx !! r) →
  mesh_subset ctx' l = mesh_subset ctx l.
Proof.
  intros Hsame. unfold mesh_subset, type_of.
  induction l as [|r l IH]; [done |].
  rewrite !filter_cons, Hsame by (by left).
  rewrite IH; [done |]. intros r' Hr'. apply Hsame. by right.
Qed.
End Placement.

(** ** ParentToEmpty: the re-parenting pass *)

Section Reparenting.
Implicit Types (ctx : Context) (r e k : ObjRef) (l : list ObjRef).
Implicit Types (objs : gset ObjRef).

Lemma parent_of_lookup ctx r o :
  data_objects ctx !! r = Some o → parent_of ctx r = Object.parent o.
Proof. intros Ho. unfold parent_of. by rewrite Ho. Qed.

Lemma parent_in_top_level ctx objs r o :
  data_objects ctx !! r = Some o →
  ParentToEmpty.parent_in o objs = negb (is_top_level ctx objs r).
Proof.
  intros Ho. unfold ParentToEmpty.parent_in, is_top_level.
  rewrite (parent_of_lookup _ _ _ Ho).
  destruct (Object.parent o) as [p|]; [| done].
  by rewrite bool_decide_not, negb_involutive.
Qed.

(** One iteration on a member that is not top-level: [continue]. *)
Lemma reparent_skip ctx objs e p r o :
  data_objects ctx !! r = Some o → is_top_level ctx objs r = false →
  ParentToEmpty.reparent objs e p r ctx = Ok (p, ctx).
Proof.
  intros Ho Htop. unfold ParentToEmpty.reparent.
  erewrite bind_run; [| by apply get_object_run].
  by rewrite (parent_in_top_level _ _ _ _ Ho), Htop.
Qed.

(** [obj.parent = par]: what is stored depends on the host's test. *)
Lemma parent_assign_run ctx r par o :
  data_objects ctx !! r = Some o →
  parent_assign r par ctx
  = Ok (tt, set_data_objects
              (<[r := Object.set_parent
                        (if parent_loop_check (size (data_objects ctx)) ctx
                              (Some par) r
                         then None else Some par) o]> (data_objects ctx))
              ctx).
Proof. intros Ho. unfold parent_assign. by apply update_object_run. Qed.

(** A parent that has no parent itself closes no loop. *)
Lemma parent_loop_check_root fuel ctx e r :
  e ≠ r → parent_of ctx e = None →
  parent_loop_check fuel ctx (Some e) r = false.
Proof.
  intros Hne He. destruct fuel; simpl; rewrite decide_False by done;
    [done |]. rewrite He. by destruct fuel.
Qed.

(** The test looks at the parent links only. *)
Lemma parent_loop_check_ext fuel ctx ctx' par r :
  (∀ k, parent_of ctx' k = parent_of ctx k) →
  parent_loop_check fuel ctx' par r = parent_loop_check fuel ctx par r.
Proof.
  intros Hsame. revert par. induction fuel as [|fuel IH]; intros [p|];
    simpl; try done.
  case_decide; [done |]. by rewrite Hsame, IH.
Qed.

(** One iteration on a top-level member, while the anchor has no parent. *)
Lemma reparent_top ctx objs e p r o :
  data_objects ctx !! r = Some o → is_top_level ctx objs r = true →
  e ≠ r → parent_of ctx e = None →
  ParentToEmpty.reparent objs e p r ctx
  = Ok (match p with None => Object.parent o | Some _ => p end,
        set_data_objects (<[r := under_anchor e o]> (data_objects ctx)) ctx).
Proof.
  intros Ho Htop Hne He. unfold ParentToEmpty.reparent.
  erewrite bind_run; [| by apply get_object_run].
  rewrite (parent_in_top_level _ _ _ _ Ho), Htop. simpl.
  erewrite bind_run; [| by apply parent_assign_run].
  rewrite parent_loop_check_root by done.
  erewrite bind_run; [| apply update_object_run, lookup_insert_eq].
  rewrite ret_run. simpl. by rewrite insert_insert_eq.
Qed.

Lemma is_top_level_ext ctx ctx' objs r :
  data_objects ctx' !! r = data_objects ctx !! r →
  is_top_level ctx' objs r = is_top_level ctx objs r.
Proof. intros Hsame. unfold is_top_level, parent_of. by rewrite Hsame. Qed.

Lemma top_level_members_ext ctx ctx' objs l :
  (∀ r, r ∈ l → data_objects ctx' !! r = data_objects ctx !! r) →
  top_level_members ctx' objs l = top_level_members ctx objs l.
Proof.
  intros Hsame. unfold top_level_members.
  induction l as [|r l IH]; [done |].
  rewrite !filter_cons, (is_top_level_ext ctx ctx') by (apply Hsame; by left).
  rewrite IH; [done |]. intros r' Hr'. apply Hsame. by right.
Qed.

Lemma external_parent_ext ctx ctx' objs l :
  (∀ r, r ∈ l → data_objects ctx' !! r = data_objects ctx !! r) →
  external_parent ctx' objs l = external_parent ctx objs l.
Proof.
  intros Hsame. unfold external_parent.
  rewrite (top_level_members_ext ctx ctx') by done. f_equal.
  apply omap_ext_in. intros r [_ Hr]%list_elem_of_filter.
  unfold parent_of. by rewrite Hsame.
Qed.

Lemma external_parent_skip ctx objs r l :
  is_top_level ctx objs r = false →
  external_parent ctx objs (r :: l) = external_parent ctx objs l.
Proof.
  intros Htop. unfold external_parent, top_level_members.
  rewrite filter_cons, decide_False; [done | by rewrite Htop].
Qed.

Lemma external_parent_top ctx objs r l :
  is_top_level ctx objs r = true →
  external_parent ctx objs (r :: l)
  = match parent_of ctx r with
    | Some p => Some p
    | None => external_parent ctx objs l
    end.
Proof.
  intros Htop. unfold external_parent, top_level_members.
  rewrite filter_cons, decide_True by done. csimpl.
  by destruct (parent_of ctx r).
Qed.

(** The parent the loop settles on is not selected. *)
Lemma external_parent_not_selected ctx objs l p :
  external_parent ctx objs l = Some p → p ∉ objs.
Proof.
  unfold external_parent. intros Hhead.
  apply head_Some_elem_of in Hhead.
  apply list_elem_of_omap in Hhead as (r & Hr & Hp).
  apply list_elem_of_filter in Hr as [Htop _].
  unfold is_top_level in Htop. rewrite Hp in Htop.
  by apply bool_decide_eq_true in Htop.
Qed.

Lemma reparent_loop_run objs e l ctx p0 :
  NoDup l → (∀ r, r ∈ l → r ∈ dom (data_objects ctx)) →
  e ∉ l → parent_of ctx e = None →
  ∃ ctx',
    for_fold (ParentToEmpty.reparent objs e) p0 l ctx
    = Ok (match p0 with
          | Some p => Some p
          | None => external_parent ctx objs l
          end, ctx') ∧
    collection_objects ctx' = collection_objects ctx ∧
    active ctx' = active ctx ∧
    bases ctx' = bases ctx ∧
    ∀ k, data_objects ctx' !! k =
         if bool_decide (k ∈ l ∧ is_top_level ctx objs k = true)
         then under_anchor e <$> data_objects ctx !! k
         else data_objects ctx !! k.
Proof.
  intros Hnd. revert ctx p0.
  induction Hnd as [|r l Hr Hnd IH]; intros ctx p0 Hdom He Hroot.
  { exists ctx. split_and!; [by destruct p0 | done | done | done |].
    intros k. rewrite bool_decide_eq_false_2; [done |].
    by intros [?%elem_of_nil _]. }
  apply not_elem_of_cons in He as [Her He].
  destruct (data_objects ctx !! r) as [o|] eqn:Ho; cycle 1.
  { apply not_elem_of_dom in Ho. destruct Ho. apply Hdom. by left. }
  destruct (is_top_level ctx objs r) eqn:Htop.
  - set (ctx1 := set_data_objects
                   (<[r := under_anchor e o]> (data_objects ctx)) ctx).
    assert (Hsame : ∀ k, k ≠ r →
              data_objects ctx1 !! k = data_objects ctx !! k).
    { intros k Hk. simpl. by rewrite lookup_insert_ne. }
    destruct (IH ctx1 (match p0 with
                       | None => Object.parent o
                       | Some _ => p0
                       end))
      as (ctx' & Hrun & Hcoll & Hact & Hbas & Hlook).
    { intros r' Hr'. simpl. rewrite dom_insert_L.
      apply elem_of_union_r, Hdom. by right. }
    { done. }
    { unfold parent_of. by rewrite Hsame. }
    exists ctx'. split_and!; [| done | done | done |].
    + rewrite for_fold_cons. erewrite bind_run; [| by apply reparent_top].
      fold ctx1. rewrite Hrun. f_equal. f_equal.
      rewrite (external_parent_top _ _ _ _ Htop).
      rewrite (parent_of_lookup _ _ _ Ho).
      rewrite (external_parent_ext ctx ctx1); cycle 1.
      { intros k Hk. apply Hsame. by intros ->. }
      destruct p0; [done |]. by destruct (Object.parent o).
    + intros k. rewrite Hlook. destruct (decide (k = r)) as [-> | Hne].
      * rewrite bool_decide_eq_false_2 by (by intros [? _]).
        rewrite bool_decide_eq_true_2 by (split; [by left | done]).
        simpl. by rewrite lookup_insert_eq, Ho.
      * rewrite (is_top_level_ext ctx ctx1) by (by apply Hsame).
        rewrite Hsame by done.
        apply (f_equal (λ b : bool, if b then _ else _)).
        apply bool_decide_ext. rewrite elem_of_cons.
        split; [intros [? ?]; split; [by right | done] |].
        intros [[-> | ?] ?]; [done | by split].
  - destruct (IH ctx p0) as (ctx' & Hrun & Hcoll & Hact & Hbas & Hlook);
      [| done | done |].
    { intros r' Hr'. apply Hdom. by right. }
    exists ctx'. split_and!; [| done | done | done |].
    + rewrite for_fold_cons. erewrite bind_run; [| by eapply reparent_skip].
      rewrite Hrun. by rewrite (external_parent_skip _ _ _ _ Htop).
    + intros k. rewrite Hlook.
      apply (f_equal (λ b : bool, if b then _ else _)).
      apply bool_decide_ext. rewrite elem_of_cons.
      split; [intros [? ?]; split; [by right | done] |].
      intros [[-> | Hk] Hktop]; [congruence | done].
Qed.

(** The anchor's own re-parenting: the link the host stores, and the
    world matrix the anchor had, assigned again. *)
Lemma reparent_anchor_run ctx e E parent :
  data_objects ctx !! e = Some E →
  ParentToEmpty.reparent_anchor e parent ctx
  = Ok (tt, set_data_objects
              (<[e := match parent with
                      | Some p =>
                          Object.set_matrix_world (Object.matrix_world E)
                            (Object.set_parent
                               (if parent_loop_check
                                     (size (data_objects ctx)) ctx (Some p) e
                                then None else Some p) E)
                      | None => E
                      end]> (data_objects ctx)) ctx).
Proof.
  intros HE. destruct parent as [p|]; simpl.
  - erewrite bind_run; [| by apply get_object_run].
    erewrite bind_run; [| by apply parent_assign_run].
    unfold matrix_world_assign.
    erewrite update_object_run; [| apply lookup_insert_eq].
    simpl. by rewrite insert_insert_eq.
  - rewrite ret_run. rewrite insert_id by done.
    by rewrite set_data_objects_self.
Qed.
End Reparenting.

(** ** ParentToEmpty.execute, from end to end *)

Section ExecuteSpec.
Context `{FloatFormat}.
Variables host_order set_order : gset ObjRef → list ObjRef.
Hypothesis host_order_enumerates : enumerates host_order.
Hypothesis set_order_enumerates : enumerates set_order.
Implicit Types (ctx : Context) (r e k : ObjRef) (l : list ObjRef).

Lemma member_in_store ctx r :
  r ∈ set_order (selected ctx) → r ∈ dom (data_objects ctx).
Proof.
  intros Hr. apply selected_dom.
  by apply (elem_of_enumeration set_order _ _ set_order_enumerates).
Qed.

Lemma member_not_fresh ctx r :
  r ∈ set_order (selected ctx) → r ≠ fresh (dom (data_objects ctx)).
Proof. intros Hr%member_in_store ->. by apply is_fresh in Hr. Qed.

Lemma enumeration_nonempty (X : gset ObjRef) : X ≠ ∅ → set_order X ≠ [].
Proof.
  intros HX Hnil. apply HX. apply set_eq. intros r.
  rewrite <-(elem_of_enumeration set_order X r set_order_enumerates), Hnil.
  by rewrite elem_of_nil, elem_of_empty.
Qed.

Lemma enumeration_empty : set_order ∅ = [].
Proof.
  apply Permutation_nil_r. by rewrite (set_order_enumerates ∅), elements_empty.
Qed.

Lemma objects_new_run ctx :
  objects_new ctx
  = Ok (fresh (dom (data_objects ctx)),
        set_data_objects
          (<[fresh (dom (data_objects ctx)) := new_object]> (data_objects ctx))
          ctx).
Proof. done. Qed.

Lemma collection_link_run ctx r :
  collection_link r ctx
  = Ok (tt, mkContext (data_objects ctx) ({[r]} ∪ collection_objects ctx)
                      (active ctx) (<[r := true]> (bases ctx))).
Proof. done. Qed.

Lemma with_anchor_lookup ctx m E :
  data_objects (with_anchor ctx m E) !! fresh (dom (data_objects ctx)) = Some E.
Proof. apply lookup_insert_eq. Qed.

Lemma with_anchor_update ctx m E E' :
  set_data_objects
    (<[fresh (dom (data_objects ctx)) := E']>
       (data_objects (with_anchor ctx m E)))
    (with_anchor ctx m E)
  = with_anchor ctx m E'.
Proof.
  unfold with_anchor, set_data_objects. simpl. by rewrite insert_insert_eq.
Qed.

Lemma with_anchor_member ctx E r :
  r ∈ set_order (selected ctx) →
  data_objects (with_anchor ctx (data_objects ctx) E) !! r
  = data_objects ctx !! r.
Proof.
  intros Hr%member_not_fresh. simpl. by rewrite lookup_insert_ne.
Qed.

Lemma with_anchor_dom ctx E r :
  r ∈ set_order (selected ctx) →
  r ∈ dom (data_objects (with_anchor ctx (data_objects ctx) E)).
Proof.
  intros Hr. simpl. rewrite dom_insert_L.
  by apply elem_of_union_r, member_in_store.
Qed.

(** Lines 106 to 114. *)
Lemma create_anchor_run ctx :
  selected ctx ≠ ∅ →
  ParentToEmpty.create_anchor host_order set_order ctx
  = Ok ((selected ctx, fresh (dom (data_objects ctx))),
        with_anchor ctx (data_objects ctx)
          (Object.set_matrix_world
             (with_translation
                (mean_of (translations ctx (set_order (selected ctx))))
                Matrix.identity)
             new_object)).
Proof.
  intros Hsel. unfold ParentToEmpty.create_anchor.
  erewrite bind_run; [| apply gets_run].
  unfold ParentToEmpty.selected_objects.
  rewrite (list_to_set_enumeration host_order _ host_order_enumerates).
  erewrite bind_run; [| apply objects_new_run].
  erewrite bind_run; [| apply update_object_run, lookup_insert_eq].
  erewrite bind_run; [| apply collection_link_run].
  simpl. rewrite insert_insert_eq.
  change (mkContext _ _ _ _)
    with (with_anchor ctx (data_objects ctx) new_object).
  erewrite bind_run; cycle 1.
  { apply mean_translation_run; [by apply enumeration_nonempty |].
    apply with_anchor_dom. }
  rewrite (translations_ext ctx) by apply with_anchor_member.
  erewrite bind_run; [| apply apply_location_val_run, with_anchor_lookup].
  rewrite ret_run. by rewrite with_anchor_update.
Qed.

Lemma create_anchor_empty ctx :
  selected ctx = ∅ →
  ParentToEmpty.create_anchor host_order set_order ctx
  = Raise ZeroDivisionError.
Proof.
  intros Hsel. unfold ParentToEmpty.create_anchor.
  erewrite bind_run; [| apply gets_run].
  unfold ParentToEmpty.selected_objects.
  rewrite (list_to_set_enumeration host_order _ host_order_enumerates).
  erewrite bind_run; [| apply objects_new_run].
  erewrite bind_run; [| apply update_object_run, lookup_insert_eq].
  erewrite bind_run; [| apply collection_link_run].
  rewrite Hsel, enumeration_empty. done.
Qed.

(** Lines 116 to 130: the anchor moves to the position chosen for it. *)
Lemma choose_location_run self ctx v :
  let e := fresh (dom (data_objects ctx)) in
  let l := set_order (selected ctx) in
  let E := Object.set_matrix_world (with_translation v Matrix.identity)
             new_object in
  (mesh_subset ctx l = [] → v = mean_of (translations ctx l)) →
  ∃ location,
    ParentToEmpty.choose_location set_order self (selected ctx) e
      (with_anchor ctx (data_objects ctx) E)
    = Ok (location, with_anchor ctx (data_objects ctx) E) ∧
    apply_location_to_matrix location e (with_anchor ctx (data_objects ctx) E)
    = Ok (tt, with_anchor ctx (data_objects ctx)
                (Object.set_matrix_world
                   (with_translation
                      (anchor_location (ParentToEmpty.location self) ctx l)
                      Matrix.identity)
                   new_object)).
Proof.
  intros e l E Hv. subst e. unfold ParentToEmpty.choose_location.
  erewrite bind_run; cycle 1.
  { apply mesh_members_run. apply with_anchor_dom. }
  rewrite (mesh_subset_ext ctx) by apply with_anchor_member.
  fold l. unfold anchor_location. fold l.
  destruct (mesh_subset ctx l) as [|r meshes] eqn:Hmeshes.
  - eexists. split; [done |].
    erewrite apply_location_live_run; [| apply with_anchor_lookup | done].
    unfold E. by rewrite Hv.
  - rewrite bool_decide_eq_true_2 by done.
    assert (Hmember : ∀ r', r' ∈ r :: meshes → r' ∈ l).
    { intros r' Hr'. rewrite <-Hmeshes in Hr'.
      by apply list_elem_of_filter in Hr' as [_ ?]. }
    erewrite bind_run; cycle 1.
    { apply get_bounding_box_run, Forall_forall. intros r' Hr'.
      eapply is_mesh_ext; [by apply with_anchor_member, Hmember |].
      pose proof (mesh_subset_is_mesh ctx l) as Hall.
      rewrite Forall_forall in Hall. apply Hall. by rewrite Hmeshes. }
    rewrite (world_vertices_ext ctx); cycle 1.
    { intros r' Hr'. by apply with_anchor_member, Hmember. }
    destruct (box_of (bounds (world_vertices ctx (r :: meshes))))
      as [center size].
    eexists. split; [done |].
    erewrite apply_location_val_run; [| apply with_anchor_lookup].
    by rewrite with_anchor_update.
Qed.

(** Lines 106 to 130. *)
Lemma place_anchor_run self ctx :
  selected ctx ≠ ∅ →
  ParentToEmpty.place_anchor host_order set_order self ctx
  = Ok ((selected ctx, fresh (dom (data_objects ctx))),
        with_anchor ctx (data_objects ctx)
          (Object.set_matrix_world
             (with_translation
                (anchor_location (ParentToEmpty.location self) ctx
                   (set_order (selected ctx)))
                Matrix.identity)
             new_object)).
Proof.
  intros Hsel.
  destruct (choose_location_run self ctx
              (mean_of (translations ctx (set_order (selected ctx)))))
    as (location & Hchoose & Happly); [done |].
  unfold ParentToEmpty.place_anchor.
  erewrite bind_run; [| by apply create_anchor_run].
  cbv beta iota.
  erewrite bind_run; [| apply Hchoose].
  erewrite bind_run; [| apply Happly].
  apply ret_run.
Qed.

Lemma select_all_deselect_run ctx :
  select_all_deselect ctx
  = Ok (tt, set_data_objects
              (Object.set_select false <$> data_objects ctx) ctx).
Proof. done. Qed.

Lemma view_layer_set_active_run ctx r :
  view_layer_set_active r ctx = Ok (tt, set_active (Some r) ctx).
Proof. done. Qed.

Lemma top_level_member_ext ctx m r :
  r ≠ fresh (dom (data_objects ctx)) →
  (r ∈ set_order (selected ctx) ∧
   is_top_level (with_anchor ctx (data_objects ctx) m) (selected ctx) r = true)
  ↔ (r ∈ selected ctx ∧ is_top_level ctx (selected ctx) r = true).
Proof.
  intros Hr.
  rewrite (is_top_level_ext ctx (with_anchor ctx (data_objects ctx) m))
    by (simpl; by rewrite lookup_insert_ne).
  by rewrite elem_of_enumeration.
Qed.

Lemma reparented_lookup ctx m r :
  r ≠ fresh (dom (data_objects ctx)) →
  (Object.set_select false <$>
     (if bool_decide (r ∈ set_order (selected ctx) ∧
                      is_top_level (with_anchor ctx (data_objects ctx) m)
                        (selected ctx) r = true)
      then under_anchor (fresh (dom (data_objects ctx))) <$>
             data_objects ctx !! r
      else data_objects ctx !! r))
  = reparented ctx (selected ctx) (fresh (dom (data_objects ctx))) r <$>
      data_objects ctx !! r.
Proof.
  intros Hr. unfold reparented.
  rewrite (bool_decide_ext _ _ (top_level_member_ext ctx m r Hr)).
  case_bool_decide; by destruct (data_objects ctx !! r).
Qed.

(** Lines 106 to 144 on a non-empty selection. *)
Lemma reparent_selection_run self ctx :
  selected ctx ≠ ∅ →
  ∃ graph,
    ParentToEmpty.reparent_selection host_order set_order self ctx
    = Ok ((fresh (dom (data_objects ctx)),
           external_parent ctx (selected ctx) (set_order (selected ctx))),
          graph) ∧
    data_objects graph !! fresh (dom (data_objects ctx))
    = Some (placed_anchor self ctx (set_order (selected ctx))) ∧
    (∀ k, k ≠ fresh (dom (data_objects ctx)) →
       data_objects graph !! k
       = (if bool_decide (k ∈ selected ctx ∧
                          is_top_level ctx (selected ctx) k = true)
          then under_anchor (fresh (dom (data_objects ctx))) <$>
                 data_objects ctx !! k
          else data_objects ctx !! k)) ∧
    collection_objects graph
    = {[fresh (dom (data_objects ctx))]} ∪ collection_objects ctx ∧
    active graph = active ctx ∧
    bases graph = <[fresh (dom (data_objects ctx)) := true]> (bases ctx) ∧
    size (data_objects graph) = S (size (data_objects ctx)) ∧
    (∀ k, parent_of graph k
          = loop_parent ctx (selected ctx) (fresh (dom (data_objects ctx))) k).
Proof.
  intros Hsel.
  set (l := set_order (selected ctx)).
  set (e := fresh (dom (data_objects ctx))).
  set (E := placed_anchor self ctx l).
  destruct (reparent_loop_run (selected ctx) e l
              (with_anchor ctx (data_objects ctx) E) None)
    as (ctx4 & Hloop & Hcoll4 & Hact4 & Hbas4 & Hlook4).
  { by apply NoDup_enumeration. }
  { apply with_anchor_dom. }
  { intros He. by apply member_not_fresh in He. }
  { unfold parent_of, e. by rewrite with_anchor_lookup. }
  rewrite (external_parent_ext ctx) in Hloop by apply with_anchor_member.
  assert (He4 : data_objects ctx4 !! e = Some E).
  { rewrite Hlook4, bool_decide_eq_false_2; [apply with_anchor_lookup |].
    intros [He _]. by apply member_not_fresh in He. }
  assert (Hk4 : ∀ k, k ≠ e →
            data_objects ctx4 !! k
            = (if bool_decide (k ∈ selected ctx ∧
                               is_top_level ctx (selected ctx) k = true)
               then under_anchor e <$> data_objects ctx !! k
               else data_objects ctx !! k)).
  { intros k Hk. rewrite Hlook4.
    rewrite (bool_decide_ext _ _ (top_level_member_ext ctx E k Hk)).
    simpl. by rewrite lookup_insert_ne. }
  exists ctx4. split_and!; [| done | done | done | done | done | |].
  - unfold ParentToEmpty.reparent_selection.
    erewrite bind_run; [| by apply place_anchor_run].
    cbv beta iota. fold l.
    erewrite bind_run; [| apply update_object_run, with_anchor_lookup].
    rewrite with_anchor_update.
    erewrite bind_run; [| apply update_object_run, with_anchor_lookup].
    rewrite with_anchor_update.
    erewrite bind_run; [| apply update_object_run, with_anchor_lookup].
    rewrite with_anchor_update.
    erewrite bind_run; [| apply Hloop].
    apply ret_run.
  - rewrite <-!size_dom.
    assert (Hdom : dom (data_objects ctx4) = {[e]} ∪ dom (data_objects ctx)).
    { apply set_eq. intros k. rewrite elem_of_union, elem_of_singleton.
      rewrite !elem_of_dom. destruct (decide (k = e)) as [-> | Hk].
      - rewrite He4. split; [by left | by eexists].
      - rewrite (Hk4 k Hk). case_bool_decide;
          destruct (data_objects ctx !! k); simpl;
          rewrite ?is_Some_alt; tauto. }
    rewrite Hdom, size_union, size_singleton; [done |].
    apply disjoint_singleton_l, is_fresh.
  - intros k. unfold loop_parent, parent_of. fold e.
    destruct (decide (k = e)) as [-> | Hk]; [by rewrite He4 |].
    rewrite (Hk4 k Hk). case_bool_decide as Hm; [| done].
    destruct Hm as [Hm _]. apply selected_dom, elem_of_dom in Hm as [o Ho].
    by rewrite Ho.
Qed.

(** The whole operator on a non-empty selection.  [graph] is the store
    when the loop over the selection is through, in which the host tests
    the link from the anchor to the parent found for it. *)
Lemma execute_run self ctx :
  selected ctx ≠ ∅ →
  ∃ ctx' graph parent,
    ParentToEmpty.execute host_order set_order self ctx = Ok (FINISHED, ctx') ∧
    data_objects ctx' !! fresh (dom (data_objects ctx))
    = Some (anchor_object self ctx (set_order (selected ctx)) parent) ∧
    (∀ k, k ≠ fresh (dom (data_objects ctx)) →
       data_objects ctx' !! k
       = reparented ctx (selected ctx) (fresh (dom (data_objects ctx))) k <$>
           data_objects ctx !! k) ∧
    collection_objects ctx'
    = {[fresh (dom (data_objects ctx))]} ∪ collection_objects ctx ∧
    active ctx' = Some (fresh (dom (data_objects ctx))) ∧
    bases ctx' = <[fresh (dom (data_objects ctx)) := true]> (bases ctx) ∧
    (∀ k, parent_of graph k
          = loop_parent ctx (selected ctx) (fresh (dom (data_objects ctx))) k) ∧
    parent
    = match external_parent ctx (selected ctx) (set_order (selected ctx)) with
      | Some p =>
          if parent_loop_check (S (size (data_objects ctx))) graph (Some p)
               (fresh (dom (data_objects ctx)))
          then None else Some p
      | None => None
      end.
Proof.
  intros Hsel.
  destruct (reparent_selection_run self ctx Hsel)
    as (ctx4 & Hloop & He4 & Hk4 & Hcoll4 & Hact4 & Hbas4 & Hsize & Hgraph).
  set (l := set_order (selected ctx)) in *.
  set (parent :=
         match external_parent ctx (selected ctx) l with
         | Some p =>
             if parent_loop_check (S (size (data_objects ctx))) ctx4 (Some p)
                  (fresh (dom (data_objects ctx)))
             then None else Some p
         | None => None
         end).
  eexists _, ctx4, parent. split_and!.
  - unfold ParentToEmpty.execute.
    erewrite bind_run; [| apply Hloop].
    cbv beta iota.
    erewrite bind_run; [| by apply reparent_anchor_run].
    erewrite bind_run; [| apply select_all_deselect_run].
    erewrite bind_run; cycle 1.
    { eapply select_set_run.
      - simpl. rewrite lookup_fmap, lookup_insert_eq. done.
      - unfold in_view_layer. simpl. rewrite Hbas4.
        rewrite lookup_insert_eq. by eexists. }
    rewrite decide_True; cycle 1.
    { unfold selectable. simpl. rewrite Hbas4.
      by rewrite lookup_insert_eq. }
    erewrite bind_run; [| apply view_layer_set_active_run].
    apply ret_run.
  - simpl. rewrite lookup_insert_eq. f_equal.
    unfold anchor_object, parent, placed_anchor. fold l. rewrite Hsize.
    by destruct (external_parent ctx (selected ctx) l).
  - intros k Hk. simpl.
    rewrite lookup_insert_ne by done.
    rewrite lookup_fmap, lookup_insert_ne by done.
    rewrite (Hk4 k Hk). unfold reparented.
    case_bool_decide; by destruct (data_objects ctx !! k).
  - simpl. by rewrite Hcoll4.
  - done.
  - simpl. by rewrite Hbas4.
  - done.
  - done.
Qed.

(** On an empty selection the division raises. *)
Lemma execute_empty self ctx :
  selected ctx = ∅ →
  ParentToEmpty.execute host_order set_order self ctx
  = Raise ZeroDivisionError.
Proof.
  intros Hsel. unfold ParentToEmpty.execute,
    ParentToEmpty.reparent_selection, ParentToEmpty.place_anchor.
  erewrite bind_raise; [done |].
  erewrite bind_raise; [done |].
  erewrite bind_raise; [done | by apply create_anchor_empty].
Qed.
End ExecuteSpec.

(** * The claims *)

Section ChainShape.
Implicit Types (ctx : Context) (a b c x : ObjRef).

Lemma descendant_inv ctx x r :
  descendant ctx x r →
  child_of ctx x r ∨ ∃ y, descendant ctx x y ∧ child_of ctx y r.
Proof.
  intros ([|[|k]] & Hpos & Hk)%tc_nsteps; [lia | |].
  - left. by apply nsteps_once_inv.
  - right. apply nsteps_inv_r in Hk as (y & Hk & Hy). exists y.
    split; [| done]. apply tc_nsteps. exists (S k). split; [lia | done].
Qed.

Lemma leaf_no_descendant ctx x c : leaf ctx c → ¬ descendant ctx x c.
Proof. intros Hleaf [Hx | (y & _ & Hy)]%descendant_inv; by eapply Hleaf. Qed.

Lemma root_no_ancestor ctx x a : parent_of ctx x = None → ¬ descendant ctx x a.
Proof.
  intros Hroot Hup. unfold descendant in Hup.
  destruct Hup as [x a Hxa | x y a Hxy _]; unfold child_of in *; congruence.
Qed.

Lemma elements_enumerates : enumerates elements.
Proof. intros X. done. Qed.
End ChainShape.

Section GraphClaims.
Variables host_order set_order : gset ObjRef → list ObjRef.

(** C6.  On an acyclic scene graph the collector of [DeleteRecursive]
    returns exactly the roots and their transitive descendants, as a set,
    so that every node is enumerated once.  On a chain a → b → c the roots
    [a] give {a, b, c}, and so do the roots [a; b], three nodes in all.
    No root gives the empty set.  [DeleteRecursive.execute] always
    finishes, and removes from the store exactly the set collected from
    the selection, leaving every other object as it was, none of them
    with a removed parent. *)
Theorem subtree_collector_exact (ctx : Context) (roots : list ObjRef) :
  enumerates host_order → enumerates set_order → acyclic ctx →
  (∃ objs : gset ObjRef,
      DeleteRecursive.collect roots ctx = Ok (objs, ctx) ∧
      (∀ x, x ∈ objs ↔ x ∈ roots ∨ ∃ r, r ∈ roots ∧ descendant ctx x r) ∧
      NoDup (set_order objs)) ∧
  (∀ a b c,
      child_of ctx b a → child_of ctx c b →
      (∀ x, child_of ctx x a → x = b) → (∀ x, child_of ctx x b → x = c) →
      leaf ctx c →
      DeleteRecursive.collect [a] ctx = Ok ({[a; b; c]}, ctx) ∧
      DeleteRecursive.collect [a; b] ctx = Ok ({[a; b; c]}, ctx) ∧
      size ({[a; b; c]} : gset ObjRef) = 3) ∧
  DeleteRecursive.collect [] ctx = Ok (∅, ctx) ∧
  (∃ (objs : gset ObjRef) ctx',
      DeleteRecursive.collect
        (DeleteRecursive.selected_objects host_order ctx) ctx
      = Ok (objs, ctx) ∧
      DeleteRecursive.execute host_order set_order ctx = Ok (FINISHED, ctx') ∧
      (∀ k, data_objects ctx' !! k =
            if decide (k ∈ objs) then None else data_objects ctx !! k) ∧
      (∀ k p, k ∉ objs → child_of ctx k p → p ∉ objs)).
Proof.
  intros Hhost Hset Hac. split_and!.
  - exists (subtree_set ctx roots). split_and!.
    + apply collect_run.
    + intros x. by apply elem_of_subtree_set.
    + by apply NoDup_enumeration.
  - intros a b c Hba Hcb Ha Hb Hc.
    assert (Hdesc_b : ∀ x, descendant ctx x b ↔ x = c).
    { intros x. split; [| intros ->; by apply tc_once].
      intros [Hx | (y & Hxy & Hy)]%descendant_inv; [by apply Hb |].
      apply Hb in Hy as ->. by apply leaf_no_descendant in Hxy. }
    assert (Hdesc_a : ∀ x, descendant ctx x a ↔ x = b ∨ x = c).
    { intros x. split.
      - intros [Hx | (y & Hxy & Hy)]%descendant_inv; [left; by apply Ha |].
        apply Ha in Hy as ->. right. by apply Hdesc_b.
      - intros [-> | ->]; [by apply tc_once |].
        eapply tc_l; [done | by apply tc_once]. }
    assert (Hab : a ≠ b).
    { intros ->. apply (Hac b). by apply tc_once. }
    assert (Hbc : b ≠ c).
    { intros ->. apply (Hac c). by apply tc_once. }
    assert (Hca : a ≠ c).
    { intros ->. apply (Hac c). apply Hdesc_a. by right. }
    split_and!.
    + rewrite collect_run. do 2 f_equal. apply set_eq. intros x.
      rewrite (elem_of_subtree_set _ _ _ Hac).
      rewrite !elem_of_union, !elem_of_singleton.
      rewrite list_elem_of_singleton. split.
      * intros [-> | (r & ->%list_elem_of_singleton & Hx%Hdesc_a)]; tauto.
      * intros [[-> | ->] | ->]; [by left | right; exists a ..];
          (split; [by apply list_elem_of_singleton | apply Hdesc_a; tauto]).
    + rewrite collect_run. do 2 f_equal. apply set_eq. intros x.
      rewrite (elem_of_subtree_set _ _ _ Hac).
      rewrite !elem_of_union, !elem_of_singleton.
      split.
      * intros [Hx | (r & Hr & Hx)].
        { apply elem_of_cons in Hx as [-> | ->%list_elem_of_singleton]; tauto. }
        apply elem_of_cons in Hr as [-> | ->%list_elem_of_singleton].
        -- apply Hdesc_a in Hx. tauto.
        -- apply Hdesc_b in Hx. tauto.
      * intros [[-> | ->] | ->].
        -- left. by left.
        -- left. right. by left.
        -- right. exists a. split; [by left | apply Hdesc_a; tauto].
    + rewrite !size_union, !size_singleton; [done | ..];
        apply disjoint_singleton_r;
        rewrite ?elem_of_union, !elem_of_singleton;
        intros Heq; intuition congruence.
  - done.
  - destruct (delete_recursive_run host_order set_order Hhost Hset ctx)
      as (ctx' & Hrun & Hlook).
    exists (subtree_set ctx (DeleteRecursive.selected_objects host_order ctx)),
           ctx'.
    split_and!; [apply collect_run | done | done |].
    intros k p Hk Hkp Hp. apply Hk. by eapply subtree_set_closed.
Qed.

(** C8, as the code has it.  [SelectDescendants.execute] on a scene in
    which everything below a selected object is in the view layer: it
    finishes.  Whatever is
    selected afterwards was selected before or is a transitive descendant
    of an object selected before, so that the delta holds descendants
    only, the roots being touched only when they are descendants of other
    roots; on an acyclic scene graph the selection afterwards is the one
    before together with every such descendant that the host lets be
    selected.  No object is deselected, and nothing but selection flags
    changes.  When every selected object is a leaf the state is left
    exactly as it was, in every scene.  When something below a selected
    object is outside the view layer of an acyclic scene, the host's
    [select_set] raises, and the operator with it. *)
Theorem select_descendants_delta (ctx : Context) :
  enumerates host_order →
  ((∀ r, r ∈ selected ctx → leaf ctx r) →
   SelectDescendants.execute host_order ctx = Ok (FINISHED, ctx)) ∧
  (descendants_in_view_layer ctx →
   ∃ ctx',
     SelectDescendants.execute host_order ctx = Ok (FINISHED, ctx') ∧
     (∀ x, x ∈ selected ctx' ∖ selected ctx →
           selectable ctx x ∧ ∃ r, r ∈ selected ctx ∧ descendant ctx x r) ∧
     (acyclic ctx →
      ∀ x, x ∈ selected ctx' ↔
           x ∈ selected ctx ∨
           (selectable ctx x ∧ ∃ r, r ∈ selected ctx ∧ descendant ctx x r)) ∧
     selected ctx ⊆ selected ctx' ∧
     (∀ k, data_objects ctx' !! k = data_objects ctx !! k ∨
           data_objects ctx' !! k
           = Object.set_select true <$> data_objects ctx !! k) ∧
     collection_objects ctx' = collection_objects ctx ∧
     active ctx' = active ctx ∧
     bases ctx' = bases ctx) ∧
  (acyclic ctx → ¬ descendants_in_view_layer ctx →
   SelectDescendants.execute host_order ctx = Raise RuntimeError).
Proof.
  intros Hhost. split; [by apply select_descendants_leaves |].
  split; [| by apply select_descendants_raises].
  intros Hlayer.
  destruct (select_descendants_run host_order Hhost ctx Hlayer)
    as (ctx' & Hrun & Hcoll & Hact & Hbas & Hlook).
  set (roots := SelectDescendants.selected_objects host_order ctx) in *.
  assert (Hroots : ∀ r, r ∈ roots ↔ r ∈ selected ctx).
  { intros r. by apply elem_of_enumeration. }
  assert (Hsound : ∀ x, x ∈ roots ≫= children_recursive ctx →
                        ∃ r, r ∈ selected ctx ∧ descendant ctx x r).
  { intros x (r & Hx & Hr)%list_elem_of_bind. exists r.
    split; [by apply Hroots | by apply children_recursive_sound]. }
  assert (Hkept : ∀ x, x ∈ selected ctx → x ∈ selected ctx').
  { intros x. rewrite !elem_of_selected, Hlook. intros (o & Ho & Hs).
    rewrite Ho. case_decide; simpl; eauto. }
  assert (Hnew : ∀ x, x ∈ selected ctx' → x ∉ selected ctx →
                      x ∈ roots ≫= children_recursive ctx ∧ selectable ctx x).
  { intros x Hx Hnot. apply elem_of_selected in Hx as (o' & Ho' & Hs).
    rewrite Hlook in Ho'. case_decide as Hin; [done |].
    destruct Hnot. apply elem_of_selected. eauto. }
  exists ctx'. split_and!; [done | | | done | | done | done | done].
  - intros x [Hx Hnot]%elem_of_difference.
    destruct (Hnew x Hx Hnot) as [Hin Hs]. split; [done | by apply Hsound].
  - intros Hac x. split.
    + intros Hx. destruct (decide (x ∈ selected ctx)) as [? | Hnot];
        [by left | right].
      destruct (Hnew x Hx Hnot) as [Hin Hs]. split; [done | by apply Hsound].
    + intros [Hx | (Hs & r & Hr & Hx)]; [by apply Hkept |].
      assert (Hdom : x ∈ dom (data_objects ctx)).
      { destruct Hx; by eapply child_of_dom. }
      apply elem_of_dom in Hdom as [o Ho].
      apply elem_of_selected. rewrite Hlook, Ho, decide_True; [simpl; eauto |].
      split; [| done]. apply list_elem_of_bind. exists r.
      split; [by apply elem_of_children_recursive | by apply Hroots].
  - intros k. rewrite Hlook. case_decide; [by right | by left].
Qed.
End GraphClaims.

Lemma subtree_collector_exact_witness :
  acyclic (@chain binary32 true false false) ∧
  ∃ objs : gset ObjRef,
    DeleteRecursive.collect [1%positive] (@chain binary32 true false false)
    = Ok (objs, @chain binary32 true false false) ∧
    (∀ x, x ∈ objs ↔
          x ∈ [1%positive] ∨
          ∃ r, r ∈ [1%positive] ∧
               descendant (@chain binary32 true false false) x r) ∧
    NoDup (elements objs).
Proof.
  assert (Hac : acyclic (@chain binary32 true false false)).
  { apply chains_end_acyclic. unfold chains_end. by_computation. }
  split; [exact Hac |].
  exact (proj1 (subtree_collector_exact elements elements
                  (@chain binary32 true false false) [1%positive]
                  elements_enumerates elements_enumerates Hac)).
Defined.

Lemma select_descendants_delta_witness :
  descendants_in_view_layer (@child_not_selectable binary32) ∧
  ∃ ctx',
    SelectDescendants.execute elements (@child_not_selectable binary32)
    = Ok (FINISHED, ctx') ∧
    selected ctx' = {[1%positive; 2%positive]}.
Proof.
  assert (Hac : acyclic (@child_not_selectable binary32)).
  { apply chains_end_acyclic. unfold chains_end. by_computation. }
  assert (Hlayer : descendants_in_view_layer (@child_not_selectable binary32)).
  { apply (list_descendants_in_view_layer elements elements_enumerates);
      [exact Hac |]. by_computation. }
  split; [exact Hlayer |].
  destruct (proj1 (proj2 (select_descendants_delta elements
              (@child_not_selectable binary32) elements_enumerates)) Hlayer)
    as (ctx' & Hrun & _).
  exists ctx'. split; [exact Hrun |].
  apply (bool_decide_unpack _). revert Hrun. vm_compute.
  intros [= <-]. exact I.
Defined.

(** ** Meshes through their type *)

Lemma is_mesh_type ctx r :
  is_mesh ctx r ↔ type_of ctx r = Some "MESH"%string.
Proof.
  unfold is_mesh, type_of. split.
  - intros (o & vs & -> & Hvs). simpl. f_equal. apply type_mesh. eauto.
  - destruct (data_objects ctx !! r) as [o|]; [| done]. simpl.
    intros [= [vs Hvs]%type_mesh]. eauto.
Qed.

Lemma is_vertexless_mesh_data ctx r :
  is_vertexless_mesh ctx r ↔
  Object.data <$> data_objects ctx !! r = Some (Mesh []).
Proof.
  unfold is_vertexless_mesh. split.
  - by intros (o & -> & <-).
  - destruct (data_objects ctx !! r) as [o|]; [| done]. simpl.
    intros [= Hdata]. eauto.
Qed.

(** ** The bounding-box reducer *)

Section BoundingBoxClaims.
Context {fmt : FloatFormat}.

Lemma world_vertices_vertexless ctx objs :
  Forall (is_vertexless_mesh ctx) objs → world_vertices ctx objs = [].
Proof.
  unfold world_vertices.
  induction 1 as [|r objs (o & Ho & Hdata) _ IH]; [done |].
  by rewrite bind_cons, Ho, Hdata, IH.
Qed.

Lemma vertexless_is_mesh ctx r : is_vertexless_mesh ctx r → is_mesh ctx r.
Proof. intros (o & Ho & Hdata). by exists o, []. Qed.

(** C2.  On mesh nodes the reducer returns a center and an extent without
    touching the scene.  Axis by axis, and independently, [min_point] holds
    a least and [max_point] a greatest coordinate of the vertices of all the
    nodes, each vertex moved to world space by the world matrix of its own
    node, with the host's product of a matrix and a vector (the numbers
    are floating-point: a NaN coordinate compares with nothing and is
    passed over, and without any comparable coordinate the seeds remain).
    The center is [(min + max) / 2], which the host computes as the sum
    times one half, and the extent is [max - min].  In binary32 and in
    binary64, world vertices that span (-1,-1,0) to (1,1,2) give center
    (0,0,1) and extent (2,2,2). *)
Theorem bounding_box_reducer (ctx : Context) (objs : list ObjRef) :
  Forall (is_mesh ctx) objs →
  ∃ min_point max_point center extent,
    get_bounding_box objs ctx = Ok ((center, extent), ctx) ∧
    least_of (Vector.x min_point) (Vector.x <$> world_vertices ctx objs) ∧
    least_of (Vector.y min_point) (Vector.y <$> world_vertices ctx objs) ∧
    least_of (Vector.z min_point) (Vector.z <$> world_vertices ctx objs) ∧
    greatest_of (Vector.x max_point) (Vector.x <$> world_vertices ctx objs) ∧
    greatest_of (Vector.y max_point) (Vector.y <$> world_vertices ctx objs) ∧
    greatest_of (Vector.z max_point) (Vector.z <$> world_vertices ctx objs) ∧
    center
    = Vector.mk
        (fmul (fadd (Vector.x min_point) (Vector.x max_point)) (reciprocal 2))
        (fmul (fadd (Vector.y min_point) (Vector.y max_point)) (reciprocal 2))
        (fmul (fadd (Vector.z min_point) (Vector.z max_point)) (reciprocal 2))
    ∧
    extent
    = Vector.mk (fsub (Vector.x max_point) (Vector.x min_point))
                (fsub (Vector.y max_point) (Vector.y min_point))
                (fsub (Vector.z max_point) (Vector.z min_point)) ∧
    (fmt = binary32 ∨ fmt = binary64 →
     spans (of_int (-1)) (of_int 1) (Vector.x <$> world_vertices ctx objs) →
     spans (of_int (-1)) (of_int 1) (Vector.y <$> world_vertices ctx objs) →
     spans (of_int 0) (of_int 2) (Vector.z <$> world_vertices ctx objs) →
     center = vec 0 0 1 ∧ extent = vec 2 2 2).
Proof.
  intros Hmesh.
  destruct (bounds_extrema (world_vertices ctx objs))
    as (Hlx & Hly & Hlz & Hgx & Hgy & Hgz).
  exists (bounds (world_vertices ctx objs)).1,
         (bounds (world_vertices ctx objs)).2,
         (box_of (bounds (world_vertices ctx objs))).1,
         (box_of (bounds (world_vertices ctx objs))).2.
  split_and!; try done.
  - rewrite get_bounding_box_run by done.
    by destruct (box_of (bounds (world_vertices ctx objs))).
  - intros Hfmt Hx Hy Hz.
    by rewrite (box_of_span fmt (world_vertices ctx objs) Hfmt Hx Hy Hz).
Qed.
End BoundingBoxClaims.

Lemma bounding_box_reducer_witness :
  Forall (is_mesh (@two_meshes binary32)) [1%positive; 2%positive] ∧
  @get_bounding_box binary32 [1%positive; 2%positive] (@two_meshes binary32)
  = Ok ((@vec binary32 0 0 1, @vec binary32 2 2 2), @two_meshes binary32).
Proof.
  assert (Hmesh : Forall (is_mesh (@two_meshes binary32))
                    [1%positive; 2%positive]).
  { repeat constructor; apply is_mesh_type; vm_compute; reflexivity. }
  split; [exact Hmesh |].
  destruct (@bounding_box_reducer binary32 (@two_meshes binary32)
              [1%positive; 2%positive] Hmesh)
    as (min_point & max_point & center & extent & Hrun & _ & _ & _ & _ & _ & _
        & _ & _ & Hspan).
  destruct Hspan as [-> ->].
  - by left.
  - unfold spans. by_computation.
  - unfold spans. by_computation.
  - unfold spans. by_computation.
  - exact Hrun.
Defined.

(** ** The anchor of ParentToEmpty *)

Section AnchorClaims.
Context {fmt : FloatFormat}.
Variables host_order set_order : gset ObjRef → list ObjRef.
Implicit Types (ctx : Context) (self : ParentToEmpty.props).

Lemma mesh_subset_selected ctx :
  enumerates set_order →
  mesh_subset ctx (set_order (selected ctx)) ≠ [] → selected ctx ≠ ∅.
Proof.
  intros Hset Hmeshes Hsel. apply Hmeshes.
  by rewrite Hsel, (enumeration_empty set_order Hset).
Qed.

Lemma no_mesh_subset ctx :
  enumerates set_order →
  (∀ r, r ∈ selected ctx → type_of ctx r ≠ Some "MESH"%string) →
  mesh_subset ctx (set_order (selected ctx)) = [].
Proof.
  intros Hset Hnone. apply elem_of_nil_inv. intros r.
  intros [Hty Hr]%list_elem_of_filter.
  apply (Hnone r); [| done].
  by apply (elem_of_enumeration set_order _ _ Hset).
Qed.

Lemma anchor_translation self ctx ctx' parent :
  data_objects ctx' !! fresh (dom (data_objects ctx))
  = Some (anchor_object self ctx (set_order (selected ctx)) parent) →
  translation_of ctx' (fresh (dom (data_objects ctx)))
  = Some (anchor_location (ParentToEmpty.location self) ctx
            (set_order (selected ctx))).
Proof.
  intros He. unfold translation_of. rewrite He. simpl.
  by rewrite with_translation_translation.
Qed.


Lemma two_members (a b : ObjRef) :
  enumerates set_order → a ≠ b →
  set_order {[a; b]} = [a; b] ∨ set_order {[a; b]} = [b; a].
Proof.
  intros Hset Hab. apply Permutation_length_2_inv.
  rewrite (Hset {[a; b]}). symmetry.
  rewrite elements_disj_union
    by (by apply disjoint_singleton_l, not_elem_of_singleton).
  by rewrite !elements_singleton.
Qed.

Lemma placed_translation self ctx :
  translation_of
    (with_anchor ctx (data_objects ctx)
       (Object.set_matrix_world
          (with_translation
             (anchor_location (ParentToEmpty.location self) ctx
                (set_order (selected ctx)))
             Matrix.identity) new_object))
    (fresh (dom (data_objects ctx)))
  = Some (anchor_location (ParentToEmpty.location self) ctx
            (set_order (selected ctx))).
Proof.
  unfold translation_of. rewrite with_anchor_lookup. simpl.
  by rewrite with_translation_translation.
Qed.

(** C3.  With a mesh among the selected nodes, the anchor is placed
    (lines 106 to 130) at the position its [location] property picks from
    the bounding box of the mesh members: ["TOP"] is the center plus half
    the extent along z, ["CENTER"] the center, ["BOTTOM"] the center minus
    half the extent along z, and the operator then runs to its end.  In
    binary32 and in binary64, a box with center (0,0,1) and extent (2,2,2)
    places the anchor at (0,0,2), (0,0,1) and (0,0,0). *)
Theorem anchor_placement_policy self ctx :
  enumerates host_order → enumerates set_order →
  mesh_subset ctx (set_order (selected ctx)) ≠ [] →
  ∃ ctx2 center size,
    get_bounding_box (mesh_subset ctx (set_order (selected ctx))) ctx
    = Ok ((center, size), ctx) ∧
    ParentToEmpty.place_anchor host_order set_order self ctx
    = Ok ((selected ctx, fresh (dom (data_objects ctx))), ctx2) ∧
    translation_of ctx2 (fresh (dom (data_objects ctx)))
    = Some
        match ParentToEmpty.location self with
        | ParentToEmpty.TOP =>
            Vector.add center
              (Vector.mk (of_int 0) (of_int 0) (halved (Vector.z size)))
        | ParentToEmpty.CENTER => center
        | ParentToEmpty.BOTTOM =>
            Vector.sub center
              (Vector.mk (of_int 0) (of_int 0) (halved (Vector.z size)))
        end ∧
    (∃ ctx', ParentToEmpty.execute host_order set_order self ctx
             = Ok (FINISHED, ctx')) ∧
    (fmt = binary32 ∨ fmt = binary64 →
     center = vec 0 0 1 → size = vec 2 2 2 →
     translation_of ctx2 (fresh (dom (data_objects ctx)))
     = Some
         match ParentToEmpty.location self with
         | ParentToEmpty.TOP => vec 0 0 2
         | ParentToEmpty.CENTER => vec 0 0 1
         | ParentToEmpty.BOTTOM => vec 0 0 0
         end).
Proof.
  intros Hhost Hset Hmeshes.
  pose proof (mesh_subset_selected ctx Hset Hmeshes) as Hsel.
  pose proof (placed_translation self ctx) as He.
  set (meshes := mesh_subset ctx (set_order (selected ctx))) in *.
  assert (Hloc : anchor_location (ParentToEmpty.location self) ctx
                   (set_order (selected ctx))
                 = ParentToEmpty.place (ParentToEmpty.location self)
                     (box_of (bounds (world_vertices ctx meshes))).1
                     (box_of (bounds (world_vertices ctx meshes))).2).
  { unfold anchor_location. fold meshes. by destruct meshes. }
  eexists _, (box_of (bounds (world_vertices ctx meshes))).1,
          (box_of (bounds (world_vertices ctx meshes))).2.
  split_and!.
  - rewrite get_bounding_box_run by apply mesh_subset_is_mesh.
    by destruct (box_of (bounds (world_vertices ctx meshes))).
  - by apply place_anchor_run.
  - rewrite He, Hloc. by destruct (ParentToEmpty.location self).
  - destruct (execute_run host_order set_order Hhost Hset self ctx Hsel)
      as (ctx' & _ & _ & Hrun & _).
    by exists ctx'.
  - intros Hfmt Hcenter Hsize. rewrite He, Hloc, Hcenter, Hsize.
    by destruct Hfmt as [-> | ->], (ParentToEmpty.location self).
Qed.

(** C4.  On a non-empty selection the anchor is created, linked, and
    placed provisionally at the mean of the world-space translations of
    all selected nodes, mesh or not: every selected node contributes its
    translation once, the three coordinates are summed from zero in the
    order of iteration, and the sums are divided by the number of selected
    nodes the way the host divides a vector, by a product with the
    reciprocal of that number (in floating-point arithmetic).  In binary32
    and in binary64, two selected nodes at (0,0,0) and (2,0,0) put the
    anchor at (1,0,0), where it also is when the placement is through
    (line 130) and neither of them is a mesh. *)
Theorem provisional_anchor_is_mean self ctx :
  enumerates host_order → enumerates set_order → selected ctx ≠ ∅ →
  ∃ ctx1 (ts : list Vector.t),
    ParentToEmpty.create_anchor host_order set_order ctx
    = Ok ((selected ctx, fresh (dom (data_objects ctx))), ctx1) ∧
    ts = translations ctx (set_order (selected ctx)) ∧
    length ts = size (selected ctx) ∧
    translation_of ctx1 (fresh (dom (data_objects ctx)))
    = Some
        (Vector.mk
           (fmul (foldl fadd (of_int 0) (Vector.x <$> ts))
                 (reciprocal (Z.of_nat (size (selected ctx)))))
           (fmul (foldl fadd (of_int 0) (Vector.y <$> ts))
                 (reciprocal (Z.of_nat (size (selected ctx)))))
           (fmul (foldl fadd (of_int 0) (Vector.z <$> ts))
                 (reciprocal (Z.of_nat (size (selected ctx)))))) ∧
    (fmt = binary32 ∨ fmt = binary64 →
     ∀ a b, a ≠ b → selected ctx = {[a; b]} →
       translation_of ctx a = Some (vec 0 0 0) →
       translation_of ctx b = Some (vec 2 0 0) →
       translation_of ctx1 (fresh (dom (data_objects ctx)))
       = Some (vec 1 0 0) ∧
       (type_of ctx a ≠ Some "MESH"%string →
        type_of ctx b ≠ Some "MESH"%string →
        ∃ ctx2,
          ParentToEmpty.place_anchor host_order set_order self ctx
          = Ok ((selected ctx, fresh (dom (data_objects ctx))), ctx2) ∧
          translation_of ctx2 (fresh (dom (data_objects ctx)))
          = Some (vec 1 0 0))).
Proof.
  intros Hhost Hset Hsel.
  assert (Hlen : length (translations ctx (set_order (selected ctx)))
                 = size (selected ctx)).
  { rewrite translations_length by apply (member_in_store set_order Hset).
    by apply length_enumeration. }
  assert (Hmean : translation_of
                    (with_anchor ctx (data_objects ctx)
                       (Object.set_matrix_world
                          (with_translation
                             (mean_of
                                (translations ctx
                                   (set_order (selected ctx))))
                             Matrix.identity) new_object))
                    (fresh (dom (data_objects ctx)))
                  = Some (mean_of
                            (translations ctx (set_order (selected ctx))))).
  { unfold translation_of. rewrite with_anchor_lookup. simpl.
    by rewrite with_translation_translation. }
  exists (with_anchor ctx (data_objects ctx)
            (Object.set_matrix_world
               (with_translation
                  (mean_of (translations ctx (set_order (selected ctx))))
                  Matrix.identity) new_object)),
         (translations ctx (set_order (selected ctx))).
  split_and!.
  - by apply create_anchor_run.
  - done.
  - done.
  - rewrite Hmean. unfold mean_of. by rewrite Hlen.
  - intros Hfmt a b Hab Hselected Ha Hb. rewrite Hmean.
    assert (Hvalue : mean_of (translations ctx (set_order (selected ctx)))
                     = vec 1 0 0).
    { rewrite Hselected. unfold translations.
      destruct (two_members a b Hset Hab) as [-> | ->]; csimpl;
        rewrite Ha, Hb; by destruct Hfmt as [-> | ->]. }
    split; [by rewrite Hvalue |]. intros Hta Htb.
    eexists. split; [by apply place_anchor_run |].
    rewrite placed_translation. unfold anchor_location.
    rewrite no_mesh_subset; [by rewrite Hvalue | done |].
    intros r. rewrite Hselected, elem_of_union, !elem_of_singleton.
    by intros [-> | ->].
Qed.


(** C10.  A non-empty list of meshes none of which has a vertex makes the
    reducer return a center of NaNs and an extent of negative infinities,
    in every format.  When the mesh members of a selection are of this
    kind, the operator's test on the number of meshes passes all the same,
    and the anchor ends at a position of NaNs under each of the three
    policies. *)
Theorem vertexless_meshes_degenerate self ctx (objs : list ObjRef) :
  enumerates host_order → enumerates set_order →
  objs ≠ [] → Forall (is_vertexless_mesh ctx) objs →
  get_bounding_box objs ctx = Ok ((nan3, neg_inf3), ctx) ∧
  is_finite (Vector.x nan3) = false ∧
  is_finite (Vector.x neg_inf3) = false ∧
  (mesh_subset ctx (set_order (selected ctx)) = objs →
   ∃ ctx',
     ParentToEmpty.execute host_order set_order self ctx
     = Ok (FINISHED, ctx') ∧
     translation_of ctx' (fresh (dom (data_objects ctx))) = Some nan3).
Proof.
  intros Hhost Hset Hobjs Hall.
  split_and!; [| done | done |].
  - rewrite get_bounding_box_run
      by (eapply Forall_impl; [done | apply vertexless_is_mesh]).
    by rewrite world_vertices_vertexless.
  - intros Hmeshes.
    destruct (execute_run host_order set_order Hhost Hset self ctx)
      as (ctx' & graph & parent & Hrun & He & _).
    { apply mesh_subset_selected; [done |]. by rewrite Hmeshes. }
    apply anchor_translation in He. exists ctx'. split; [done |].
    rewrite He. unfold anchor_location. rewrite Hmeshes.
    destruct objs as [|r objs']; [done |].
    rewrite world_vertices_vertexless by done.
    by destruct (ParentToEmpty.location self).
Qed.
End AnchorClaims.

(** ** Re-parenting under the anchor *)

Section ReparentClaims.
Context {fmt : FloatFormat}.
Variables host_order set_order : gset ObjRef → list ObjRef.
Implicit Types (ctx : Context) (self : ParentToEmpty.props).

Lemma head_omap_first {A B} (f : A → option B) (l : list A) (b : B) :
  head (omap f l) = Some b →
  ∃ before a after,
    l = before ++ a :: after ∧ f a = Some b ∧
    Forall (λ a', f a' = None) before.
Proof.
  induction l as [|a l IH]; [done |]. csimpl.
  destruct (f a) as [b'|] eqn:Ha.
  - intros [= ->]. exists [], a, l. by split_and!.
  - intros (before & a' & after & -> & Ha' & Hbefore)%IH.
    exists (a :: before), a', after. split_and!; [done | done |].
    by constructor.
Qed.

Lemma head_omap_None {A B} (f : A → option B) (l : list A) :
  head (omap f l) = None ↔ Forall (λ a, f a = None) l.
Proof.
  induction l as [|a l IH]; [done |]. csimpl.
  destruct (f a) as [b|] eqn:Ha.
  - split; [done |]. intros Hall. apply Forall_cons in Hall as [? _].
    congruence.
  - rewrite IH. split; [by constructor |].
    by intros [_ ?]%Forall_cons.
Qed.

Lemma member_lookup ctx r :
  r ∈ selected ctx →
  r ≠ fresh (dom (data_objects ctx)) ∧ is_Some (data_objects ctx !! r).
Proof.
  intros Hr%selected_dom. split; [| by apply elem_of_dom].
  intros ->. by apply is_fresh in Hr.
Qed.

(** C1.  On a non-empty selection the re-parenting pass (lines 106 to
    144) does not raise, and when it is through every selected node whose
    parent is not selected has the new anchor as its parent and the world
    matrix it had; the matrix was assigned after the link, so that the
    location, rotation and scale that the host derives from it are relative
    to the anchor.  The selected nodes whose parent is selected are as they
    were.  The same holds immediately after the single iteration of the
    loop that re-parents a node [r], while the anchor is another object and
    has no parent yet, as it is all through the loop: the parent link of
    [r] points to the anchor, its world matrix is the captured one, nothing
    else of [r] changes and no other object does.  The links to the anchor
    are still there when the operator ends. *)
Theorem reparenting_keeps_world_transform self ctx :
  enumerates host_order → enumerates set_order → selected ctx ≠ ∅ →
  ∃ graph,
    ParentToEmpty.reparent_selection host_order set_order self ctx
    = Ok ((fresh (dom (data_objects ctx)),
           external_parent ctx (selected ctx) (set_order (selected ctx))),
          graph) ∧
    (∀ r, r ∈ selected ctx → is_top_level ctx (selected ctx) r = true →
       parent_of graph r = Some (fresh (dom (data_objects ctx))) ∧
       is_Some (matrix_world_of ctx r) ∧
       matrix_world_of graph r = matrix_world_of ctx r ∧
       local_to_of graph r = Some (fresh (dom (data_objects ctx)))) ∧
    (∀ r, r ∈ selected ctx → is_top_level ctx (selected ctx) r = false →
       data_objects graph !! r = data_objects ctx !! r) ∧
    (∀ c parent r o,
       data_objects c !! r = Some o →
       ParentToEmpty.parent_in o (selected ctx) = false →
       r ≠ fresh (dom (data_objects ctx)) →
       parent_of c (fresh (dom (data_objects ctx))) = None →
       ∃ c',
         ParentToEmpty.reparent (selected ctx)
           (fresh (dom (data_objects ctx))) parent r c
         = Ok (match parent with
               | None => Object.parent o
               | Some _ => parent
               end, c') ∧
         parent_of c' r = Some (fresh (dom (data_objects ctx))) ∧
         matrix_world_of c' r = Some (Object.matrix_world o) ∧
         local_to_of c' r = Some (fresh (dom (data_objects ctx))) ∧
         data_objects c' !! r
         = Some (under_anchor (fresh (dom (data_objects ctx))) o) ∧
         (∀ k, k ≠ r → data_objects c' !! k = data_objects c !! k)) ∧
    (∃ ctx',
       ParentToEmpty.execute host_order set_order self ctx
       = Ok (FINISHED, ctx') ∧
       ∀ r, r ∈ selected ctx → is_top_level ctx (selected ctx) r = true →
            parent_of ctx' r = Some (fresh (dom (data_objects ctx)))).
Proof.
  intros Hhost Hset Hsel.
  destruct (reparent_selection_run host_order set_order Hhost Hset self ctx
              Hsel)
    as (graph & Hrun & _ & Hlook & _).
  exists graph. split_and!; [done | | | |].
  - intros r Hr Htop. destruct (member_lookup ctx r Hr) as [Hne [o Ho]].
    unfold parent_of, matrix_world_of, local_to_of.
    rewrite (Hlook r Hne), Ho, bool_decide_eq_true_2 by done.
    simpl. split_and!; by eauto.
  - intros r Hr Htop. destruct (member_lookup ctx r Hr) as [Hne _].
    rewrite (Hlook r Hne), bool_decide_eq_false_2; [done |].
    intros [_ ?]. congruence.
  - intros c parent r o Ho Hin Hne Hroot.
    assert (Htop : is_top_level c (selected ctx) r = true).
    { rewrite (parent_in_top_level c (selected ctx) r o Ho) in Hin.
      by destruct (is_top_level c (selected ctx) r). }
    eexists. split; [by apply reparent_top |].
    unfold parent_of, matrix_world_of, local_to_of. simpl.
    rewrite lookup_insert_eq. split_and!; try done.
    intros k Hk. by rewrite lookup_insert_ne.
  - destruct (execute_run host_order set_order Hhost Hset self ctx Hsel)
      as (ctx' & _ & _ & Hexec & _ & Hfinal & _).
    exists ctx'. split; [done |]. intros r Hr Htop.
    destruct (member_lookup ctx r Hr) as [Hne [o Ho]].
    unfold parent_of. rewrite (Hfinal r Hne), Ho. simpl.
    unfold reparented. by rewrite bool_decide_eq_true_2.
Qed.

Lemma elem_of_parents ctx p :
  p ∈ parents ctx ↔ ∃ r, parent_of ctx r = Some p.
Proof.
  unfold parents, parent_of.
  rewrite elem_of_list_to_set, list_elem_of_omap. split.
  - intros (o & Ho & Hp). apply list_elem_of_fmap in Ho as ([r o'] & -> & Hr).
    apply elem_of_map_to_list in Hr. exists r. by rewrite Hr.
  - intros (r & Hr). destruct (data_objects ctx !! r) as [o|] eqn:Ho; [| done].
    exists o. split; [| done]. apply list_elem_of_fmap. exists (r, o).
    split; [done | by apply elem_of_map_to_list].
Qed.

Lemma closed_parent ctx r p :
  closed ctx → parent_of ctx r = Some p → p ∈ dom (data_objects ctx).
Proof. intros Hclosed Hp. apply Hclosed, elem_of_parents. eauto. Qed.

(** In the scene [ctx'] that the operator leaves, an object that is not
    selected keeps its parent link. *)
Lemma unselected_parent_kept ctx ctx' k :
  (∀ k, k ≠ fresh (dom (data_objects ctx)) →
        data_objects ctx' !! k
        = reparented ctx (selected ctx) (fresh (dom (data_objects ctx))) k <$>
            data_objects ctx !! k) →
  k ≠ fresh (dom (data_objects ctx)) → k ∉ selected ctx →
  parent_of ctx' k = parent_of ctx k.
Proof.
  intros Hlook Hk Hnot. unfold parent_of. rewrite Hlook by done.
  destruct (data_objects ctx !! k) as [o|]; [| done]. simpl.
  unfold reparented. rewrite bool_decide_eq_false_2; [done | by intros [? _]].
Qed.

(** So the chain of parents above an object that is neither selected nor
    below a selected object is the chain it had in [ctx]. *)
Lemma unselected_chain_kept ctx ctx' x a :
  closed ctx →
  (∀ k, k ≠ fresh (dom (data_objects ctx)) →
        data_objects ctx' !! k
        = reparented ctx (selected ctx) (fresh (dom (data_objects ctx))) k <$>
            data_objects ctx !! k) →
  x ∈ dom (data_objects ctx) → x ∉ selected ctx →
  (∀ b, descendant ctx x b → b ∉ selected ctx) →
  descendant ctx' x a → descendant ctx x a.
Proof.
  intros Hclosed Hlook Hdom Hx Hanc Hchain. revert Hdom Hx Hanc.
  assert (Hstep : ∀ y z, y ∈ dom (data_objects ctx) → y ∉ selected ctx →
                         child_of ctx' y z → child_of ctx y z).
  { intros y z Hy Hnot. unfold child_of.
    rewrite (unselected_parent_kept ctx ctx' y); [done | done | | done].
    intros ->. by apply is_fresh in Hy. }
  induction Hchain as [x a Hxa | x y a Hxy Hya IH]; intros Hdom Hx Hanc.
  - apply tc_once. by apply Hstep.
  - apply Hstep in Hxy; [| done | done].
    eapply tc_l; [done |]. apply IH.
    + by eapply closed_parent.
    + apply Hanc. by apply tc_once.
    + intros b Hb. apply Hanc. by eapply tc_l.
Qed.

(** C9, as the code has it.  [ParentToEmpty] and [SelectDescendants] have
    a [poll] that holds exactly when something is selected;
    [DeleteRecursive] defines none and stays available in every context.
    [execute] tests nothing itself: under its [poll],
    [ParentToEmpty.execute] finishes, so the division by the size of the
    selection is never a division by zero, and where the [poll] fails that
    division would raise.  On an empty selection the two other operators
    finish and leave the state as it was. *)
Theorem poll_guards_selection self ctx :
  enumerates host_order → enumerates set_order →
  (ParentToEmpty.poll host_order ctx = true ↔ selected ctx ≠ ∅) ∧
  (SelectDescendants.poll host_order ctx = true ↔ selected ctx ≠ ∅) ∧
  DeleteRecursive.poll ctx = true ∧
  (ParentToEmpty.poll host_order ctx = true →
   ∃ ctx', ParentToEmpty.execute host_order set_order self ctx
           = Ok (FINISHED, ctx')) ∧
  (ParentToEmpty.poll host_order ctx = false →
   ParentToEmpty.execute host_order set_order self ctx
   = Raise ZeroDivisionError) ∧
  (selected ctx = ∅ →
   SelectDescendants.execute host_order ctx = Ok (FINISHED, ctx) ∧
   DeleteRecursive.execute host_order set_order ctx = Ok (FINISHED, ctx)).
Proof.
  intros Hhost Hset.
  assert (Hpoll : bool_decide (length (host_order (selected ctx)) ≠ 0) = true
                  ↔ selected ctx ≠ ∅).
  { rewrite bool_decide_eq_true, (length_enumeration host_order _ Hhost).
    by rewrite size_non_empty_iff, (leibniz_equiv_iff (selected ctx) ∅). }
  split_and!; [done | done | done | | |].
  - intros Hyes%Hpoll.
    destruct (execute_run host_order set_order Hhost Hset self ctx Hyes)
      as (ctx' & _ & _ & Hrun & _).
    by exists ctx'.
  - intros Hno. apply execute_empty; [done | done |].
    destruct (decide (selected ctx = ∅)) as [| Hne]; [done |].
    apply Hpoll in Hne. unfold ParentToEmpty.poll in Hno.
    unfold ParentToEmpty.selected_objects in Hno. congruence.
  - intros Hsel. split.
    + apply select_descendants_leaves; [done |]. intros r.
      rewrite Hsel. by intros ?%elem_of_empty.
    + unfold DeleteRecursive.execute.
      erewrite bind_run; [| apply gets_run].
      unfold DeleteRecursive.selected_objects.
      rewrite Hsel, (enumeration_empty host_order Hhost).
      erewrite bind_run; [| done].
      by rewrite (enumeration_empty set_order Hset).
Qed.
End ReparentClaims.

(** * The claims on the example scenes *)

(** The spec's example for C1: a node at (5,0,0), put under an anchor that
    was placed at (0,0,0), still reports (5,0,0) immediately after. *)
Lemma reparenting_keeps_world_transform_witness :
  selected (@pair_under_parent binary32) ≠ ∅ ∧
  ∃ graph,
    @ParentToEmpty.reparent_selection binary32 elements elements
      ParentToEmpty.default (@pair_under_parent binary32)
    = Ok ((4%positive, Some 3%positive), graph) ∧
    parent_of graph 1%positive = Some 4%positive ∧
    matrix_world_of graph 1%positive = Some (@at_position binary32 5 0 0) ∧
    local_to_of graph 1%positive = Some 4%positive ∧
    translation_of graph 4%positive = Some (@vec binary32 0 0 0).
Proof.
  assert (Hsel : selected (@pair_under_parent binary32) ≠ ∅)
    by by_computation.
  split; [exact Hsel |].
  destruct (@reparenting_keeps_world_transform binary32 elements elements
              ParentToEmpty.default (@pair_under_parent binary32)
              elements_enumerates elements_enumerates Hsel)
    as (graph & Hrun & Htop & _).
  exists graph. split; [exact Hrun |].
  destruct (Htop 1%positive) as (Hparent & _ & Hmatrix & Hlocal).
  - by_computation.
  - vm_compute. reflexivity.
  - split; [exact Hparent |]. split; [exact Hmatrix |].
    split; [exact Hlocal |].
    vm_compute in Hrun. injection Hrun as <-. vm_compute. reflexivity.
Defined.

Lemma anchor_placement_policy_witness :
  mesh_subset (@two_meshes binary32)
    (elements (selected (@two_meshes binary32))) ≠ [] ∧
  ∃ ctx2,
    @ParentToEmpty.place_anchor binary32 elements elements
      (ParentToEmpty.mk ParentToEmpty.TOP true false true)
      (@two_meshes binary32)
    = Ok ((selected (@two_meshes binary32), 3%positive), ctx2) ∧
    translation_of ctx2 3%positive = Some (@vec binary32 0 0 2).
Proof.
  assert (Hmeshes : mesh_subset (@two_meshes binary32)
                      (elements (selected (@two_meshes binary32))) ≠ [])
    by by_computation.
  split; [exact Hmeshes |].
  destruct (@anchor_placement_policy binary32 elements elements
              (ParentToEmpty.mk ParentToEmpty.TOP true false true)
              (@two_meshes binary32)
              elements_enumerates elements_enumerates Hmeshes)
    as (ctx2 & center & size & Hbox & Hrun & _ & _ & Hexample).
  exists ctx2. split; [exact Hrun |].
  assert (Hvalue : (center, size) = (@vec binary32 0 0 1, @vec binary32 2 2 2)).
  { assert (Hok : Ok ((center, size), @two_meshes binary32)
                  = Ok ((@vec binary32 0 0 1, @vec binary32 2 2 2),
                        @two_meshes binary32)).
    { rewrite <-Hbox. vm_compute. reflexivity. }
    congruence. }
  apply Hexample; [by left | congruence | congruence].
Defined.

Lemma provisional_anchor_is_mean_witness :
  selected (@two_empties binary32) ≠ ∅ ∧
  ∃ ctx1,
    @ParentToEmpty.create_anchor binary32 elements elements
      (@two_empties binary32)
    = Ok ((selected (@two_empties binary32), 3%positive), ctx1) ∧
    translation_of ctx1 3%positive = Some (@vec binary32 1 0 0).
Proof.
  assert (Hsel : selected (@two_empties binary32) ≠ ∅) by by_computation.
  split; [exact Hsel |].
  destruct (@provisional_anchor_is_mean binary32 elements elements
              ParentToEmpty.default (@two_empties binary32)
              elements_enumerates elements_enumerates Hsel)
    as (ctx1 & ts & Hrun & _ & _ & _ & Hexample).
  exists ctx1. split; [exact Hrun |].
  apply (Hexample (or_introl eq_refl) 1%positive 2%positive).
  - done.
  - by_computation.
  - vm_compute. reflexivity.
  - vm_compute. reflexivity.
Defined.


Lemma poll_guards_selection_witness :
  @ParentToEmpty.poll elements (@two_empties binary32) = true ∧
  ∃ ctx',
    @ParentToEmpty.execute binary32 elements elements ParentToEmpty.default
      (@two_empties binary32)
    = Ok (FINISHED, ctx').
Proof.
  destruct (@poll_guards_selection binary32 elements elements
              ParentToEmpty.default (@two_empties binary32)
              elements_enumerates elements_enumerates)
    as (_ & _ & _ & Hrun & _).
  assert (Hpoll : @ParentToEmpty.poll elements (@two_empties binary32) = true).
  { vm_compute. reflexivity. }
  split; [exact Hpoll | exact (Hrun Hpoll)].
Defined.

Lemma vertexless_meshes_degenerate_witness :
  [1%positive] ≠ [] ∧
  Forall (is_vertexless_mesh (@vertexless binary32)) [1%positive] ∧
  @get_bounding_box binary32 [1%positive] (@vertexless binary32)
  = Ok ((nan3, neg_inf3), @vertexless binary32) ∧
  ∃ ctx',
    @ParentToEmpty.execute binary32 elements elements ParentToEmpty.default
      (@vertexless binary32)
    = Ok (FINISHED, ctx') ∧
    translation_of ctx' 2%positive = Some nan3.
Proof.
  assert (Hne : [1%positive] ≠ []) by done.
  assert (Hall : Forall (is_vertexless_mesh (@vertexless binary32))
                   [1%positive]).
  { repeat constructor; apply is_vertexless_mesh_data; vm_compute;
      reflexivity. }
  split; [exact Hne |]. split; [exact Hall |].
  destruct (@vertexless_meshes_degenerate binary32 elements elements
              ParentToEmpty.default (@vertexless binary32) [1%positive]
              elements_enumerates elements_enumerates Hne Hall)
    as (Hbox & _ & _ & Hanchor).
  split; [exact Hbox |]. apply Hanchor. vm_compute. reflexivity.
Defined.

(** C8 as stated fails on a selected object with a child outside the
    view layer: the host refuses to select the child, and the operator
    raises. *)
Lemma select_descendants_counterexample :
  ¬ selects_all_descendants elements (@child_outside_view_layer binary32).
Proof. intros (ctx' & Hrun & _). vm_compute in Hrun. discriminate. Qed.

(** A row of a matrix times a vector is summed in binary64 and rounded
    once: 2^24 + 1 + 1 is 2^24 + 2, where a sum in binary32 would stay at
    2^24. *)
Lemma dot_row_sums_wide :
  @Matrix.dot_row binary32
    (Matrix.mk_row (@of_int binary32 1) (@of_int binary32 1)
       (@of_int binary32 0) (@of_int binary32 1))
    (@vec binary32 16777216 1 0)
  = @of_int binary32 16777218 ∧
  @fadd binary32 (@fadd binary32 (@of_int binary32 16777216)
                    (@of_int binary32 1)) (@of_int binary32 1)
  = @of_int binary32 16777216.
Proof. split; vm_compute; reflexivity. Qed.

(** Dividing a vector is a product with a reciprocal: the mean of 1, 1
    and 3 is not the quotient of 5 by 3. *)
Lemma mean_of_three_empties :
  Vector.x (@mean_of binary32
              (translations (@three_empties binary32)
                 (elements (selected (@three_empties binary32)))))
  ≠ @fdiv binary32 (@of_int binary32 5) (@of_int binary32 3).
Proof. vm_compute. discriminate. Qed.

(** C9 as stated fails for [DeleteRecursive]: it is available on an empty
    selection. *)
Lemma delete_recursive_poll_counterexample :
  ¬ polls_guard_selection
      [DeleteRecursive.poll; ParentToEmpty.poll elements;
       SelectDescendants.poll elements].
Proof.
  intros Hall.
  assert (Hpoll : DeleteRecursive.poll empty_scene = false).
  { apply Hall; [by left | vm_compute; reflexivity]. }
  done.
Qed.

(** * Further properties of the operators *)

(** ** Removing and selecting subtrees *)

Lemma context_eq ctx ctx' :
  (∀ k, data_objects ctx' !! k = data_objects ctx !! k) →
  collection_objects ctx' = collection_objects ctx →
  active ctx' = active ctx → bases ctx' = bases ctx → ctx' = ctx.
Proof.
  destruct ctx, ctx'. simpl. intros Hlook -> -> ->. f_equal.
  by apply map_eq.
Qed.

Lemma not_selected_flag ctx k o :
  data_objects ctx !! k = Some o → k ∉ selected ctx →
  Object.select o = false.
Proof.
  intros Ho Hnot. destruct (Object.select o) eqn:Hs; [| done].
  destruct Hnot. apply elem_of_selected. eauto.
Qed.

Lemma set_select_same (o : Object.t) b :
  Object.select o = b → Object.set_select b o = o.
Proof. intros <-. by destruct o. Qed.

Lemma in_subtree_dom ctx x : in_subtree ctx (selected ctx) x →
  x ∈ dom (data_objects ctx).
Proof.
  intros [Hx | (r & _ & Hx)]; [by apply selected_dom |].
  destruct Hx; by eapply child_of_dom.
Qed.

(** The subtree of a subtree is that subtree. *)
Lemma in_subtree_idemp ctx (X Y : gset ObjRef) x :
  (∀ y, y ∈ Y ↔ in_subtree ctx X y) →
  in_subtree ctx Y x ↔ in_subtree ctx X x.
Proof.
  intros HY. split.
  - intros [Hx | (y & Hy & Hx)]; [by apply HY |].
    apply HY in Hy as [Hy | (r & Hr & Hy)]; right.
    + by exists y.
    + exists r. split; [done |]. by eapply tc_transitive.
  - intros Hx. left. by apply HY.
Qed.

Lemma descendant_mono ctx ctx' x r :
  (∀ c p, child_of ctx c p → child_of ctx' c p) →
  descendant ctx x r → descendant ctx' x r.
Proof.
  intros Hsub Hx. induction Hx as [c p Hcp | c p q Hcp _ IH].
  - by apply tc_once, Hsub.
  - eapply tc_l; [by apply Hsub | done].
Qed.

Lemma same_graph_descendant ctx ctx' x r :
  same_graph ctx ctx' → descendant ctx' x r ↔ descendant ctx x r.
Proof.
  intros [_ Hpar]. unfold descendant.
  split; apply descendant_mono; intros c p; unfold child_of;
    by rewrite Hpar.
Qed.

Lemma same_graph_acyclic ctx ctx' :
  same_graph ctx ctx' → acyclic ctx → acyclic ctx'.
Proof.
  intros Hsame Hac r Hr. apply (Hac r).
  by apply (same_graph_descendant ctx ctx').
Qed.

Section SubtreeOperators.
Variables host_order set_order : gset ObjRef → list ObjRef.
Hypothesis host_order_enumerates : enumerates host_order.
Hypothesis set_order_enumerates : enumerates set_order.
Implicit Types (ctx : Context) (k r x : ObjRef).

Lemma elem_of_subtree_selected ctx x :
  acyclic ctx →
  x ∈ subtree_set ctx (host_order (selected ctx)) ↔
  in_subtree ctx (selected ctx) x.
Proof.
  intros Hac. rewrite elem_of_subtree_set by done. unfold in_subtree.
  rewrite (elem_of_enumeration host_order _ _ host_order_enumerates).
  split; (intros [Hx | (r & Hr & Hx)]; [by left | right; exists r]);
    (split; [| done]);
    by apply (elem_of_enumeration host_order _ _ host_order_enumerates).
Qed.

Lemma subtree_selected_sound ctx x :
  x ∈ subtree_set ctx (host_order (selected ctx)) →
  in_subtree ctx (selected ctx) x.
Proof.
  intros [Hx | (r & Hr & Hx)]%elem_of_subtree_set_1; [left | right; exists r];
    [| split; [| done]];
    by apply (elem_of_enumeration host_order _ _ host_order_enumerates).
Qed.

Lemma selected_in_subtree_set ctx x :
  x ∈ selected ctx → x ∈ subtree_set ctx (host_order (selected ctx)).
Proof.
  intros Hx. unfold subtree_set. apply elem_of_list_to_set, elem_of_app.
  left. by apply (elem_of_enumeration host_order _ _ host_order_enumerates).
Qed.

Lemma elem_of_descendants_selected ctx x :
  acyclic ctx →
  x ∈ host_order (selected ctx) ≫= children_recursive ctx ↔
  ∃ r, r ∈ selected ctx ∧ descendant ctx x r.
Proof.
  intros Hac. rewrite list_elem_of_bind. split.
  - intros (r & Hx & Hr). exists r. split.
    + by apply (elem_of_enumeration host_order _ _ host_order_enumerates).
    + by apply elem_of_children_recursive.
  - intros (r & Hr & Hx). exists r. split.
    + by apply elem_of_children_recursive.
    + by apply (elem_of_enumeration host_order _ _ host_order_enumerates).
Qed.

(** The loop of [objects_remove], with everything it leaves behind. *)
Lemma remove_all_state (l : list ObjRef) ctx :
  NoDup l → (∀ r, r ∈ l → r ∈ dom (data_objects ctx)) →
  ∃ ctx', for_each objects_remove l ctx = Ok (tt, ctx') ∧
    (∀ k, data_objects ctx' !! k =
          if decide (k ∈ l) then None else data_objects ctx !! k) ∧
    (∀ k, k ∈ collection_objects ctx' ↔ k ∈ collection_objects ctx ∧ k ∉ l) ∧
    (∀ a, active ctx' = Some a ↔ active ctx = Some a ∧ a ∉ l) ∧
    (∀ k, bases ctx' !! k = if decide (k ∈ l) then None else bases ctx !! k).
Proof.
  revert ctx. induction l as [|r l IH]; intros ctx Hnd Hdom.
  { exists ctx. split_and!; [done | | | |].
    - intros k. rewrite decide_False; [done |]. apply not_elem_of_nil.
    - intros k. split; [| tauto]. split; [done | apply not_elem_of_nil].
    - intros a. split; [| tauto]. split; [done | apply not_elem_of_nil].
    - intros k. rewrite decide_False; [done |]. apply not_elem_of_nil. }
  apply NoDup_cons in Hnd as [Hr Hnd].
  destruct (data_objects ctx !! r) as [o|] eqn:Ho; cycle 1.
  { apply not_elem_of_dom in Ho. destruct Ho. apply Hdom. by left. }
  set (ctx1 := mkContext (delete r (data_objects ctx))
                 (collection_objects ctx ∖ {[r]})
                 (if bool_decide (active ctx = Some r) then None
                  else active ctx)
                 (delete r (bases ctx))).
  destruct (IH ctx1 Hnd) as (ctx' & Hrun & Hlook & Hcoll & Hact & Hbas).
  { intros r' Hr'. simpl. rewrite dom_delete_L.
    apply elem_of_difference. split; [apply Hdom; by right |].
    apply not_elem_of_singleton. by intros ->. }
  exists ctx'. split_and!.
  - unfold for_each in *. rewrite for_fold_cons. erewrite bind_run; [done |].
    unfold objects_remove. by rewrite Ho.
  - intros k. rewrite Hlook. simpl.
    destruct (decide (k = r)) as [-> | Hne].
    + rewrite lookup_delete_eq.
      rewrite (decide_True _ _ (list_elem_of_here _ _)).
      by case_decide.
    + rewrite lookup_delete_ne by done.
      destruct (decide (k ∈ l)) as [Hin | Hnin].
      * rewrite decide_True; [done | by right].
      * rewrite decide_False; [done |].
        intros [? | ?]%elem_of_cons; done.
  - intros k. rewrite Hcoll. simpl.
    rewrite elem_of_difference, not_elem_of_singleton, not_elem_of_cons.
    tauto.
  - intros a. rewrite Hact. simpl. rewrite not_elem_of_cons.
    case_bool_decide as Heq.
    + split; [by intros [? _] |]. intros [Ha [Hne _]]. congruence.
    + split; [| tauto]. intros [Ha Hnot]. split_and!; [done | | done].
      intros ->. done.
  - intros k. rewrite Hbas. simpl.
    destruct (decide (k = r)) as [-> | Hne].
    + rewrite lookup_delete_eq.
      rewrite (decide_True _ _ (list_elem_of_here _ _)).
      by case_decide.
    + rewrite lookup_delete_ne by done.
      destruct (decide (k ∈ l)) as [Hin | Hnin].
      * rewrite decide_True; [done | by right].
      * rewrite decide_False; [done |].
        intros [? | ?]%elem_of_cons; done.
Qed.

(** [DeleteRecursive.execute] never raises; the scene it leaves is the
    scene without the collected set. *)
Lemma delete_recursive_state ctx :
  ∃ ctx',
    DeleteRecursive.execute host_order set_order ctx = Ok (FINISHED, ctx') ∧
    (∀ k, data_objects ctx' !! k =
          if decide (k ∈ subtree_set ctx (host_order (selected ctx)))
          then None else data_objects ctx !! k) ∧
    (∀ k, k ∈ collection_objects ctx' ↔
          k ∈ collection_objects ctx ∧
          k ∉ subtree_set ctx (host_order (selected ctx))) ∧
    (∀ a, active ctx' = Some a ↔
          active ctx = Some a ∧
          a ∉ subtree_set ctx (host_order (selected ctx))) ∧
    (∀ k, bases ctx' !! k =
          if decide (k ∈ subtree_set ctx (host_order (selected ctx)))
          then None else bases ctx !! k).
Proof.
  set (roots := host_order (selected ctx)).
  destruct (remove_all_state (set_order (subtree_set ctx roots)) ctx)
    as (ctx' & Hrun & Hlook & Hcoll & Hact & Hbas).
  { by apply NoDup_enumeration. }
  { intros r Hr%elem_of_enumeration; [| done].
    eapply subtree_set_dom; [| done]. intros r' Hr'.
    apply selected_dom.
    by apply (elem_of_enumeration host_order _ _ host_order_enumerates). }
  exists ctx'. split_and!.
  - unfold DeleteRecursive.execute.
    erewrite bind_run; [| apply gets_run].
    erewrite bind_run; [| apply collect_run].
    erewrite bind_run; [| apply Hrun]. done.
  - intros k. rewrite Hlook.
    destruct (decide (k ∈ subtree_set ctx roots)) as [Hin | Hnin].
    + rewrite decide_True; [done |]. by rewrite elem_of_enumeration.
    + rewrite decide_False; [done |]. by rewrite elem_of_enumeration.
  - intros k. rewrite Hcoll. by rewrite elem_of_enumeration.
  - intros a. rewrite Hact. by rewrite elem_of_enumeration.
  - intros k. rewrite Hbas.
    destruct (decide (k ∈ subtree_set ctx roots)) as [Hin | Hnin].
    + rewrite decide_True; [done |]. by rewrite elem_of_enumeration.
    + rewrite decide_False; [done |]. by rewrite elem_of_enumeration.
Qed.

Lemma delete_recursive_nothing_selected ctx :
  selected ctx = ∅ →
  DeleteRecursive.execute host_order set_order ctx = Ok (FINISHED, ctx).
Proof.
  intros Hsel. unfold DeleteRecursive.execute.
  erewrite bind_run; [| apply gets_run].
  unfold DeleteRecursive.selected_objects. rewrite Hsel.
  rewrite (enumeration_empty host_order host_order_enumerates).
  erewrite bind_run; [| apply collect_run].
  unfold subtree_set. simpl.
  rewrite (enumeration_empty set_order set_order_enumerates). done.
Qed.

(** The state after [SelectDescendants.execute] on an acyclic graph in
    which everything below the selection is in the view layer. *)
Lemma select_descendants_state ctx :
  acyclic ctx → descendants_in_view_layer ctx →
  ∃ ctx',
    SelectDescendants.execute host_order ctx = Ok (FINISHED, ctx') ∧
    collection_objects ctx' = collection_objects ctx ∧
    active ctx' = active ctx ∧
    bases ctx' = bases ctx ∧
    same_graph ctx ctx' ∧
    (∀ k, (∃ r, r ∈ selected ctx ∧ descendant ctx k r) → selectable ctx k →
          data_objects ctx' !! k
          = Object.set_select true <$> data_objects ctx !! k) ∧
    (∀ k, ¬ ((∃ r, r ∈ selected ctx ∧ descendant ctx k r) ∧
             selectable ctx k) →
          data_objects ctx' !! k = data_objects ctx !! k) ∧
    (∀ x, x ∈ selected ctx' ↔
          x ∈ selected ctx ∨
          (selectable ctx x ∧ ∃ r, r ∈ selected ctx ∧ descendant ctx x r)).
Proof.
  intros Hac Hlayer.
  destruct (select_descendants_run host_order host_order_enumerates ctx
              Hlayer)
    as (ctx' & Hrun & Hcoll & Hact & Hbas & Hlook).
  unfold SelectDescendants.selected_objects in Hlook.
  assert (Hbelow : ∀ k, (∃ r, r ∈ selected ctx ∧ descendant ctx k r) →
            selectable ctx k →
            data_objects ctx' !! k
            = Object.set_select true <$> data_objects ctx !! k).
  { intros k Hk Hs. rewrite Hlook, decide_True; [done |].
    split; [| done]. by apply elem_of_descendants_selected. }
  assert (Hother : ∀ k, ¬ ((∃ r, r ∈ selected ctx ∧ descendant ctx k r) ∧
                           selectable ctx k) →
            data_objects ctx' !! k = data_objects ctx !! k).
  { intros k Hk. rewrite Hlook, decide_False; [done |].
    by rewrite elem_of_descendants_selected. }
  exists ctx'. split_and!; [done.. | | done | done |].
  - split.
    + apply set_eq. intros k. rewrite !elem_of_dom, Hlook.
      case_decide; [| done]. by rewrite fmap_is_Some.
    + intros k. unfold parent_of. rewrite Hlook.
      case_decide; [| done]. by destruct (data_objects ctx !! k).
  - intros x. rewrite elem_of_selected.
    destruct (decide (x ∈ host_order (selected ctx) ≫= children_recursive ctx
                      ∧ selectable ctx x)) as [[Hx Hs] | Hx];
      rewrite elem_of_descendants_selected in Hx by done.
    + rewrite (Hbelow x Hx Hs). split; [tauto |]. intros _.
      destruct Hx as (r & Hr & Hx).
      assert (Hdom : x ∈ dom (data_objects ctx)).
      { destruct Hx; by eapply child_of_dom. }
      apply elem_of_dom in Hdom as [o ->]. simpl. eauto.
    + rewrite (Hother x Hx), <-elem_of_selected. tauto.
Qed.
End SubtreeOperators.

Section SubtreeProperties.
Variables host_order set_order : gset ObjRef → list ObjRef.
Implicit Types (ctx : Context) (k r x : ObjRef).

(** X1.  [DeleteRecursive.execute] removes every selected object, so that
    nothing is selected in the scene it leaves, whatever the shape of the
    graph; run again on that scene it finds nothing to remove and leaves
    the scene as it is. *)
Theorem delete_recursive_twice ctx :
  enumerates host_order → enumerates set_order →
  ∃ ctx',
    DeleteRecursive.execute host_order set_order ctx = Ok (FINISHED, ctx') ∧
    (∀ r, r ∈ selected ctx → r ∉ dom (data_objects ctx')) ∧
    selected ctx' = ∅ ∧
    DeleteRecursive.execute host_order set_order ctx' = Ok (FINISHED, ctx').
Proof.
  intros Hhost Hset.
  destruct (delete_recursive_state host_order set_order Hhost Hset ctx)
    as (ctx' & Hrun & Hlook & _).
  assert (Hgone : ∀ r, r ∈ selected ctx → r ∉ dom (data_objects ctx')).
  { intros r Hr. apply not_elem_of_dom. rewrite Hlook, decide_True; [done |].
    by apply selected_in_subtree_set. }
  assert (Hnone : selected ctx' = ∅).
  { apply set_eq. intros r. split; [| by intros ?%elem_of_empty].
    intros Hr. exfalso. pose proof (selected_dom _ _ Hr) as Hdom.
    apply elem_of_selected in Hr as (o & Ho & Hs).
    rewrite Hlook in Ho. case_decide as Hin; [done |].
    apply (Hgone r); [| done]. apply elem_of_selected. eauto. }
  exists ctx'. split_and!; [done.. |].
  by apply delete_recursive_nothing_selected.
Qed.

(** X2.  On a closed and acyclic scene graph, [DeleteRecursive.execute]
    leaves a closed and acyclic scene graph: no parent link of a remaining
    object points to a removed one.  The scene collection loses the removed
    objects and nothing else, and the active object is kept exactly when it
    was not removed. *)
Theorem delete_recursive_keeps_graph ctx :
  enumerates host_order → enumerates set_order →
  acyclic ctx → closed ctx →
  ∃ ctx',
    DeleteRecursive.execute host_order set_order ctx = Ok (FINISHED, ctx') ∧
    closed ctx' ∧ acyclic ctx' ∧
    (∀ c p, child_of ctx' c p →
            child_of ctx c p ∧ p ∈ dom (data_objects ctx')) ∧
    (∀ k, k ∈ collection_objects ctx' ↔
          k ∈ collection_objects ctx ∧ ¬ in_subtree ctx (selected ctx) k) ∧
    (∀ a, active ctx' = Some a ↔
          active ctx = Some a ∧ ¬ in_subtree ctx (selected ctx) a).
Proof.
  intros Hhost Hset Hac Hclosed.
  destruct (delete_recursive_state host_order set_order Hhost Hset ctx)
    as (ctx' & Hrun & Hlook & Hcoll & Hact & _).
  assert (Hlink : ∀ c p, child_of ctx' c p →
            child_of ctx c p ∧ p ∈ dom (data_objects ctx')).
  { intros c p Hcp. unfold child_of, parent_of in *. rewrite Hlook in Hcp.
    case_decide as Hc; [done |]. split; [done |].
    apply elem_of_dom. rewrite Hlook, decide_False.
    - apply elem_of_dom. by eapply closed_parent.
    - intros Hp. apply Hc. by eapply subtree_set_closed. }
  exists ctx'. split_and!; [done | | | done | |].
  - intros p (c & Hcp)%elem_of_parents. by apply (Hlink c p).
  - intros r Hr. apply (Hac r). eapply descendant_mono; [| done].
    intros c p Hcp. by apply Hlink.
  - intros k. rewrite Hcoll. by rewrite elem_of_subtree_selected.
  - intros a. rewrite Hact. by rewrite elem_of_subtree_selected.
Qed.

(** X3.  On an acyclic scene graph in which everything below a selected
    object is in the view layer, selecting the descendants first makes no
    difference to the recursive delete: [SelectDescendants.execute]
    followed by [DeleteRecursive.execute] leaves the scene that
    [DeleteRecursive.execute] alone leaves, also when the host does not
    let some of the descendants be selected. *)
Theorem select_then_delete ctx :
  enumerates host_order → enumerates set_order → acyclic ctx →
  descendants_in_view_layer ctx →
  (SelectDescendants.execute host_order ≫= λ _,
     DeleteRecursive.execute host_order set_order) ctx
  = DeleteRecursive.execute host_order set_order ctx.
Proof.
  intros Hhost Hset Hac Hlayer.
  destruct (select_descendants_state host_order Hhost ctx Hac Hlayer)
    as (ctx1 & Hrun1 & Hcoll1 & Hact1 & Hbas1 & Hsame & Hbelow & Hother
        & Hsel1).
  pose proof (same_graph_acyclic _ _ Hsame Hac) as Hac1.
  destruct (delete_recursive_state host_order set_order Hhost Hset ctx1)
    as (ctx2 & Hrun2 & Hlook2 & Hcoll2 & Hact2 & Hbas2).
  destruct (delete_recursive_state host_order set_order Hhost Hset ctx)
    as (ctx3 & Hrun3 & Hlook3 & Hcoll3 & Hact3 & Hbas3).
  erewrite bind_run; [| apply Hrun1]. rewrite Hrun2, Hrun3.
  assert (Hsub : ∀ x, x ∈ subtree_set ctx1 (host_order (selected ctx1)) ↔
                      x ∈ subtree_set ctx (host_order (selected ctx))).
  { intros x. rewrite !elem_of_subtree_selected by done. unfold in_subtree.
    split.
    - intros [Hx | (r & Hr & Hx)].
      + apply Hsel1 in Hx as [Hx | (_ & Hx)]; [by left | by right].
      + apply (same_graph_descendant ctx ctx1) in Hx; [| done].
        apply Hsel1 in Hr as [Hr | (_ & r' & Hr' & Hr)]; right.
        * by exists r.
        * exists r'. split; [done |]. by eapply tc_transitive.
    - intros [Hx | (r & Hr & Hx)].
      + left. apply Hsel1. by left.
      + right. exists r. split; [apply Hsel1; by left |].
        by apply (same_graph_descendant ctx ctx1). }
  do 2 f_equal. apply context_eq.
  - intros k. rewrite Hlook2, Hlook3.
    destruct (decide (k ∈ subtree_set ctx (host_order (selected ctx))))
      as [Hk | Hk].
    + rewrite decide_True; [done | by apply Hsub].
    + rewrite decide_False by by rewrite Hsub.
      apply Hother. intros [Hbel _]. apply Hk.
      apply elem_of_subtree_selected; [done.. |]. by right.
  - apply set_eq. intros k. rewrite Hcoll2, Hcoll3, Hcoll1, Hsub. done.
  - apply option_eq. intros a. rewrite Hact2, Hact3, Hact1, Hsub. done.
  - apply map_eq. intros k. rewrite Hbas2, Hbas3, Hbas1.
    destruct (decide (k ∈ subtree_set ctx (host_order (selected ctx))))
      as [Hk | Hk].
    + rewrite decide_True; [done | by apply Hsub].
    + rewrite decide_False; [done | by rewrite Hsub].
Qed.

(** X4.  On an acyclic scene graph in which everything below a selected
    object is in the view layer, the selection that
    [SelectDescendants.execute] leaves is closed under the child relation,
    as far as the host lets objects be selected: every child of a selected
    object is selected, unless it cannot be.  A second run therefore
    leaves the scene as the first run left it. *)
Theorem select_descendants_twice ctx :
  enumerates host_order → acyclic ctx → descendants_in_view_layer ctx →
  ∃ ctx',
    SelectDescendants.execute host_order ctx = Ok (FINISHED, ctx') ∧
    (∀ c p, child_of ctx' c p → p ∈ selected ctx' → selectable ctx' c →
            c ∈ selected ctx') ∧
    SelectDescendants.execute host_order ctx' = Ok (FINISHED, ctx').
Proof.
  intros Hhost Hac Hlayer.
  destruct (select_descendants_state host_order Hhost ctx Hac Hlayer)
    as (ctx1 & Hrun1 & Hcoll1 & Hact1 & Hbas1 & Hsame & Hbelow & Hother
        & Hsel1).
  pose proof (same_graph_acyclic _ _ Hsame Hac) as Hac1.
  assert (Hroot : ∀ p, p ∈ selected ctx1 →
            p ∈ selected ctx ∨ ∃ r, r ∈ selected ctx ∧ descendant ctx p r).
  { intros p [Hp | (_ & Hp)]%Hsel1; [by left | by right]. }
  assert (Hdown : ∀ x r, descendant ctx1 x r → r ∈ selected ctx1 →
                         ∃ r', r' ∈ selected ctx ∧ descendant ctx x r').
  { intros x r Hx Hr. apply (same_graph_descendant ctx ctx1) in Hx; [| done].
    destruct (Hroot r Hr) as [Hr' | (r' & Hr' & Hrr')].
    - by exists r.
    - exists r'. split; [done |]. by eapply tc_transitive. }
  assert (Hclosed : ∀ c p, child_of ctx1 c p → p ∈ selected ctx1 →
                           selectable ctx1 c → c ∈ selected ctx1).
  { intros c p Hcp Hp Hs. apply Hsel1. right.
    split; [unfold selectable in *; by rewrite <-Hbas1 |].
    apply (Hdown c p); [by apply tc_once | done]. }
  assert (Hlayer1 : descendants_in_view_layer ctx1).
  { intros x r Hr Hx. destruct (Hdown x r Hx Hr) as (r' & Hr' & Hx').
    unfold in_view_layer. rewrite Hbas1. by eapply Hlayer. }
  exists ctx1. split_and!; [done.. |].
  destruct (select_descendants_state host_order Hhost ctx1 Hac1 Hlayer1)
    as (ctx2 & Hrun2 & Hcoll2 & Hact2 & Hbas2 & _ & Hbelow2 & Hother2 & _).
  rewrite Hrun2. do 2 f_equal. apply context_eq; [| done..].
  intros k.
  destruct (decide (k ∈ host_order (selected ctx1) ≫= children_recursive ctx1
                    ∧ selectable ctx1 k)) as [[Hk Hs] | Hk];
    rewrite (elem_of_descendants_selected host_order Hhost) in Hk by done.
  - rewrite (Hbelow2 k Hk Hs). destruct Hk as (r & Hr & Hk).
    assert (Hin : k ∈ selected ctx1).
    { apply Hsel1. right.
      split; [unfold selectable in *; by rewrite <-Hbas1 |].
      by eapply Hdown. }
    apply elem_of_selected in Hin as (o & -> & Hsel).
    simpl. f_equal. by apply set_select_same.
  - by apply Hother2.
Qed.
End SubtreeProperties.

(** X5.  Neither the order in which the host lists the selection nor the
    order in which Python iterates over the collected set matters to
    [DeleteRecursive.execute]: with any two orders it leaves the same
    scene.  The same holds for [SelectDescendants.execute] where it
    finishes, that is when everything below a selected object is in the
    view layer: with any two orders of the selection it finishes, in the
    same scene. *)
Theorem iteration_order_irrelevant ctx
    (host_order host_order' set_order set_order' : gset ObjRef → list ObjRef) :
  enumerates host_order → enumerates host_order' →
  enumerates set_order → enumerates set_order' →
  DeleteRecursive.execute host_order set_order ctx
  = DeleteRecursive.execute host_order' set_order' ctx ∧
  (descendants_in_view_layer ctx →
   ∃ ctx',
     SelectDescendants.execute host_order ctx = Ok (FINISHED, ctx') ∧
     SelectDescendants.execute host_order' ctx = Ok (FINISHED, ctx')).
Proof.
  intros Hhost Hhost' Hset Hset'.
  assert (Hroots : ∀ r, r ∈ host_order (selected ctx) ↔
                        r ∈ host_order' (selected ctx)).
  { intros r. by rewrite !elem_of_enumeration. }
  split.
  - destruct (delete_recursive_state host_order set_order Hhost Hset ctx)
      as (ctx1 & -> & Hlook1 & Hcoll1 & Hact1 & Hbas1).
    destruct (delete_recursive_state host_order' set_order' Hhost' Hset' ctx)
      as (ctx2 & -> & Hlook2 & Hcoll2 & Hact2 & Hbas2).
    assert (Hsub : ∀ x, x ∈ subtree_set ctx (host_order (selected ctx)) ↔
                        x ∈ subtree_set ctx (host_order' (selected ctx))).
    { intros x. unfold subtree_set.
      rewrite !elem_of_list_to_set, !elem_of_app, !list_elem_of_bind.
      rewrite Hroots. by setoid_rewrite Hroots. }
    do 2 f_equal. apply context_eq.
    + intros k. rewrite Hlook1, Hlook2.
      destruct (decide (k ∈ subtree_set ctx (host_order (selected ctx))))
        as [Hk | Hk].
      * rewrite decide_True; [done | by apply Hsub].
      * rewrite decide_False; [done | by rewrite <-Hsub].
    + apply set_eq. intros k. by rewrite Hcoll1, Hcoll2, Hsub.
    + apply option_eq. intros a. by rewrite Hact1, Hact2, Hsub.
    + apply map_eq. intros k. rewrite Hbas1, Hbas2.
      destruct (decide (k ∈ subtree_set ctx (host_order (selected ctx))))
        as [Hk | Hk].
      * rewrite decide_True; [done | by apply Hsub].
      * rewrite decide_False; [done | by rewrite <-Hsub].
  - intros Hlayer.
    destruct (select_descendants_run host_order Hhost ctx Hlayer)
      as (ctx1 & Hrun1 & Hcoll1 & Hact1 & Hbas1 & Hlook1).
    destruct (select_descendants_run host_order' Hhost' ctx Hlayer)
      as (ctx2 & Hrun2 & Hcoll2 & Hact2 & Hbas2 & Hlook2).
    unfold SelectDescendants.selected_objects in *.
    exists ctx1. split; [done |]. rewrite Hrun2.
    do 2 f_equal. apply context_eq; [| congruence..].
    intros k. rewrite Hlook1, Hlook2.
    assert (Hsame : k ∈ host_order (selected ctx) ≫= children_recursive ctx ↔
                    k ∈ host_order' (selected ctx) ≫= children_recursive ctx).
    { rewrite !list_elem_of_bind. by setoid_rewrite Hroots. }
    repeat case_decide; tauto || done.
Qed.

(** ** The helpers of ParentToEmpty *)

Section HelperProperties.
Context {fmt : FloatFormat}.
Implicit Types (ctx : Context) (k r e : ObjRef).

(** The loop of the reducer stops at the first object without vertices. *)
Lemma bounds_loop_raises ctx objs acc :
  (∀ r, r ∈ objs → r ∈ dom (data_objects ctx)) →
  ¬ Forall (is_mesh ctx) objs →
  for_fold (λ acc obj,
      o ← get_object obj;
      vs ← lift (Object.vertices o);
      mret (foldl (bound_vertex (Object.matrix_world o)) acc vs))
    acc objs ctx
  = Raise AttributeError.
Proof.
  revert acc. induction objs as [|r objs IH]; intros acc Hdom Hnot.
  { destruct Hnot. constructor. }
  assert (Hr : r ∈ dom (data_objects ctx)) by (apply Hdom; by left).
  apply elem_of_dom in Hr as [o Ho].
  rewrite for_fold_cons.
  destruct (Object.data o) as [| vs | kind] eqn:Hdata.
  - apply bind_raise. erewrite bind_run; [| by apply get_object_run].
    unfold Object.vertices. by rewrite Hdata.
  - erewrite bind_run; cycle 1.
    { erewrite bind_run; [| by apply get_object_run].
      unfold Object.vertices. rewrite Hdata. simpl. done. }
    apply IH.
    + intros r' Hr'. apply Hdom. by right.
    + intros Hall. apply Hnot. constructor; [| done]. by exists o, vs.
  - apply bind_raise. erewrite bind_run; [| by apply get_object_run].
    unfold Object.vertices. by rewrite Hdata.
Qed.

Lemma all_meshes_or_not ctx (objs : list ObjRef) :
  Forall (is_mesh ctx) objs ∨ ¬ Forall (is_mesh ctx) objs.
Proof.
  destruct (decide (Forall (λ r, type_of ctx r = Some "MESH"%string) objs))
    as [Hall | Hnot]; [left | right].
  - eapply Forall_impl; [done |]. intros r. apply is_mesh_type.
  - intros Hall. apply Hnot. eapply Forall_impl; [done |].
    intros r. apply is_mesh_type.
Qed.

(** X6.  [get_bounding_box] needs [obj.data.vertices] of every listed
    object: on objects of the scene it raises [AttributeError] exactly when
    one of them is not a mesh, and otherwise returns without touching the
    scene.  The list of mesh-type members that [ParentToEmpty] builds never
    makes it raise.  On the empty list the seeds remain, and the result is
    a center of NaNs with an extent of negative infinities. *)
Theorem bounding_box_raises ctx (objs : list ObjRef) :
  (∀ r, r ∈ objs → r ∈ dom (data_objects ctx)) →
  (get_bounding_box objs ctx = Raise AttributeError ↔
   ¬ Forall (is_mesh ctx) objs) ∧
  (Forall (is_mesh ctx) objs ↔
   ∃ box, get_bounding_box objs ctx = Ok (box, ctx)) ∧
  (∀ l : list ObjRef,
     ∃ box, get_bounding_box (mesh_subset ctx l) ctx = Ok (box, ctx)) ∧
  get_bounding_box [] ctx = Ok ((nan3, neg_inf3), ctx).
Proof.
  intros Hdom.
  assert (Hraise : ¬ Forall (is_mesh ctx) objs →
                   get_bounding_box objs ctx = Raise AttributeError).
  { intros Hnot. unfold get_bounding_box. apply bind_raise.
    by apply bounds_loop_raises. }
  split_and!.
  - split; [| done]. intros Hrun Hall.
    rewrite get_bounding_box_run in Hrun by done. done.
  - split.
    + intros Hall. eexists. by apply get_bounding_box_run.
    + intros [box Hrun].
      destruct (all_meshes_or_not ctx objs) as [? | Hnot]; [done |].
      rewrite Hraise in Hrun by done. done.
  - intros l. eexists. apply get_bounding_box_run, mesh_subset_is_mesh.
  - by rewrite get_bounding_box_run.
Qed.

(** X7.  [apply_location_to_matrix] with a vector writes the three
    entries of the translation column of the object's world matrix and
    nothing else: the translation reads back as the vector, the other
    thirteen entries of the matrix are as before, the object keeps its
    parent, its data, its display settings and its selection flag, and all
    other objects are as before.  The location, rotation and scale that
    the host derives at the write are relative to the parent the object
    has.  A second call overwrites the first. *)
Theorem apply_location_overwrites ctx e (E : Object.t) (v : Vector.t) :
  data_objects ctx !! e = Some E →
  ∃ ctx' E',
    apply_location_to_matrix (Val v) e ctx = Ok (tt, ctx') ∧
    data_objects ctx' !! e = Some E' ∧
    Matrix.translation (Object.matrix_world E') = v ∧
    off_translation (Object.matrix_world E')
    = off_translation (Object.matrix_world E) ∧
    Object.parent E' = Object.parent E ∧
    Object.local_to E' = Object.parent E ∧
    appearance E' = appearance E ∧
    Object.select E' = Object.select E ∧
    (∀ k, k ≠ e → data_objects ctx' !! k = data_objects ctx !! k) ∧
    collection_objects ctx' = collection_objects ctx ∧
    active ctx' = active ctx ∧
    bases ctx' = bases ctx ∧
    (∀ w, apply_location_to_matrix (Val w) e ctx'
          = apply_location_to_matrix (Val w) e ctx).
Proof.
  intros HE. eexists _, _. split; [by apply apply_location_val_run |].
  split; [apply lookup_insert_eq |].
  split_and!; try done.
  - apply with_translation_translation.
  - intros k Hk. simpl. by rewrite lookup_insert_ne.
  - intros w. erewrite !apply_location_val_run;
      [| done | apply lookup_insert_eq].
    simpl. by rewrite insert_insert_eq.
Qed.
End HelperProperties.

(** ** The scene that ParentToEmpty leaves *)

(** A cycle of a functional relation passes through everything that is
    reached from it. *)
Lemma tc_functional_cycle {A} (R : relation A) (x a : A) :
  (∀ u v w, R u v → R u w → v = w) →
  tc R x x → tc R x a → tc R a a.
Proof.
  intros Hfun Hcycle Hreach. induction Hreach as [x a Hxa | x z a Hxz _ IH].
  - inversion Hcycle as [? ? Hstep | ? y ? Hstep Hrest]; subst.
    + by rewrite (Hfun _ _ _ Hxa Hstep) in *.
    + rewrite (Hfun _ _ _ Hxa Hstep). by eapply tc_r.
  - apply IH.
    inversion Hcycle as [? ? Hstep | ? y ? Hstep Hrest]; subst.
    + by rewrite (Hfun _ _ _ Hxz Hstep) in *.
    + rewrite (Hfun _ _ _ Hxz Hstep). by eapply tc_r.
Qed.

Lemma tc_first_step {A} (R : relation A) (x z : A) :
  tc R x z → ∃ y, R x y ∧ (y = z ∨ tc R y z).
Proof.
  intros Hxz. destruct Hxz as [x z Hxz | x y z Hxy Hyz];
    [exists z | exists y]; eauto.
Qed.

Lemma child_of_functional ctx u v w :
  child_of ctx u v → child_of ctx u w → v = w.
Proof. unfold child_of. congruence. Qed.

(** *** The host's test of the link from the anchor to its parent *)

Lemma parent_loop_check_sound fuel (graph : Context) (x a : ObjRef) :
  parent_loop_check fuel graph (Some x) a = true → rtc (child_of graph) x a.
Proof.
  revert x. induction fuel as [|fuel IH]; intros x; simpl;
    case_decide as Hxa; subst; try done.
  destruct (parent_of graph x) as [y|] eqn:Hy; [| by destruct fuel].
  intros Hcheck. eapply rtc_l; [exact Hy | by apply IH].
Qed.

Section LoopCheck.
Variables (ctx graph : Context) (objs : gset ObjRef) (e : ObjRef).
Hypothesis graph_links : ∀ k, parent_of graph k = loop_parent ctx objs e k.
Hypothesis ctx_closed : closed ctx.
Hypothesis anchor_new : e ∉ dom (data_objects ctx).
Hypothesis members_in_store : ∀ r, r ∈ objs → r ∈ dom (data_objects ctx).

(** Walking up from an unselected object one walks in the graph that the
    operator found. *)
Lemma loop_link_old (x y : ObjRef) :
  x ≠ e → x ∉ objs → child_of graph x y → child_of ctx x y ∧ y ≠ e.
Proof.
  intros Hx Hnot. unfold child_of. rewrite graph_links. unfold loop_parent.
  rewrite decide_False by done.
  rewrite bool_decide_eq_false_2 by (by intros [? _]).
  intros Hy. split; [done |]. intros ->.
  apply anchor_new. by eapply closed_parent.
Qed.

(** The walk reaches the anchor only through a selected object. *)
Lemma reaches_anchor_selected (x : ObjRef) :
  rtc (child_of graph) x e → x ≠ e → x ∉ objs →
  ∃ a, a ∈ objs ∧ descendant ctx x a.
Proof.
  revert x. apply (rtc_ind_l (λ x, x ≠ e → x ∉ objs → _)); [done |].
  intros x y Hxy Hyz IH Hx Hnot.
  destruct (loop_link_old x y Hx Hnot Hxy) as [Hold Hy].
  destruct (decide (y ∈ objs)) as [Hin | Hout].
  - exists y. split; [done | by apply tc_once].
  - destruct (IH Hy Hout) as (a & Ha & Hya). exists a.
    split; [done | by eapply tc_l].
Qed.

(** From a selected object, and from below one, the walk reaches the
    anchor, within the number of links above the object. *)
Lemma selected_above_reaches fuel (x : ObjRef) :
  ancestor_at fuel ctx x = None →
  x ∈ objs ∨ (∃ a, a ∈ objs ∧ descendant ctx x a) →
  parent_loop_check fuel graph (Some x) e = true.
Proof.
  revert x. induction fuel as [|fuel IH]; intros x Hend Hx; [done |].
  assert (Hxe : x ≠ e).
  { intros ->. apply anchor_new.
    destruct Hx as [Hx | (a & _ & Hx)]; [by apply members_in_store |].
    destruct Hx; by eapply child_of_dom. }
  simpl. rewrite decide_False by done.
  rewrite graph_links. unfold loop_parent. rewrite decide_False by done.
  case_bool_decide as Htop.
  { destruct fuel; simpl; by rewrite decide_True. }
  assert (Hup : ∃ y, parent_of ctx x = Some y ∧
                     (y ∈ objs ∨ ∃ a, a ∈ objs ∧ descendant ctx y a)).
  { destruct Hx as [Hx | (a & Ha & Hx)].
    - unfold is_top_level in Htop.
      destruct (parent_of ctx x) as [p|]; [| by destruct Htop].
      exists p. split; [done |]. left.
      destruct (decide (p ∈ objs)) as [? | Hp]; [done |].
      destruct Htop. split; [done |]. by apply bool_decide_eq_true.
    - apply tc_first_step in Hx as (y & Hxy & [-> | Hya]).
      + exists a. split; [done | by left].
      + exists y. split; [done |]. right. by exists a. }
  destruct Hup as (y & Hy & Hy'). rewrite Hy.
  simpl in Hend. rewrite Hy in Hend. by apply IH.
Qed.

(** The host refuses the link from the anchor to [p] exactly when a
    selected object is above [p]. *)
Lemma anchor_loop_check (p : ObjRef) :
  acyclic ctx → p ∈ dom (data_objects ctx) → p ∉ objs →
  parent_loop_check (S (size (data_objects ctx))) graph (Some p) e = true ↔
  ∃ a, a ∈ objs ∧ descendant ctx p a.
Proof.
  intros Hac Hp Hnot. split.
  - intros Hreach%parent_loop_check_sound.
    apply reaches_anchor_selected; [done | | done].
    intros ->. by apply anchor_new.
  - intros Habove. apply selected_above_reaches; [| by right].
    pose proof (acyclic_chains_end ctx Hac) as Hends.
    unfold chains_end in Hends. rewrite Forall_forall in Hends.
    by apply Hends, elem_of_elements.
Qed.
End LoopCheck.

Section AfterParentToEmpty.
Variables (ctx ctx' : Context) (e : ObjRef) (l : list ObjRef).
Hypothesis anchor_fresh : e = fresh (dom (data_objects ctx)).
Hypothesis members : ∀ r, r ∈ l ↔ r ∈ selected ctx.
Hypothesis anchor_parent :
  ∀ p, parent_of ctx' e = Some p →
       external_parent ctx (selected ctx) l = Some p.
Hypothesis others :
  ∀ k, k ≠ e →
       data_objects ctx' !! k
       = reparented ctx (selected ctx) e k <$> data_objects ctx !! k.
Implicit Types (k r x y : ObjRef).

Lemma anchor_not_in_store : e ∉ dom (data_objects ctx).
Proof. rewrite anchor_fresh. apply is_fresh. Qed.

Lemma old_not_anchor k : k ∈ dom (data_objects ctx) → k ≠ e.
Proof. intros Hk ->. by apply anchor_not_in_store. Qed.

Lemma top_parent_after r :
  r ∈ selected ctx → is_top_level ctx (selected ctx) r = true →
  parent_of ctx' r = Some e.
Proof.
  intros Hr Htop. pose proof (selected_dom _ _ Hr) as Hdom.
  unfold parent_of. rewrite others by by apply old_not_anchor.
  apply elem_of_dom in Hdom as [o ->]. simpl. unfold reparented.
  by rewrite bool_decide_eq_true_2.
Qed.

Lemma other_parent_after k :
  k ≠ e → ¬ (k ∈ selected ctx ∧ is_top_level ctx (selected ctx) k = true) →
  parent_of ctx' k = parent_of ctx k.
Proof.
  intros Hk Hnot. unfold parent_of. rewrite others by done.
  destruct (data_objects ctx !! k) as [o|]; [| done]. simpl.
  unfold reparented. by rewrite bool_decide_eq_false_2.
Qed.

Lemma nested_parent r :
  r ∈ selected ctx → is_top_level ctx (selected ctx) r = false →
  ∃ p, parent_of ctx r = Some p ∧ p ∈ selected ctx.
Proof.
  intros Hr Htop. unfold is_top_level in Htop.
  destruct (parent_of ctx r) as [p|]; [| done]. exists p. split; [done |].
  apply bool_decide_eq_false in Htop.
  by destruct (decide (p ∈ selected ctx)).
Qed.

Lemma external_parent_member p :
  external_parent ctx (selected ctx) l = Some p →
  (p ∉ selected ctx) ∧
  ∃ r, r ∈ selected ctx ∧ is_top_level ctx (selected ctx) r = true ∧
       parent_of ctx r = Some p.
Proof.
  intros Hp. split; [by eapply external_parent_not_selected |].
  apply head_omap_first in Hp as (before & r & after & Hmem & Hr & _).
  exists r. assert (Hin : r ∈ top_level_members ctx (selected ctx) l).
  { rewrite Hmem. apply elem_of_app. right. by left. }
  apply list_elem_of_filter in Hin as [Htop Hin].
  split_and!; [by apply members | done | done].
Qed.

Lemma external_parent_none :
  external_parent ctx (selected ctx) l = None →
  ∀ r, r ∈ selected ctx → is_top_level ctx (selected ctx) r = true →
       parent_of ctx r = None.
Proof.
  unfold external_parent. rewrite head_omap_None, Forall_forall.
  intros Hall r Hr Htop. apply Hall, list_elem_of_filter.
  split; [done | by apply members].
Qed.

Lemma after_link x z :
  child_of ctx' x z → x = e ∨ z = e ∨ child_of ctx x z.
Proof.
  intros Hxz. destruct (decide (x = e)) as [? | Hx]; [by left | right].
  destruct (decide (x ∈ selected ctx ∧
                    is_top_level ctx (selected ctx) x = true))
    as [[Hsel Htop] | Hnot].
  - left. unfold child_of in Hxz. rewrite top_parent_after in Hxz by done.
    congruence.
  - right. unfold child_of in *. by rewrite <-other_parent_after.
Qed.

Lemma after_chain x y :
  descendant ctx' x y → x = e ∨ descendant ctx' x e ∨ descendant ctx x y.
Proof.
  intros Hxy. induction Hxy as [x y Hxy | x z y Hxz Hzy IH].
  - destruct (after_link x y Hxy) as [? | [-> | ?]]; [by left | right ..].
    + left. by apply tc_once.
    + right. by apply tc_once.
  - destruct (after_link x z Hxz) as [? | [-> | Hold]]; [by left | right ..].
    + left. by apply tc_once.
    + destruct IH as [-> | [Hze | Hzy']].
      * left. by apply tc_once.
      * left. by eapply tc_l.
      * right. by eapply tc_l.
Qed.

Lemma child_of_anchor k :
  closed ctx → child_of ctx' k e →
  k ∈ selected ctx ∧ is_top_level ctx (selected ctx) k = true.
Proof.
  intros Hclosed Hk.
  assert (Hno : ∀ r, ¬ child_of ctx r e).
  { intros r Hr. apply anchor_not_in_store. by eapply closed_parent. }
  destruct (decide (k = e)) as [-> | Hne].
  - apply anchor_parent in Hk.
    apply external_parent_member in Hk as [_ (r & _ & _ & Hr)].
    by destruct (Hno r).
  - destruct (decide (k ∈ selected ctx ∧
                      is_top_level ctx (selected ctx) k = true))
      as [? | Hnot]; [done |].
    unfold child_of in Hk. rewrite other_parent_after in Hk by done.
    by destruct (Hno k).
Qed.

(** The store stays closed. *)
Lemma after_closed :
  closed ctx → dom (data_objects ctx') = {[e]} ∪ dom (data_objects ctx) →
  closed ctx'.
Proof.
  intros Hclosed Hdom p (r & Hr)%elem_of_parents. rewrite Hdom.
  apply elem_of_union. destruct (decide (p = e)) as [-> | Hp].
  { left. by apply elem_of_singleton. }
  right. destruct (after_link r p Hr) as [-> | [? | Hold]]; [| done |].
  - apply anchor_parent in Hr.
    apply external_parent_member in Hr as [_ (r & _ & _ & Hr)].
    by eapply closed_parent.
  - by eapply closed_parent.
Qed.

(** The anchor is not its own ancestor when nothing above its parent is
    selected. *)
Lemma anchor_off_cycle :
  closed ctx →
  (∀ p, parent_of ctx' e = Some p →
        ∀ a, descendant ctx p a → a ∉ selected ctx) →
  ¬ descendant ctx' e e.
Proof.
  intros Hclosed Hclear Hcycle.
  assert (Hno : ∀ x, ¬ descendant ctx x e).
  { intros x [Hx | (y & _ & Hy)]%descendant_inv;
      apply anchor_not_in_store; by eapply closed_parent. }
  assert (Hp : ∃ p, parent_of ctx' e = Some p ∧ descendant ctx' p e).
  { apply tc_first_step in Hcycle as (p & Hstep & [-> | Hrest]).
    - apply anchor_parent in Hstep.
      apply external_parent_member in Hstep as [_ (r & _ & _ & Hr)].
      destruct anchor_not_in_store. by eapply closed_parent.
    - by exists p. }
  destruct Hp as (p & Hp & Hbelow).
  pose proof (external_parent_member p (anchor_parent p Hp))
    as [Hnot (r & _ & _ & Hr)].
  apply (Hno p). rewrite anchor_fresh.
  eapply (unselected_chain_kept ctx ctx'); [done | | | done | | ].
  - rewrite <-anchor_fresh. apply others.
  - by eapply closed_parent.
  - by apply Hclear.
  - by rewrite <-anchor_fresh.
Qed.

(** The graph stays acyclic under the same condition. *)
Lemma after_acyclic :
  closed ctx → acyclic ctx →
  (∀ p, parent_of ctx' e = Some p →
        ∀ a, descendant ctx p a → a ∉ selected ctx) →
  acyclic ctx'.
Proof.
  intros Hclosed Hac Hclear x Hcycle.
  destruct (after_chain x x Hcycle) as [-> | [Hxe | Hold]].
  - by apply anchor_off_cycle.
  - apply anchor_off_cycle; [done.. |].
    eapply (tc_functional_cycle (child_of ctx')); [| done..].
    apply child_of_functional.
  - by apply (Hac x).
Qed.

(** Every selected object ends below the anchor. *)
Lemma selected_under_anchor n r :
  ancestor_at n ctx r = None → r ∈ selected ctx → descendant ctx' r e.
Proof.
  revert r. induction n as [|n IH]; intros r Hend Hr; [done |].
  destruct (is_top_level ctx (selected ctx) r) eqn:Htop.
  - apply tc_once. by apply top_parent_after.
  - destruct (nested_parent r Hr Htop) as (p & Hp & Hsel).
    simpl in Hend. rewrite Hp in Hend. simpl in Hend.
    eapply tc_l; [| by apply IH].
    unfold child_of. rewrite other_parent_after; [done | |].
    + by apply old_not_anchor, selected_dom.
    + intros [_ ?]. congruence.
Qed.

Lemma subtree_under_anchor x :
  acyclic ctx → in_subtree ctx (selected ctx) x → descendant ctx' x e.
Proof.
  intros Hac.
  assert (Hsel : ∀ r, r ∈ selected ctx → descendant ctx' r e).
  { intros r Hr.
    apply (selected_under_anchor (S (size (data_objects ctx)))); [| done].
    pose proof (acyclic_chains_end ctx Hac) as Hends.
    unfold chains_end in Hends. rewrite Forall_forall in Hends.
    by apply Hends, elem_of_elements, selected_dom. }
  intros [Hx | (r & Hr & Hx)]; [by apply Hsel |].
  induction Hx as [x r Hxr | x z r Hxz _ IH].
  - destruct (decide (x ∈ selected ctx)) as [? | Hnot]; [by apply Hsel |].
    eapply tc_l; [| by apply Hsel]. unfold child_of.
    rewrite other_parent_after; [done | | by intros [? _]].
    apply old_not_anchor. by eapply child_of_dom.
  - destruct (decide (x ∈ selected ctx)) as [? | Hnot]; [by apply Hsel |].
    eapply tc_l; [| by apply IH]. unfold child_of.
    rewrite other_parent_after; [done | | by intros [? _]].
    apply old_not_anchor. by eapply child_of_dom.
Qed.

(** Nothing else ends below the anchor. *)
Lemma under_anchor_subtree x :
  closed ctx → x ≠ e → descendant ctx' x e →
  in_subtree ctx (selected ctx) x.
Proof.
  intros Hclosed Hx Hbelow. revert Hx.
  remember e as a eqn:Ha in Hbelow.
  induction Hbelow as [x a Hxa | x z a Hxz Hza IH]; intros Hx; subst a.
  - left. by apply child_of_anchor.
  - destruct (after_link x z Hxz) as [? | [-> | Hold]]; [done | |].
    + left. by apply child_of_anchor.
    + right. destruct IH as [Hz | (r & Hr & Hz)]; [done | | |].
      * apply old_not_anchor. by eapply closed_parent.
      * exists z. split; [done | by apply tc_once].
      * exists r. split; [done | by eapply tc_l].
Qed.
End AfterParentToEmpty.
Section ParentToEmptyScene.
Context {fmt : FloatFormat}.
Variables host_order set_order : gset ObjRef → list ObjRef.
Implicit Types (ctx : Context) (k r x : ObjRef).

(** [ParentToEmpty.execute] on a non-empty selection, with the facts about
    the scene it leaves that the properties below start from. *)
Lemma parent_to_empty_scene self ctx :
  enumerates host_order → enumerates set_order → selected ctx ≠ ∅ →
  ∃ ctx' parent,
    ParentToEmpty.execute host_order set_order self ctx = Ok (FINISHED, ctx') ∧
    data_objects ctx' !! fresh (dom (data_objects ctx))
    = Some (anchor_object self ctx (set_order (selected ctx)) parent) ∧
    (∀ k, k ≠ fresh (dom (data_objects ctx)) →
       data_objects ctx' !! k
       = reparented ctx (selected ctx) (fresh (dom (data_objects ctx))) k <$>
           data_objects ctx !! k) ∧
    collection_objects ctx'
    = {[fresh (dom (data_objects ctx))]} ∪ collection_objects ctx ∧
    active ctx' = Some (fresh (dom (data_objects ctx))) ∧
    bases ctx' = <[fresh (dom (data_objects ctx)) := true]> (bases ctx) ∧
    (∀ r, r ∈ set_order (selected ctx) ↔ r ∈ selected ctx) ∧
    (∀ p, parent_of ctx' (fresh (dom (data_objects ctx))) = Some p →
          external_parent ctx (selected ctx) (set_order (selected ctx))
          = Some p) ∧
    dom (data_objects ctx')
    = {[fresh (dom (data_objects ctx))]} ∪ dom (data_objects ctx) ∧
    selected ctx' = {[fresh (dom (data_objects ctx))]} ∧
    (closed ctx → acyclic ctx →
     ∀ p, external_parent ctx (selected ctx) (set_order (selected ctx))
          = Some p →
          parent_of ctx' (fresh (dom (data_objects ctx))) = Some p ↔
          ∀ a, descendant ctx p a → a ∉ selected ctx).
Proof.
  intros Hhost Hset Hsel.
  destruct (execute_run host_order set_order Hhost Hset self ctx Hsel)
    as (ctx' & graph & parent & Hrun & He & Hlook & Hcoll & Hact & Hbas
        & Hgraph & Hparent).
  assert (Hmem : ∀ r, r ∈ set_order (selected ctx) ↔ r ∈ selected ctx).
  { intros r. by apply elem_of_enumeration. }
  assert (Hpar : parent_of ctx' (fresh (dom (data_objects ctx))) = parent).
  { unfold parent_of. by rewrite He. }
  exists ctx', parent. split_and!; [done.. | | | |].
  - intros p. rewrite Hpar, Hparent.
    destruct (external_parent ctx (selected ctx) (set_order (selected ctx)))
      as [q|]; [| done].
    by case_match.
  - apply set_eq. intros k.
    rewrite elem_of_union, elem_of_singleton, !elem_of_dom.
    destruct (decide (k = fresh (dom (data_objects ctx)))) as [-> | Hk].
    + rewrite He. split; [by left | eauto].
    + rewrite Hlook, fmap_is_Some by done. tauto.
  - apply set_eq. intros k. rewrite elem_of_singleton, elem_of_selected.
    destruct (decide (k = fresh (dom (data_objects ctx)))) as [-> | Hk].
    + rewrite He. split; [done | eauto].
    + rewrite Hlook by done. split; [| done].
      intros (o' & Ho' & Hs).
      destruct (data_objects ctx !! k) as [o|]; [| done].
      simpl in Ho'. injection Ho' as <-. done.
  - intros Hclosed Hac p Hp. rewrite Hpar, Hparent, Hp.
    destruct (external_parent_member ctx _ Hmem p Hp)
      as [Hnot (r & _ & _ & Hr)].
    pose proof (anchor_loop_check ctx graph (selected ctx)
                  (fresh (dom (data_objects ctx))) Hgraph Hclosed
                  (is_fresh _) (selected_dom ctx) p Hac
                  (closed_parent ctx r p Hclosed Hr) Hnot) as Hcheck.
    destruct (parent_loop_check _ graph (Some p) _).
    + split; [done |]. intros Hclear.
      destruct (proj1 Hcheck eq_refl) as (a & Ha & Hpa).
      by destruct (Hclear a Hpa).
    + split; [| done]. intros _ a Hpa Ha.
      assert (Habove : false = true) by (apply Hcheck; eauto). done.
Qed.
End ParentToEmptyScene.

(** ** The parent of the anchor *)

Section AnchorParentClaim.
Context {fmt : FloatFormat}.
Variables host_order set_order : gset ObjRef → list ObjRef.
Implicit Types (ctx : Context) (self : ParentToEmpty.props).

(** C7.  On a non-empty selection the operator finishes.  When the anchor
    ends with a parent, that parent is not selected, hence it is none of
    the nodes the anchor was made the parent of; it is the first parent met
    among the top-level members of the selection, in the order of
    iteration, and every top-level member met before the one that supplied
    it had no parent.  When no top-level member has a parent, the anchor
    has none.  On a closed and acyclic scene graph the graph stays acyclic
    and the anchor is not below any node it was made the parent of: the
    host stores the link to the parent found for the anchor exactly when
    no selected node is above that parent, and leaves the anchor without
    parent otherwise.  The step that re-parents the anchor leaves its
    world matrix as captured, and assigns it after the link: the location,
    rotation and scale that the host derives from it are relative to the
    parent the anchor ends with. *)
Theorem anchor_parent_external self ctx :
  enumerates host_order → enumerates set_order → selected ctx ≠ ∅ →
  ∃ ctx',
    ParentToEmpty.execute host_order set_order self ctx
    = Ok (FINISHED, ctx') ∧
    (∀ p, parent_of ctx' (fresh (dom (data_objects ctx))) = Some p →
       (p ∉ selected ctx) ∧
       (∀ r, r ∈ selected ctx → is_top_level ctx (selected ctx) r = true →
             r ≠ p) ∧
       external_parent ctx (selected ctx) (set_order (selected ctx))
       = Some p ∧
       ∃ before r after,
         top_level_members ctx (selected ctx) (set_order (selected ctx))
         = before ++ r :: after ∧
         parent_of ctx r = Some p ∧
         Forall (λ r', parent_of ctx r' = None) before) ∧
    ((∀ r, r ∈ selected ctx → is_top_level ctx (selected ctx) r = true →
           parent_of ctx r = None) →
     parent_of ctx' (fresh (dom (data_objects ctx))) = None) ∧
    (closed ctx → acyclic ctx →
     acyclic ctx' ∧
     anchor_not_below_children ctx' (fresh (dom (data_objects ctx))) ∧
     ∀ p, external_parent ctx (selected ctx) (set_order (selected ctx))
          = Some p →
       (parent_of ctx' (fresh (dom (data_objects ctx))) = Some p ↔
        ∀ a, descendant ctx p a → a ∉ selected ctx) ∧
       (parent_of ctx' (fresh (dom (data_objects ctx))) = None ↔
        ¬ ∀ a, descendant ctx p a → a ∉ selected ctx)) ∧
    local_to_of ctx' (fresh (dom (data_objects ctx)))
    = parent_of ctx' (fresh (dom (data_objects ctx))) ∧
    (∀ c E parent,
       data_objects c !! fresh (dom (data_objects ctx)) = Some E →
       ∃ c',
         ParentToEmpty.reparent_anchor (fresh (dom (data_objects ctx)))
           parent c
         = Ok (tt, c') ∧
         matrix_world_of c' (fresh (dom (data_objects ctx)))
         = Some (Object.matrix_world E) ∧
         (∀ p, parent = Some p →
            (parent_of c' (fresh (dom (data_objects ctx))) = Some p ∨
             parent_of c' (fresh (dom (data_objects ctx))) = None) ∧
            local_to_of c' (fresh (dom (data_objects ctx)))
            = parent_of c' (fresh (dom (data_objects ctx))))).
Proof.
  intros Hhost Hset Hsel.
  destruct (parent_to_empty_scene host_order set_order self ctx Hhost Hset
              Hsel)
    as (ctx' & parent & Hrun & He & Hlook & _ & _ & _ & Hmem & Hpar & _ & _
        & Hcheck).
  exists ctx'. split_and!; [done | | | | |].
  - intros p Hp%Hpar.
    pose proof (external_parent_not_selected _ _ _ _ Hp) as Hnot.
    split_and!; [done | by intros r Hr _ -> | done |].
    by apply head_omap_first in Hp.
  - intros Hroots.
    destruct (parent_of ctx' (fresh (dom (data_objects ctx)))) as [p|] eqn:Hp;
      [| done].
    pose proof (Hpar p eq_refl) as Hext.
    apply (external_parent_member ctx _ Hmem) in Hext
      as [_ (r & Hr & Htop & Hrp)].
    rewrite (Hroots r Hr Htop) in Hrp. done.
  - intros Hclosed Hac.
    assert (Hac' : acyclic ctx').
    { eapply (after_acyclic ctx ctx'); [done.. |].
      intros p Hp. by apply (Hcheck Hclosed Hac p (Hpar p Hp)). }
    split_and!; [done | |].
    + intros r Hr Hbelow. apply (Hac' r). by eapply tc_l.
    + intros p Hp. pose proof (Hcheck Hclosed Hac p Hp) as Hiff.
      split; [done |]. split.
      * intros Hnone Hclear. apply Hiff in Hclear. congruence.
      * intros Hnot.
        destruct (parent_of ctx' (fresh (dom (data_objects ctx))))
          as [q|] eqn:Hq; [| done].
        destruct Hnot. apply Hiff. f_equal.
        pose proof (Hpar q eq_refl). congruence.
  - unfold local_to_of, parent_of. by rewrite He.
  - intros c E parent' HE. eexists.
    split; [by apply reparent_anchor_run |].
    unfold matrix_world_of, parent_of, local_to_of. simpl.
    rewrite lookup_insert_eq.
    split; [by destruct parent' |]. intros p ->. simpl.
    split; [| done]. case_match; eauto.
Qed.
End AnchorParentClaim.

(** The run of C7 on two selected nodes, the first of which has a parent
    that is not selected: the anchor ends below that parent. *)
Lemma anchor_parent_external_witness :
  selected (@pair_under_parent binary32) ≠ ∅ ∧
  ∃ ctx',
    @ParentToEmpty.execute binary32 elements elements ParentToEmpty.default
      (@pair_under_parent binary32)
    = Ok (FINISHED, ctx') ∧
    parent_of ctx' 4%positive = Some 3%positive ∧
    (3%positive ∉ selected (@pair_under_parent binary32)) ∧
    anchor_not_below_children ctx' 4%positive.
Proof.
  assert (Hsel : selected (@pair_under_parent binary32) ≠ ∅)
    by by_computation.
  split; [exact Hsel |].
  destruct (@anchor_parent_external binary32 elements elements
              ParentToEmpty.default (@pair_under_parent binary32)
              elements_enumerates elements_enumerates Hsel)
    as (ctx' & Hrun & Hexternal & _ & Hgraph & _).
  exists ctx'. split; [exact Hrun |].
  destruct (Hgraph ltac:(unfold closed; by_computation)
              ltac:(apply chains_end_acyclic; unfold chains_end;
                    by_computation))
    as (_ & Hbelow & Hparent).
  assert (Hthree : parent_of ctx' 4%positive = Some 3%positive).
  { apply (Hparent 3%positive); [vm_compute; reflexivity |].
    intros a Hroot. exfalso.
    eapply (root_no_ancestor (@pair_under_parent binary32)); [| exact Hroot].
    vm_compute. reflexivity. }
  split; [exact Hthree |].
  split; [exact (proj1 (Hexternal 3%positive Hthree)) | exact Hbelow].
Defined.

(** The run of C7 on the chain 1 → 2 → 3 with 1 and 3 selected: the parent
    found for the anchor is 2, which is below the selected 1, and the host
    leaves the anchor without parent. *)
Lemma anchor_parent_refused :
  ∃ ctx',
    @ParentToEmpty.execute binary32 elements elements ParentToEmpty.default
      (@chain binary32 true false true)
    = Ok (FINISHED, ctx') ∧
    external_parent (@chain binary32 true false true)
      (selected (@chain binary32 true false true))
      (elements (selected (@chain binary32 true false true)))
    = Some 2%positive ∧
    parent_of ctx' 1%positive = Some 4%positive ∧
    parent_of ctx' 3%positive = Some 4%positive ∧
    parent_of ctx' 2%positive = Some 1%positive ∧
    parent_of ctx' 4%positive = None.
Proof.
  eexists. split; [vm_compute; reflexivity |].
  split_and!; vm_compute; reflexivity.
Qed.
Section ParentToEmptyProperties.
Context {fmt : FloatFormat}.
Variables host_order set_order : gset ObjRef → list ObjRef.
Implicit Types (ctx : Context) (k r x : ObjRef).

(** X8.  On a non-empty selection [ParentToEmpty.execute] adds exactly one
    object to the scene and removes none.  The new object is an empty with
    the plain-axes display and the operator's three display options, it is
    linked to the scene collection and has a base in the view layer, and
    it ends as the only selected object and as the active object. *)
Theorem anchor_sole_selection self ctx :
  enumerates host_order → enumerates set_order → selected ctx ≠ ∅ →
  ∃ ctx' E,
    ParentToEmpty.execute host_order set_order self ctx = Ok (FINISHED, ctx') ∧
    (fresh (dom (data_objects ctx)) ∉ dom (data_objects ctx)) ∧
    dom (data_objects ctx')
    = {[fresh (dom (data_objects ctx))]} ∪ dom (data_objects ctx) ∧
    selected ctx' = {[fresh (dom (data_objects ctx))]} ∧
    active ctx' = Some (fresh (dom (data_objects ctx))) ∧
    collection_objects ctx'
    = {[fresh (dom (data_objects ctx))]} ∪ collection_objects ctx ∧
    selectable ctx' (fresh (dom (data_objects ctx))) ∧
    data_objects ctx' !! fresh (dom (data_objects ctx)) = Some E ∧
    Object.type E = "EMPTY"%string ∧
    Object.empty_display_type E = "PLAIN_AXES"%string ∧
    Object.show_name E = ParentToEmpty.show_name self ∧
    Object.show_axis E = ParentToEmpty.show_axis self ∧
    Object.show_in_front E = ParentToEmpty.show_in_front self.
Proof.
  intros Hhost Hset Hsel.
  destruct (parent_to_empty_scene host_order set_order self ctx Hhost Hset
              Hsel)
    as (ctx' & parent & Hrun & He & _ & Hcoll & Hact & Hbas & _ & _ & Hdom
        & Hsel' & _).
  exists ctx'. eexists.
  split_and!; [done | apply is_fresh | done | done | done | done | | done.. ].
  unfold selectable. rewrite Hbas. apply lookup_insert_eq.
Qed.

(** X9.  [ParentToEmpty.execute] edits nothing that was in the scene
    beyond parent links and selection flags: every object keeps its data
    and its display settings and ends deselected.  An object outside the
    selection keeps its parent link, and the add-on assigns no matrix to
    it; a selected object whose parent is selected keeps its parent link
    as well. *)
Theorem parent_to_empty_frame self ctx :
  enumerates host_order → enumerates set_order → selected ctx ≠ ∅ →
  ∃ ctx',
    ParentToEmpty.execute host_order set_order self ctx = Ok (FINISHED, ctx') ∧
    ∀ k o, data_objects ctx !! k = Some o →
      ∃ o', data_objects ctx' !! k = Some o' ∧
            appearance o' = appearance o ∧
            Object.select o' = false ∧
            (k ∉ selected ctx ∨ is_top_level ctx (selected ctx) k = false →
             Object.parent o' = Object.parent o ∧
             Object.local_to o' = Object.local_to o).
Proof.
  intros Hhost Hset Hsel.
  destruct (parent_to_empty_scene host_order set_order self ctx Hhost Hset
              Hsel)
    as (ctx' & parent & Hrun & _ & Hlook & _).
  exists ctx'. split; [done |]. intros k o Ho.
  assert (Hk : k ≠ fresh (dom (data_objects ctx))).
  { intros ->. apply (is_fresh (dom (data_objects ctx))), elem_of_dom.
    eauto. }
  rewrite (Hlook k Hk), Ho. simpl. eexists. split; [done |].
  unfold reparented. split_and!.
  - by case_bool_decide.
  - done.
  - intros Hnot. rewrite bool_decide_eq_false_2; [done |].
    intros [Hin Htop]. destruct Hnot; [done | congruence].
Qed.

(** X10.  The parent links, the data, the display settings and the
    selection that [ParentToEmpty.execute] leaves depend neither on the
    order in which the host lists the selection, nor on the order in which
    the set is iterated, nor on the operator's properties: two runs agree
    on them for every object other than the anchor.  When, on a closed and
    acyclic scene graph, all the top-level members that have a parent have
    the same one, the two runs agree on the parent of the anchor as well,
    and it is that common parent or none. *)
Theorem reparenting_order_independent self self' ctx
    (host_order' set_order' : gset ObjRef → list ObjRef) :
  enumerates host_order → enumerates set_order →
  enumerates host_order' → enumerates set_order' →
  selected ctx ≠ ∅ →
  ∃ ctx1 ctx2,
    ParentToEmpty.execute host_order set_order self ctx = Ok (FINISHED, ctx1) ∧
    ParentToEmpty.execute host_order' set_order' self' ctx
    = Ok (FINISHED, ctx2) ∧
    dom (data_objects ctx1) = dom (data_objects ctx2) ∧
    (∀ k, k ≠ fresh (dom (data_objects ctx)) →
          parent_of ctx1 k = parent_of ctx2 k ∧
          local_to_of ctx1 k = local_to_of ctx2 k ∧
          appearance <$> data_objects ctx1 !! k
          = appearance <$> data_objects ctx2 !! k) ∧
    selected ctx1 = selected ctx2 ∧
    active ctx1 = active ctx2 ∧
    collection_objects ctx1 = collection_objects ctx2 ∧
    bases ctx1 = bases ctx2 ∧
    (closed ctx → acyclic ctx →
     ∀ p,
       (∀ r, r ∈ selected ctx → is_top_level ctx (selected ctx) r = true →
             parent_of ctx r = None ∨ parent_of ctx r = Some p) →
       parent_of ctx1 (fresh (dom (data_objects ctx)))
       = parent_of ctx2 (fresh (dom (data_objects ctx))) ∧
       (parent_of ctx1 (fresh (dom (data_objects ctx))) = None ∨
        parent_of ctx1 (fresh (dom (data_objects ctx))) = Some p)).
Proof.
  intros Hhost Hset Hhost' Hset' Hsel.
  destruct (parent_to_empty_scene host_order set_order self ctx Hhost Hset
              Hsel)
    as (ctx1 & parent1 & Hrun1 & _ & Hlook1 & Hcoll1 & Hact1 & Hbas1 & Hmem1
        & Hpar1 & Hdom1 & Hsel1 & Hcheck1).
  destruct (parent_to_empty_scene host_order' set_order' self' ctx Hhost'
              Hset' Hsel)
    as (ctx2 & parent2 & Hrun2 & _ & Hlook2 & Hcoll2 & Hact2 & Hbas2 & Hmem2
        & Hpar2 & Hdom2 & Hsel2 & Hcheck2).
  exists ctx1, ctx2. split_and!; [done | done | | | | | | |].
  - by rewrite Hdom1, Hdom2.
  - intros k Hk. unfold parent_of, local_to_of. by rewrite Hlook1, Hlook2.
  - by rewrite Hsel1, Hsel2.
  - by rewrite Hact1, Hact2.
  - by rewrite Hcoll1, Hcoll2.
  - by rewrite Hbas1, Hbas2.
  - intros Hclosed Hac p Hcommon.
    assert (Hone : ∀ l, (∀ r, r ∈ l ↔ r ∈ selected ctx) →
              ∀ q, external_parent ctx (selected ctx) l = Some q → q = p).
    { intros l Hl q Hq.
      apply (external_parent_member ctx l Hl) in Hq
        as [_ (r & Hr & Htop & Hrq)].
      destruct (Hcommon r Hr Htop); congruence. }
    assert (Hboth : ∀ l l', (∀ r, r ∈ l ↔ r ∈ selected ctx) →
              (∀ r, r ∈ l' ↔ r ∈ selected ctx) →
              external_parent ctx (selected ctx) l = Some p →
              external_parent ctx (selected ctx) l' = Some p).
    { intros l l' Hl Hl' Hq.
      apply (external_parent_member ctx l Hl) in Hq
        as [_ (r & Hr & Htop & Hrq)].
      destruct (external_parent ctx (selected ctx) l') as [q'|] eqn:Hq'.
      - by rewrite (Hone l' Hl' q' Hq').
      - rewrite (external_parent_none ctx l' Hl' Hq' r Hr Htop) in Hrq.
        done. }
    assert (Hsome : ∀ q, parent_of ctx1 (fresh (dom (data_objects ctx)))
                         = Some q ↔
                         parent_of ctx2 (fresh (dom (data_objects ctx)))
                         = Some q).
    { intros q. split.
      - intros Hq. pose proof (Hpar1 q Hq) as Hext.
        pose proof (Hone _ Hmem1 q Hext) as ->.
        apply (Hcheck2 Hclosed Hac p); [exact (Hboth _ _ Hmem1 Hmem2 Hext) |].
        by apply (Hcheck1 Hclosed Hac p).
      - intros Hq. pose proof (Hpar2 q Hq) as Hext.
        pose proof (Hone _ Hmem2 q Hext) as ->.
        apply (Hcheck1 Hclosed Hac p); [exact (Hboth _ _ Hmem2 Hmem1 Hext) |].
        by apply (Hcheck2 Hclosed Hac p). }
    split.
    + apply option_eq. intros q. apply Hsome.
    + destruct (parent_of ctx1 (fresh (dom (data_objects ctx))))
        as [q|] eqn:Hq; [| by left].
      right. f_equal. apply (Hone _ Hmem1). by apply Hpar1.
Qed.

(** X11.  [ParentToEmpty.execute] keeps a closed scene graph closed: every
    parent link of the scene it leaves points to an object of that scene.
    It keeps an acyclic scene graph acyclic when no object above the parent
    it gives the anchor is selected, in particular when no top-level
    member of the selection has a parent. *)
Theorem parent_to_empty_keeps_graph self ctx :
  enumerates host_order → enumerates set_order → selected ctx ≠ ∅ →
  closed ctx →
  ∃ ctx',
    ParentToEmpty.execute host_order set_order self ctx = Ok (FINISHED, ctx') ∧
    closed ctx' ∧
    (acyclic ctx → anchor_parent_clear ctx set_order → acyclic ctx') ∧
    (acyclic ctx →
     (∀ r, r ∈ selected ctx → is_top_level ctx (selected ctx) r = true →
           parent_of ctx r = None) →
     acyclic ctx').
Proof.
  intros Hhost Hset Hsel Hclosed.
  destruct (parent_to_empty_scene host_order set_order self ctx Hhost Hset
              Hsel)
    as (ctx' & parent & Hrun & _ & Hlook & _ & _ & _ & Hmem & Hpar & Hdom & _
        & Hcheck).
  assert (Hkeeps : acyclic ctx → acyclic ctx').
  { intros Hac. eapply (after_acyclic ctx ctx'); [done.. |].
    intros p Hp. by apply (Hcheck Hclosed Hac p (Hpar p Hp)). }
  exists ctx'. split_and!; [done | | |].
  - by eapply (after_closed ctx ctx').
  - intros Hac _. by apply Hkeeps.
  - intros Hac _. by apply Hkeeps.
Qed.

(** X12.  After [ParentToEmpty.execute] on a closed and acyclic scene
    graph, the objects below the anchor are the selected objects and the
    objects that were below a selected one, and no others. *)
Theorem anchor_subtree_is_selection self ctx :
  enumerates host_order → enumerates set_order → selected ctx ≠ ∅ →
  closed ctx → acyclic ctx →
  ∃ ctx',
    ParentToEmpty.execute host_order set_order self ctx = Ok (FINISHED, ctx') ∧
    ∀ x, x ≠ fresh (dom (data_objects ctx)) →
         descendant ctx' x (fresh (dom (data_objects ctx))) ↔
         in_subtree ctx (selected ctx) x.
Proof.
  intros Hhost Hset Hsel Hclosed Hac.
  destruct (parent_to_empty_scene host_order set_order self ctx Hhost Hset
              Hsel)
    as (ctx' & parent & Hrun & _ & Hlook & _ & _ & _ & Hmem & Hpar & _).
  exists ctx'. split; [done |]. intros x Hx. split.
  - by eapply (under_anchor_subtree ctx ctx').
  - by eapply (subtree_under_anchor ctx ctx').
Qed.

(** X13.  On a closed and acyclic scene graph in which no object above the
    parent given to the anchor is selected, [ParentToEmpty.execute]
    followed by [DeleteRecursive.execute] removes the anchor again together
    with the objects that [DeleteRecursive.execute] alone removes, and
    leaves the remaining objects as that run leaves them; no object is
    active afterwards. *)
Theorem parent_then_delete self ctx :
  enumerates host_order → enumerates set_order → selected ctx ≠ ∅ →
  closed ctx → acyclic ctx → anchor_parent_clear ctx set_order →
  ∃ ctx1 ctx2 ctx3,
    ParentToEmpty.execute host_order set_order self ctx = Ok (FINISHED, ctx1) ∧
    DeleteRecursive.execute host_order set_order ctx1 = Ok (FINISHED, ctx2) ∧
    DeleteRecursive.execute host_order set_order ctx = Ok (FINISHED, ctx3) ∧
    data_objects ctx2 = data_objects ctx3 ∧
    collection_objects ctx2
    = collection_objects ctx3 ∖ {[fresh (dom (data_objects ctx))]} ∧
    active ctx2 = None.
Proof.
  intros Hhost Hset Hsel Hclosed Hac Hclear.
  destruct (parent_to_empty_scene host_order set_order self ctx Hhost Hset
              Hsel)
    as (ctx1 & parent & Hrun1 & _ & Hlook & Hcoll1 & Hact1 & _ & Hmem & Hpar
        & _ & Hsel1 & _).
  assert (Hac1 : acyclic ctx1).
  { eapply (after_acyclic ctx ctx1); [done.. |].
    intros p Hp. by apply Hclear, Hpar. }
  destruct (delete_recursive_state host_order set_order Hhost Hset ctx1)
    as (ctx2 & Hrun2 & Hlook2 & Hcoll2 & Hact2 & _).
  destruct (delete_recursive_state host_order set_order Hhost Hset ctx)
    as (ctx3 & Hrun3 & Hlook3 & Hcoll3 & _).
  assert (Hanchor : fresh (dom (data_objects ctx))
                    ∈ subtree_set ctx1 (host_order (selected ctx1))).
  { apply selected_in_subtree_set; [done |]. rewrite Hsel1.
    by apply elem_of_singleton. }
  assert (Hsub : ∀ x, x ≠ fresh (dom (data_objects ctx)) →
            x ∈ subtree_set ctx1 (host_order (selected ctx1)) ↔
            x ∈ subtree_set ctx (host_order (selected ctx))).
  { intros x Hx. rewrite !elem_of_subtree_selected by done.
    unfold in_subtree at 1. rewrite Hsel1. split.
    - intros [?%elem_of_singleton | (r & ->%elem_of_singleton & Hbelow)];
        [done |].
      by eapply (under_anchor_subtree ctx ctx1).
    - intros Hin. right. exists (fresh (dom (data_objects ctx))).
      split; [by apply elem_of_singleton |].
      by eapply (subtree_under_anchor ctx ctx1). }
  exists ctx1, ctx2, ctx3. split_and!; [done.. | | |].
  - apply map_eq. intros k. rewrite Hlook2, Hlook3.
    destruct (decide (k = fresh (dom (data_objects ctx)))) as [-> | Hk].
    + rewrite decide_True by done. case_decide; [done |].
      symmetry. apply not_elem_of_dom, is_fresh.
    + destruct (decide (k ∈ subtree_set ctx (host_order (selected ctx))))
        as [Hin | Hout].
      * rewrite decide_True; [done | by apply Hsub].
      * rewrite decide_False by by rewrite Hsub.
        rewrite Hlook by done.
        destruct (data_objects ctx !! k) as [o|] eqn:Ho; [| done].
        simpl. f_equal. unfold reparented.
        assert (Hnot : k ∉ selected ctx).
        { intros Hin. by apply Hout, selected_in_subtree_set. }
        rewrite bool_decide_eq_false_2 by by intros [? _].
        apply set_select_same. by eapply not_selected_flag.
  - apply set_eq. intros k.
    rewrite Hcoll2, Hcoll1, elem_of_difference, Hcoll3, elem_of_union,
      !elem_of_singleton.
    destruct (decide (k = fresh (dom (data_objects ctx)))) as [-> | Hk].
    + tauto.
    + rewrite Hsub by done. tauto.
  - apply option_eq. intros a. rewrite Hact2, Hact1. split; [| done].
    intros [[= <-] Hout]. done.
Qed.

(** X14.  On a closed and acyclic scene graph, a second run of
    [ParentToEmpty.execute] on what the first run leaves puts a new anchor
    between the first anchor and its parent: the first anchor gets the
    second as its parent, the second gets the parent that the first had,
    and the second ends as the selection. *)
Theorem parent_to_empty_twice self self' ctx :
  enumerates host_order → enumerates set_order → selected ctx ≠ ∅ →
  closed ctx → acyclic ctx →
  ∃ ctx1 ctx2,
    ParentToEmpty.execute host_order set_order self ctx = Ok (FINISHED, ctx1) ∧
    ParentToEmpty.execute host_order set_order self' ctx1
    = Ok (FINISHED, ctx2) ∧
    fresh (dom (data_objects ctx1)) ≠ fresh (dom (data_objects ctx)) ∧
    parent_of ctx2 (fresh (dom (data_objects ctx)))
    = Some (fresh (dom (data_objects ctx1))) ∧
    local_to_of ctx2 (fresh (dom (data_objects ctx)))
    = Some (fresh (dom (data_objects ctx1))) ∧
    parent_of ctx2 (fresh (dom (data_objects ctx1)))
    = parent_of ctx1 (fresh (dom (data_objects ctx))) ∧
    selected ctx2 = {[fresh (dom (data_objects ctx1))]}.
Proof.
  intros Hhost Hset Hsel Hclosed Hac.
  destruct (parent_to_empty_scene host_order set_order self ctx Hhost Hset
              Hsel)
    as (ctx1 & parent1 & Hrun1 & He1 & Hlook1 & _ & _ & _ & Hmem1 & Hpar1
        & Hdom1 & Hsel1 & Hcheck1).
  assert (Hclosed1 : closed ctx1) by by eapply (after_closed ctx ctx1).
  assert (Hac1 : acyclic ctx1).
  { eapply (after_acyclic ctx ctx1); [done.. |].
    intros p Hp. by apply (Hcheck1 Hclosed Hac p (Hpar1 p Hp)). }
  assert (Hsel1' : selected ctx1 ≠ ∅).
  { rewrite Hsel1. intros Hempty.
    apply (not_elem_of_empty (C := gset ObjRef)
             (fresh (dom (data_objects ctx)))).
    rewrite <-Hempty. by apply elem_of_singleton. }
  destruct (parent_to_empty_scene host_order set_order self' ctx1 Hhost Hset
              Hsel1')
    as (ctx2 & parent2 & Hrun2 & _ & Hlook2 & _ & _ & _ & Hmem2 & Hpar2 & _
        & Hsel2 & Hcheck2).
  assert (Hin : fresh (dom (data_objects ctx)) ∈ selected ctx1).
  { rewrite Hsel1. by apply elem_of_singleton. }
  assert (Hne : fresh (dom (data_objects ctx1))
                ≠ fresh (dom (data_objects ctx))).
  { intros Heq. apply (is_fresh (dom (data_objects ctx1))).
    rewrite Heq at 1. by apply selected_dom. }
  assert (Hself : ¬ child_of ctx1 (fresh (dom (data_objects ctx)))
                      (fresh (dom (data_objects ctx)))).
  { intros Hloop. apply (Hac1 (fresh (dom (data_objects ctx)))).
    by apply tc_once. }
  assert (Htop : is_top_level ctx1 (selected ctx1)
                   (fresh (dom (data_objects ctx))) = true).
  { unfold is_top_level.
    destruct (parent_of ctx1 (fresh (dom (data_objects ctx))))
      as [p|] eqn:Hp; [| done].
    apply bool_decide_eq_true. rewrite Hsel1. by intros ->%elem_of_singleton. }
  assert (Hone : ∀ r, r ∈ selected ctx1 → r = fresh (dom (data_objects ctx))).
  { intros r. rewrite Hsel1. by intros ->%elem_of_singleton. }
  exists ctx1, ctx2. split_and!; [done | done | done | | | | done].
  - by eapply (top_parent_after ctx1 ctx2).
  - unfold local_to_of. rewrite Hlook2 by done.
    destruct (data_objects ctx1 !! fresh (dom (data_objects ctx)))
      as [E|] eqn:HE; [| by apply selected_dom, elem_of_dom in Hin as [? ?]].
    simpl. unfold reparented. by rewrite bool_decide_eq_true_2.
  - destruct (external_parent ctx1 (selected ctx1)
                (set_order (selected ctx1))) as [q|] eqn:Hq.
    + pose proof (external_parent_member ctx1 _ Hmem2 q Hq)
        as [_ (r & Hr & _ & Hrq)].
      rewrite (Hone r Hr) in Hrq. rewrite Hrq.
      apply (Hcheck2 Hclosed1 Hac1 q eq_refl).
      intros a Hqa Ha. rewrite (Hone a Ha) in Hqa.
      apply (Hac1 (fresh (dom (data_objects ctx)))).
      eapply tc_l; [exact Hrq | exact Hqa].
    + rewrite (external_parent_none ctx1 _ Hmem2 Hq _ Hin Htop).
      destruct (parent_of ctx2 (fresh (dom (data_objects ctx1))))
        as [q|] eqn:Hq2; [| done].
      by pose proof (Hpar2 q eq_refl).
Qed.
End ParentToEmptyProperties.

(** * The further properties on the example scenes *)

Lemma reverse_elements_enumerates :
  enumerates (λ X : gset ObjRef, reverse (elements X)).
Proof. intros X. apply reverse_Permutation. Qed.

Lemma chain_acyclic (fmt : FloatFormat) (s1 s2 s3 : bool) :
  acyclic (chain s1 s2 s3).
Proof.
  apply chains_end_acyclic. unfold chains_end.
  destruct s1, s2, s3; by_computation.
Qed.

Lemma chain_in_view_layer (fmt : FloatFormat) (s1 s2 s3 : bool) :
  descendants_in_view_layer (chain s1 s2 s3).
Proof.
  apply (list_descendants_in_view_layer elements elements_enumerates);
    [apply chain_acyclic |].
  destruct s1, s2, s3; by_computation.
Qed.

Lemma pair_under_parent_acyclic : acyclic (@pair_under_parent binary32).
Proof. apply chains_end_acyclic. unfold chains_end. by_computation. Qed.

Lemma pair_under_parent_closed : closed (@pair_under_parent binary32).
Proof. unfold closed. by_computation. Qed.

Lemma pair_under_parent_clear :
  anchor_parent_clear (@pair_under_parent binary32) elements.
Proof.
  intros p Hp a Ha. exfalso. vm_compute in Hp. injection Hp as <-.
  eapply (root_no_ancestor (@pair_under_parent binary32)); [| exact Ha].
  vm_compute. reflexivity.
Qed.

(** The chain 1 → 2 → 3 with 1 selected: everything is removed. *)
Lemma delete_recursive_twice_witness :
  ∃ ctx',
    DeleteRecursive.execute elements elements
      (@chain binary32 true false false)
    = Ok (FINISHED, ctx') ∧
    selected ctx' = ∅ ∧
    DeleteRecursive.execute elements elements ctx' = Ok (FINISHED, ctx').
Proof.
  destruct (delete_recursive_twice elements elements
              (@chain binary32 true false false)
              elements_enumerates elements_enumerates)
    as (ctx' & Hrun & _ & Hnone & Hagain).
  exists ctx'. split; [exact Hrun |]. split; [exact Hnone | exact Hagain].
Defined.

(** The chain 1 → 2 → 3 with 2 selected: 1 remains, without children. *)
Lemma delete_recursive_keeps_graph_witness :
  acyclic (@chain binary32 false true false) ∧
  closed (@chain binary32 false true false) ∧
  ∃ ctx',
    DeleteRecursive.execute elements elements
      (@chain binary32 false true false)
    = Ok (FINISHED, ctx') ∧
    closed ctx' ∧ acyclic ctx'.
Proof.
  assert (Hac : acyclic (@chain binary32 false true false))
    by apply chain_acyclic.
  assert (Hclosed : closed (@chain binary32 false true false))
    by (unfold closed; by_computation).
  split; [exact Hac |]. split; [exact Hclosed |].
  destruct (delete_recursive_keeps_graph elements elements
              (@chain binary32 false true false)
              elements_enumerates elements_enumerates Hac Hclosed)
    as (ctx' & Hrun & Hclosed' & Hac' & _).
  exists ctx'. split; [exact Hrun |]. split; [exact Hclosed' | exact Hac'].
Defined.

Lemma select_then_delete_witness :
  acyclic (@chain binary32 true false false) ∧
  descendants_in_view_layer (@chain binary32 true false false) ∧
  (SelectDescendants.execute elements ≫= λ _,
     DeleteRecursive.execute elements elements)
    (@chain binary32 true false false)
  = DeleteRecursive.execute elements elements
      (@chain binary32 true false false).
Proof.
  assert (Hac : acyclic (@chain binary32 true false false))
    by apply chain_acyclic.
  assert (Hlayer : descendants_in_view_layer
                     (@chain binary32 true false false))
    by apply chain_in_view_layer.
  split; [exact Hac |]. split; [exact Hlayer |].
  exact (select_then_delete elements elements
           (@chain binary32 true false false)
           elements_enumerates elements_enumerates Hac Hlayer).
Defined.

Lemma select_descendants_twice_witness :
  acyclic (@chain binary32 true false false) ∧
  descendants_in_view_layer (@chain binary32 true false false) ∧
  ∃ ctx',
    SelectDescendants.execute elements (@chain binary32 true false false)
    = Ok (FINISHED, ctx') ∧
    SelectDescendants.execute elements ctx' = Ok (FINISHED, ctx').
Proof.
  assert (Hac : acyclic (@chain binary32 true false false))
    by apply chain_acyclic.
  assert (Hlayer : descendants_in_view_layer
                     (@chain binary32 true false false))
    by apply chain_in_view_layer.
  split; [exact Hac |]. split; [exact Hlayer |].
  destruct (select_descendants_twice elements
              (@chain binary32 true false false) elements_enumerates Hac
              Hlayer)
    as (ctx' & Hrun & _ & Hagain).
  exists ctx'. split; [exact Hrun | exact Hagain].
Defined.

(** An empty among the listed objects makes the reducer raise. *)
Lemma bounding_box_raises_witness :
  (∀ r, r ∈ [1%positive] → r ∈ dom (data_objects (@two_empties binary32))) ∧
  @get_bounding_box binary32 [1%positive] (@two_empties binary32)
  = Raise AttributeError.
Proof.
  assert (Hdom : ∀ r, r ∈ [1%positive] →
                      r ∈ dom (data_objects (@two_empties binary32))).
  { intros r ->%list_elem_of_singleton. by_computation. }
  split; [exact Hdom |].
  destruct (@bounding_box_raises binary32 (@two_empties binary32)
              [1%positive] Hdom) as (Hraise & _).
  apply Hraise. intros Hall. apply Forall_cons in Hall as [Hmesh _].
  apply is_mesh_type in Hmesh. vm_compute in Hmesh. discriminate Hmesh.
Defined.

Lemma apply_location_overwrites_witness :
  data_objects (@two_empties binary32) !! 1%positive
  = Some (scene_object None (@at_position binary32 0 0 0) NoData true) ∧
  ∃ ctx',
    apply_location_to_matrix (Val (@vec binary32 7 8 9)) 1%positive
      (@two_empties binary32)
    = Ok (tt, ctx') ∧
    translation_of ctx' 1%positive = Some (@vec binary32 7 8 9) ∧
    apply_location_to_matrix (Val (@vec binary32 1 2 3)) 1%positive ctx'
    = apply_location_to_matrix (Val (@vec binary32 1 2 3)) 1%positive
        (@two_empties binary32).
Proof.
  assert (Hlook : data_objects (@two_empties binary32) !! 1%positive
            = Some (scene_object None (@at_position binary32 0 0 0)
                      NoData true)).
  { vm_compute. reflexivity. }
  split; [exact Hlook |].
  destruct (apply_location_overwrites (@two_empties binary32) 1%positive _
              (@vec binary32 7 8 9) Hlook)
    as (ctx' & E' & Hrun & HE' & Hv & _ & _ & _ & _ & _ & _ & _ & _ & _
        & Hagain).
  exists ctx'. split; [exact Hrun |]. split; [| apply Hagain].
  unfold translation_of. rewrite HE'. simpl. f_equal. exact Hv.
Defined.

(** Two selected empties, one of them under an unselected parent: the
    anchor is object 4. *)
Lemma anchor_sole_selection_witness :
  selected (@pair_under_parent binary32) ≠ ∅ ∧
  ∃ ctx',
    @ParentToEmpty.execute binary32 elements elements ParentToEmpty.default
      (@pair_under_parent binary32)
    = Ok (FINISHED, ctx') ∧
    selected ctx' = {[4%positive]} ∧
    active ctx' = Some 4%positive ∧
    type_of ctx' 4%positive = Some "EMPTY"%string.
Proof.
  assert (Hsel : selected (@pair_under_parent binary32) ≠ ∅)
    by by_computation.
  split; [exact Hsel |].
  destruct (@anchor_sole_selection binary32 elements elements
              ParentToEmpty.default (@pair_under_parent binary32)
              elements_enumerates elements_enumerates Hsel)
    as (ctx' & E & Hrun & _ & _ & Hsel' & Hact & _ & _ & HE & Htype & _).
  exists ctx'. split; [exact Hrun |].
  split; [exact Hsel' |]. split; [exact Hact |].
  unfold type_of.
  change 4%positive
    with (fresh (dom (data_objects (@pair_under_parent binary32)))).
  rewrite HE. simpl. f_equal. exact Htype.
Defined.

Lemma parent_to_empty_frame_witness :
  selected (@pair_under_parent binary32) ≠ ∅ ∧
  ∃ ctx',
    @ParentToEmpty.execute binary32 elements elements ParentToEmpty.default
      (@pair_under_parent binary32)
    = Ok (FINISHED, ctx') ∧
    parent_of ctx' 3%positive = None ∧
    type_of ctx' 3%positive = Some "EMPTY"%string.
Proof.
  assert (Hsel : selected (@pair_under_parent binary32) ≠ ∅)
    by by_computation.
  split; [exact Hsel |].
  destruct (@parent_to_empty_frame binary32 elements elements
              ParentToEmpty.default (@pair_under_parent binary32)
              elements_enumerates elements_enumerates Hsel)
    as (ctx' & Hrun & Hframe).
  exists ctx'. split; [exact Hrun |].
  destruct (Hframe 3%positive
              (scene_object None (@at_position binary32 1 1 1) NoData false))
    as (o' & Ho' & Happearance & _ & Hsame).
  { vm_compute. reflexivity. }
  unfold parent_of, type_of. rewrite Ho'. simpl. split.
  - apply Hsame. left. by_computation.
  - f_equal. unfold Object.type.
    injection Happearance as -> _ _ _ _. reflexivity.
Defined.

Lemma reparenting_order_independent_witness :
  selected (@pair_under_parent binary32) ≠ ∅ ∧
  ∃ ctx1 ctx2,
    @ParentToEmpty.execute binary32 elements elements ParentToEmpty.default
      (@pair_under_parent binary32)
    = Ok (FINISHED, ctx1) ∧
    @ParentToEmpty.execute binary32 elements
      (λ X, reverse (elements X))
      (ParentToEmpty.mk ParentToEmpty.TOP false true false)
      (@pair_under_parent binary32)
    = Ok (FINISHED, ctx2) ∧
    parent_of ctx1 4%positive = parent_of ctx2 4%positive ∧
    parent_of ctx1 1%positive = parent_of ctx2 1%positive.
Proof.
  assert (Hsel : selected (@pair_under_parent binary32) ≠ ∅)
    by by_computation.
  split; [exact Hsel |].
  destruct (@reparenting_order_independent binary32 elements elements
              ParentToEmpty.default
              (ParentToEmpty.mk ParentToEmpty.TOP false true false)
              (@pair_under_parent binary32)
              elements (λ X, reverse (elements X))
              elements_enumerates elements_enumerates
              elements_enumerates reverse_elements_enumerates Hsel)
    as (ctx1 & ctx2 & Hrun1 & Hrun2 & _ & Hsame & _ & _ & _ & _ & Hparent).
  exists ctx1, ctx2. split; [exact Hrun1 |]. split; [exact Hrun2 |].
  split.
  - apply (Hparent pair_under_parent_closed pair_under_parent_acyclic
             3%positive).
    intros r Hr _.
    assert (Hall : set_Forall
              (λ r, parent_of (@pair_under_parent binary32) r = None ∨
                    parent_of (@pair_under_parent binary32) r
                    = Some 3%positive)
              (selected (@pair_under_parent binary32))) by by_computation.
    exact (Hall r Hr).
  - apply (Hsame 1%positive). by_computation.
Defined.

Lemma parent_to_empty_keeps_graph_witness :
  selected (@pair_under_parent binary32) ≠ ∅ ∧
  closed (@pair_under_parent binary32) ∧
  acyclic (@pair_under_parent binary32) ∧
  anchor_parent_clear (@pair_under_parent binary32) elements ∧
  ∃ ctx',
    @ParentToEmpty.execute binary32 elements elements ParentToEmpty.default
      (@pair_under_parent binary32)
    = Ok (FINISHED, ctx') ∧
    closed ctx' ∧ acyclic ctx'.
Proof.
  assert (Hsel : selected (@pair_under_parent binary32) ≠ ∅)
    by by_computation.
  split; [exact Hsel |]. split; [exact pair_under_parent_closed |].
  split; [exact pair_under_parent_acyclic |].
  split; [exact pair_under_parent_clear |].
  destruct (@parent_to_empty_keeps_graph binary32 elements elements
              ParentToEmpty.default (@pair_under_parent binary32)
              elements_enumerates elements_enumerates Hsel
              pair_under_parent_closed)
    as (ctx' & Hrun & Hclosed & Hacyclic & _).
  exists ctx'. split; [exact Hrun |]. split; [exact Hclosed |].
  exact (Hacyclic pair_under_parent_acyclic pair_under_parent_clear).
Defined.

Lemma anchor_subtree_is_selection_witness :
  selected (@pair_under_parent binary32) ≠ ∅ ∧
  closed (@pair_under_parent binary32) ∧
  acyclic (@pair_under_parent binary32) ∧
  ∃ ctx',
    @ParentToEmpty.execute binary32 elements elements ParentToEmpty.default
      (@pair_under_parent binary32)
    = Ok (FINISHED, ctx') ∧
    descendant ctx' 1%positive 4%positive ∧
    descendant ctx' 2%positive 4%positive ∧
    ¬ descendant ctx' 3%positive 4%positive.
Proof.
  assert (Hsel : selected (@pair_under_parent binary32) ≠ ∅)
    by by_computation.
  split; [exact Hsel |]. split; [exact pair_under_parent_closed |].
  split; [exact pair_under_parent_acyclic |].
  destruct (@anchor_subtree_is_selection binary32 elements elements
              ParentToEmpty.default (@pair_under_parent binary32)
              elements_enumerates elements_enumerates Hsel
              pair_under_parent_closed pair_under_parent_acyclic)
    as (ctx' & Hrun & Hbelow).
  exists ctx'. split; [exact Hrun |].
  change 4%positive
    with (fresh (dom (data_objects (@pair_under_parent binary32)))).
  split; [| split].
  - apply Hbelow; [done |]. left. by_computation.
  - apply Hbelow; [done |]. left. by_computation.
  - intros Hthree. apply Hbelow in Hthree; [| done].
    destruct Hthree as [Hin | (r & _ & Hdesc)].
    + revert Hin. by_computation.
    + eapply (root_no_ancestor (@pair_under_parent binary32)); [| exact Hdesc].
      vm_compute. reflexivity.
Defined.

Lemma parent_then_delete_witness :
  selected (@pair_under_parent binary32) ≠ ∅ ∧
  closed (@pair_under_parent binary32) ∧
  acyclic (@pair_under_parent binary32) ∧
  anchor_parent_clear (@pair_under_parent binary32) elements ∧
  ∃ ctx1 ctx2 ctx3,
    @ParentToEmpty.execute binary32 elements elements ParentToEmpty.default
      (@pair_under_parent binary32)
    = Ok (FINISHED, ctx1) ∧
    DeleteRecursive.execute elements elements ctx1 = Ok (FINISHED, ctx2) ∧
    DeleteRecursive.execute elements elements (@pair_under_parent binary32)
    = Ok (FINISHED, ctx3) ∧
    data_objects ctx2 = data_objects ctx3.
Proof.
  assert (Hsel : selected (@pair_under_parent binary32) ≠ ∅)
    by by_computation.
  split; [exact Hsel |]. split; [exact pair_under_parent_closed |].
  split; [exact pair_under_parent_acyclic |].
  split; [exact pair_under_parent_clear |].
  destruct (@parent_then_delete binary32 elements elements
              ParentToEmpty.default (@pair_under_parent binary32)
              elements_enumerates elements_enumerates Hsel
              pair_under_parent_closed pair_under_parent_acyclic
              pair_under_parent_clear)
    as (ctx1 & ctx2 & ctx3 & Hrun1 & Hrun2 & Hrun3 & Hsame & _).
  exists ctx1, ctx2, ctx3.
  split; [exact Hrun1 |]. split; [exact Hrun2 |]. split; [exact Hrun3 |].
  exact Hsame.
Defined.

Lemma iteration_order_irrelevant_witness :
  descendants_in_view_layer (@chain binary32 true true false) ∧
  DeleteRecursive.execute elements elements
    (@chain binary32 true true false)
  = DeleteRecursive.execute (λ X, reverse (elements X))
      (λ X, reverse (elements X)) (@chain binary32 true true false) ∧
  ∃ ctx',
    SelectDescendants.execute elements (@chain binary32 true true false)
    = Ok (FINISHED, ctx') ∧
    SelectDescendants.execute (λ X, reverse (elements X))
      (@chain binary32 true true false)
    = Ok (FINISHED, ctx').
Proof.
  assert (Hlayer : descendants_in_view_layer
                     (@chain binary32 true true false))
    by apply chain_in_view_layer.
  split; [exact Hlayer |].
  destruct (iteration_order_irrelevant (@chain binary32 true true false)
              elements (λ X, reverse (elements X))
              elements (λ X, reverse (elements X))
              elements_enumerates reverse_elements_enumerates
              elements_enumerates reverse_elements_enumerates)
    as [Hdelete Hselect].
  split; [exact Hdelete | exact (Hselect Hlayer)].
Defined.

(** The second anchor is object 5, between the first anchor 4 and the
    parent 3. *)
Lemma parent_to_empty_twice_witness :
  selected (@pair_under_parent binary32) ≠ ∅ ∧
  closed (@pair_under_parent binary32) ∧
  acyclic (@pair_under_parent binary32) ∧
  ∃ ctx1 ctx2,
    @ParentToEmpty.execute binary32 elements elements ParentToEmpty.default
      (@pair_under_parent binary32)
    = Ok (FINISHED, ctx1) ∧
    @ParentToEmpty.execute binary32 elements elements ParentToEmpty.default
      ctx1
    = Ok (FINISHED, ctx2) ∧
    parent_of ctx2 4%positive = Some (fresh (dom (data_objects ctx1))) ∧
    parent_of ctx2 (fresh (dom (data_objects ctx1)))
    = parent_of ctx1 4%positive.
Proof.
  assert (Hsel : selected (@pair_under_parent binary32) ≠ ∅)
    by by_computation.
  split; [exact Hsel |]. split; [exact pair_under_parent_closed |].
  split; [exact pair_under_parent_acyclic |].
  destruct (@parent_to_empty_twice binary32 elements elements
              ParentToEmpty.default ParentToEmpty.default
              (@pair_under_parent binary32)
              elements_enumerates elements_enumerates Hsel
              pair_under_parent_closed pair_under_parent_acyclic)
    as (ctx1 & ctx2 & Hrun1 & Hrun2 & _ & Hfirst & _ & Hsecond & _).
  exists ctx1, ctx2. split; [exact Hrun1 |]. split; [exact Hrun2 |].
  split; [exact Hfirst | exact Hsecond].
Defined.
